(** * Voya: change tracking and tour playback, verified against the sources

    The development embeds three parts of the extension:
    - the change classifier ([ChangeTrackerService.detectAgentChange]) together
      with the fragment of JavaScript regular expressions it relies on;
    - the change tracker ([ChangeTrackerService]): debounce timers, change
      records, journal, asynchronous explanation requests;
    - the tour player: the host side ([VoyaWebviewProvider]) and the webview
      side ([App]) connected by messages. *)

From Stdlib Require Import ZArith NArith List Bool Lia String Ascii.
From Stdlib Require Import DecimalString Sorting.Sorted Sorting.Permutation.
From stdpp Require Import base option list gmap strings.
Import ListNotations.

Set Default Proof Using "Type".
Local Open Scope nat_scope.

(** ** JavaScript strings

    A JavaScript string is a sequence of UTF-16 code units. *)

Module Js.

Abbreviation char := N (only parsing).
Abbreviation jsstring := (list N) (only parsing).

Definition of_ascii (l : list ascii) : jsstring := List.map N_of_ascii l.
Definition str (s : string) : jsstring := of_ascii (list_ascii_of_string s).

Definition LF : char := 10%N.
Definition CR : char := 13%N.
Definition LS : char := 8232%N.  (* U+2028 *)
Definition PS : char := 8233%N.  (* U+2029 *)

(** LineTerminator of ECMA-262: what [^] and [$] look at under the [m] flag. *)
Definition is_line_terminator (c : char) : bool :=
  (c =? LF)%N || (c =? CR)%N || (c =? LS)%N || (c =? PS)%N.

(** The class [\s] (and the set removed by [String.prototype.trim]):
    WhiteSpace and LineTerminator of ECMA-262. *)
Definition is_space (c : char) : bool :=
  (c =? 9)%N || (c =? 11)%N || (c =? 12)%N || (c =? 32)%N || (c =? 160)%N
  || (c =? 5760)%N || ((8192 <=? c)%N && (c <=? 8202)%N)
  || (c =? 8239)%N || (c =? 8287)%N || (c =? 12288)%N || (c =? 65279)%N
  || is_line_terminator c.

(** The class [\w]: [A-Za-z0-9_]. *)
Definition is_word (c : char) : bool :=
  ((65 <=? c)%N && (c <=? 90)%N) || ((97 <=? c)%N && (c <=? 122)%N)
  || ((48 <=? c)%N && (c <=? 57)%N) || (c =? 95)%N.

(** [s.split(sep)] for a one-character separator. *)
Fixpoint split_by (sep : char -> bool) (s : jsstring) : list jsstring :=
  match s with
  | [] => [[]]
  | c :: s' =>
      if sep c then [] :: split_by sep s'
      else match split_by sep s' with
           | [] => [[c]]
           | l :: ls => (c :: l) :: ls
           end
  end.

Definition split (sep : char) (s : jsstring) : list jsstring :=
  split_by (N.eqb sep) s.

Fixpoint drop_spaces (s : jsstring) : jsstring :=
  match s with
  | [] => []
  | c :: s' => if is_space c then drop_spaces s' else s
  end.

Definition trim_end (s : jsstring) : jsstring := rev (drop_spaces (rev s)).

(** [s.trim()] *)
Definition trim (s : jsstring) : jsstring := trim_end (drop_spaces s).

(** [s.startsWith(w)] at the current position, returning what follows. *)
Fixpoint strip_prefix (w s : jsstring) : option jsstring :=
  match w, s with
  | [], _ => Some s
  | _ :: _, [] => None
  | a :: w', b :: s' => if (a =? b)%N then strip_prefix w' s' else None
  end.

End Js.

(** ** The regular expressions of the sources

    The fragment of ECMAScript patterns used by the tracker: literals,
    character classes, the assertions [^] and [$] (every pattern that uses an
    assertion carries the [m] flag), sequence, a greedy optional group and
    greedy [*] and [+] over a character class.  Matching is the backtracking
    procedure of ECMA-262 written with continuations. *)

Module Regex.
Import Js.

Inductive cls : Type :=
| Space                      (* \s *)
| Word                       (* \w *)
| OneOf (l : list char).     (* [...] *)

Definition in_cls (c : cls) (x : char) : bool :=
  match c with
  | Space => is_space x
  | Word => is_word x
  | OneOf l => existsb (N.eqb x) l
  end.

Inductive regex : Type :=
| Str (w : jsstring)          (* a run of literal characters *)
| Cls (c : cls)               (* one character of a class *)
| Bol                         (* ^ with the m flag *)
| Eol                         (* $ with the m flag *)
| Eos                         (* $ without the m flag *)
| Seq (r1 r2 : regex)
| Opt (r : regex)             (* (r)? *)
| Star (c : cls)              (* c* *)
| Plus (c : cls).             (* c+ *)

(** A position in the subject: the character before it (if any) and what
    remains. *)
Definition cont (A : Type) := option char -> jsstring -> option A.

Definition last_or (prev : option char) (w : jsstring) : option char :=
  match last w with Some c => Some c | None => prev end.

Definition at_bol (prev : option char) : bool :=
  match prev with None => true | Some c => is_line_terminator c end.

Definition at_eol (s : jsstring) : bool :=
  match s with [] => true | c :: _ => is_line_terminator c end.

(** Greedy iteration: take one more character if possible, fall back to the
    continuation otherwise. *)
Fixpoint star {A} (c : cls) (k : cont A) (prev : option char) (s : jsstring)
  : option A :=
  match s with
  | x :: s' =>
      if in_cls c x then
        match star c k (Some x) s' with
        | Some r => Some r
        | None => k prev s
        end
      else k prev s
  | [] => k prev s
  end.

Fixpoint run {A} (r : regex) (prev : option char) (s : jsstring) (k : cont A)
  : option A :=
  match r with
  | Str w =>
      match strip_prefix w s with
      | Some s' => k (last_or prev w) s'
      | None => None
      end
  | Cls c =>
      match s with
      | x :: s' => if in_cls c x then k (Some x) s' else None
      | [] => None
      end
  | Bol => if at_bol prev then k prev s else None
  | Eol => if at_eol s then k prev s else None
  | Eos => match s with [] => k prev s | _ :: _ => None end
  | Seq r1 r2 => run r1 prev s (fun p' s' => run r2 p' s' k)
  | Opt r1 =>
      match run r1 prev s k with
      | Some res => Some res
      | None => k prev s
      end
  | Star c => star c k prev s
  | Plus c =>
      match s with
      | x :: s' => if in_cls c x then star c k (Some x) s' else None
      | [] => None
      end
  end.

(** A match attempt anchored at the current position; the result is the part
    of the subject after the match. *)
Definition exec_at (r : regex) (prev : option char) (s : jsstring)
  : option jsstring :=
  run r prev s (fun _ rest => Some rest).

(** [r.test(s)] for a pattern without the [g] and [y] flags: some position
    matches. *)
Fixpoint test_from (r : regex) (prev : option char) (s : jsstring) : bool :=
  match exec_at r prev s with
  | Some _ => true
  | None =>
      match s with
      | [] => false
      | x :: s' => test_from r (Some x) s'
      end
  end.

Definition test (r : regex) (s : jsstring) : bool := test_from r None s.

(** [s.match(r)] for a pattern with the [g] flag: the matched substrings from
    left to right, the search resuming where the previous match ended (one
    character further after an empty match).  [skip] counts the characters
    still covered by the previous match.  The JavaScript result [null] for
    no match is the empty list: the sources always write
    [(s.match(r) || []).length]. *)
Fixpoint match_all_from (r : regex) (skip : nat) (prev : option char)
  (s : jsstring) : list jsstring :=
  match skip with
  | S n =>
      match s with
      | [] => []
      | x :: s' => match_all_from r n (Some x) s'
      end
  | O =>
      match exec_at r prev s with
      | Some rest =>
          let n := length s - length rest in
          take n s ::
            match s with
            | [] => []
            | x :: s' => match_all_from r (n - 1) (Some x) s'
            end
      | None =>
          match s with
          | [] => []
          | x :: s' => match_all_from r 0 (Some x) s'
          end
      end
  end.

Definition match_all (r : regex) (s : jsstring) : list jsstring :=
  match_all_from r 0 None s.

(** *** What a pattern denotes

    [matches r prev s prev' rest]: from the position with [prev] before it
    and [s] after it, the pattern [r] matches a prefix of [s] and leaves the
    position with [prev'] before it and [rest] after it.  This is the
    declarative reading of the pattern, without the order in which the
    matcher tries the alternatives. *)
Inductive matches : regex -> option N -> list N -> option N -> list N -> Prop :=
| matches_Str w prev s : matches (Str w) prev (w ++ s) (last_or prev w) s
| matches_Cls c x prev s :
    in_cls c x = true -> matches (Cls c) prev (x :: s) (Some x) s
| matches_Bol prev s : at_bol prev = true -> matches Bol prev s prev s
| matches_Eol prev s : at_eol s = true -> matches Eol prev s prev s
| matches_Eos prev : matches Eos prev [] prev []
| matches_Seq r1 r2 p s p1 s1 p2 s2 :
    matches r1 p s p1 s1 -> matches r2 p1 s1 p2 s2 ->
    matches (Seq r1 r2) p s p2 s2
| matches_Opt_some r p s p' s' :
    matches r p s p' s' -> matches (Opt r) p s p' s'
| matches_Opt_none r p s : matches (Opt r) p s p s
| matches_Star c ws p s :
    forallb (in_cls c) ws = true ->
    matches (Star c) p (ws ++ s) (last_or p ws) s
| matches_Plus c x ws p s :
    in_cls c x = true -> forallb (in_cls c) ws = true ->
    matches (Plus c) p (x :: ws ++ s) (last_or (Some x) ws) s.

(** The pattern matches somewhere in the text. *)
Definition found (r : regex) (text : list N) : Prop :=
  exists pre post prev' rest,
    text = pre ++ post /\ matches r (last pre) post prev' rest.

End Regex.

(** ** The change classifier *)

Module Classifier.
Import Js Regex.

Inductive source : Type := manual | agent | auto.

Definition lit (s : string) : regex := Str (str s).
Definition chr (s : string) : char :=
  match str s with c :: _ => c | [] => 0%N end.

(** [(export\s+)?] *)
Definition opt_export : regex := Opt (Seq (lit "export") (Plus Space)).

Definition codePatterns : list regex :=
  [ (* /^(export\s+)?(async\s+)?function\s+/m *)
    Seq Bol (Seq opt_export (Seq (Opt (Seq (lit "async") (Plus Space)))
      (Seq (lit "function") (Plus Space))));
    (* /^(export\s+)?class\s+/m *)
    Seq Bol (Seq opt_export (Seq (lit "class") (Plus Space)));
    (* /^(export\s+)?interface\s+/m *)
    Seq Bol (Seq opt_export (Seq (lit "interface") (Plus Space)));
    (* /^(export\s+)?const\s+\w+\s*[=:]/m *)
    Seq Bol (Seq opt_export (Seq (lit "const") (Seq (Plus Space)
      (Seq (Plus Word) (Seq (Star Space) (Cls (OneOf (str "=:"))))))));
    (* /^import\s+/m *)
    Seq Bol (Seq (lit "import") (Plus Space));
    (* /^\/\*\*/m *)
    Seq Bol (lit "/**");
    (* /^\s*\/\//m *)
    Seq Bol (Seq (Star Space) (lit "//")) ].

(** [/\{/g] and [/\}/g] *)
Definition open_brace_re : regex := lit "{".
Definition close_brace_re : regex := lit "}".

(** [/[;{}]\s*$/gm] *)
Definition statement_re : regex :=
  Seq (Cls (OneOf (str ";{}"))) (Seq (Star Space) Eol).

Definition hasCodePattern (text : jsstring) : bool :=
  existsb (fun p => test p text) codePatterns.

Definition detectAgentChange (text : jsstring) : bool :=
  let lines := split LF text in
  if length lines <? 3 then false
  else
    let openBraces := length (match_all open_brace_re text) in
    let closeBraces := length (match_all close_brace_re text) in
    let isBalanced := openBraces =? closeBraces in
    let statements := length (match_all statement_re text) in
    let hasMultipleStatements := 2 <=? statements in
    hasCodePattern text && isBalanced
      && (hasMultipleStatements || (5 <=? length lines)).

(** [source: isLikelyAgent ? 'agent' : 'manual'] in [processChange]. *)
Definition classify (text : jsstring) : source :=
  if detectAgentChange text then agent else manual.

(** *** What the words of the specification denote

    The number of lines is [text.split('\n').length]; brace counts are
    character counts; a line "ends in" a statement character when its last
    character that is not white space is one of [;], [{], [}]. *)

Definition occurrences (c : char) (s : jsstring) : nat :=
  length (List.filter (N.eqb c) s).

Definition line_count (text : jsstring) : nat := S (occurrences LF text).

Definition is_stmt_char (c : char) : bool := existsb (N.eqb c) (str ";{}").

Definition ends_stmt (line : jsstring) : bool :=
  match last (trim_end line) with
  | Some c => is_stmt_char c
  | None => false
  end.

(** Lines as [split('\n')] cuts them. *)
Definition stmt_lines_lf (text : jsstring) : nat :=
  length (List.filter ends_stmt (split LF text)).

(** Lines as the [m] flag cuts them: at every line terminator. *)
Definition stmt_lines (text : jsstring) : nat :=
  length (List.filter ends_stmt (split_by is_line_terminator text)).

(** Some listed pattern matches somewhere in the text. *)
Definition matches_code_pattern (text : jsstring) : Prop :=
  exists p, In p codePatterns /\ found p text.

(** The decision procedure in the words of the specification. *)
Definition spec_condition (stmts : jsstring -> nat) (text : jsstring) : Prop :=
  3 <= line_count text
  /\ matches_code_pattern text
  /\ occurrences (chr "{") text = occurrences (chr "}") text
  /\ (2 <= stmts text \/ 5 <= line_count text).

(** Auxiliary counting functions used in the proofs. *)
Fixpoint blank_to_eol (s : jsstring) : bool :=
  match s with
  | [] => true
  | x :: s' => if is_line_terminator x then true
               else is_space x && blank_to_eol s'
  end.

Fixpoint stmt_ends (s : jsstring) : nat :=
  match s with
  | [] => 0
  | c :: s' =>
      (if is_stmt_char c && blank_to_eol s' then 1 else 0) + stmt_ends s'
  end.

(** A text with a lone carriage return: three lines for [split], of which
    only one ends in a statement character, but two statement ends for the
    [m]-flagged pattern. *)
Definition lone_cr_text : list N :=
  str "x;" ++ [CR] ++ str "y;" ++ [LF] ++ str "//c" ++ [LF] ++ str "foo".

End Classifier.


(** ** Shared types ([core/types]) *)

Module Types.

Inductive DetailLevel : Type := tldr | general | detailed | extreme_detail.

#[global] Instance DetailLevel_eq_dec : EqDecision DetailLevel.
Proof. solve_decision. Defined.

(** The result of a call that may throw (or of a promise that may reject). *)
Inductive outcome (A : Type) : Type :=
| Returned (a : A)
| Thrown (e : list N).
Arguments Returned {A} a.
Arguments Thrown {A} e.

Record LLMRequest : Type := mkRequest {
  req_code : list N;
  req_filePath : list N;
  req_startLine : Z;
  req_endLine : Z;
  req_detailLevel : DetailLevel;
  req_additionalContext : option (list N)
}.

Record LLMResponse : Type := mkResponse { resp_explanation : list N }.

(** Computations over a state [S] that may throw: the shape of a method
    body with [try]/[catch]. *)
Section Monad.
Context {S : Type}.

Definition M (A : Type) : Type := S -> S * outcome A.

Definition ret {A} (a : A) : M A := fun s => (s, Returned a).
Definition throw {A} (e : list N) : M A := fun s => (s, Thrown e).
Definition bind {A B} (m : M A) (f : A -> M B) : M B :=
  fun s =>
    match m s with
    | (s', Returned a) => f a s'
    | (s', Thrown e) => (s', Thrown e)
    end.
Definition try_catch {A} (m : M A) (handler : list N -> M A) : M A :=
  fun s =>
    match m s with
    | (s', Returned a) => (s', Returned a)
    | (s', Thrown e) => handler e s'
    end.
Definition modify (f : S -> S) : M unit := fun s => (f s, Returned tt).
(** The value of a settled promise: a rejection is thrown at the [await]. *)
Definition await {A} (res : outcome A) : M A := fun s => (s, res).

End Monad.
Arguments M S A : clear implicits.

Notation "x <- m ;; k" := (bind m (fun x => k))
  (at level 60, m at next level, right associativity).
Notation "m ;;; k" := (bind m (fun _ => k))
  (at level 60, right associativity).

End Types.

(** ** The change tracker ([ChangeTrackerService])

    Objects that the service shares between its map and its journal live in
    a heap and are named by their index.  The clock ([Date.now]), the
    identifiers drawn by [generateId], the editor's listener registry and
    the timer queue belong to the environment; the first two are arguments
    of the operations, the others are fields of the state. *)

Module Tracker.
Import Js Regex Types.
Export Classifier.

Inductive Status : Type := pending | explaining | explained | error.
Inductive ChangeType : Type := added | modified | deleted.

#[global] Instance Status_eq_dec : EqDecision Status.
Proof. solve_decision. Defined.

Record Range : Type := mkRange { startLine : Z; endLine : Z }.

Record CodeChange : Type := mkChange {
  id : list N;
  timestamp : Z;
  filePath : list N;
  changeType : ChangeType;
  range : Range;
  code : list N;
  explanation : option (list N);
  status : Status;
  source : option source
}.

Record JournalEntry : Type := mkJournal {
  j_id : list N;
  sessionStart : Z;
  sessionEnd : option Z;
  j_title : option (list N);
  j_changes : list nat;          (* references to CodeChange objects *)
  j_summary : option (list N)
}.

(** What the editor hands over with an edit. *)
Record TextDocument : Type := mkDocument {
  scheme : list N;               (* document.uri.scheme *)
  fsPath : list N;               (* document.uri.fsPath *)
  relativePath : list N          (* getRelativePath(document.uri) *)
}.

Record ContentChange : Type := mkContentChange {
  start_line : Z;                (* change.range.start.line *)
  text : list N
}.

Record TextDocumentChangeEvent : Type := mkEvent {
  document : TextDocument;
  contentChanges : list ContentChange
}.

(** [`${filePath}:${change.range.start.line}`]: the path and the line number;
    the template string is injective on such pairs. *)
Abbreviation changeKey := (list N * Z)%type (only parsing).

(** A pending [setTimeout]: its due time and what its callback closes over. *)
Record Timer : Type := mkTimer {
  deadline : Z;
  t_document : TextDocument;
  t_change : ContentChange;
  t_key : changeKey
}.

(** A suspended asynchronous call.  [Waiting r rest]: [explainChange] awaits
    the generator for the object [r]; when the call was made by the loop of
    [handleFileSave], [rest] are the identifiers the loop has still to go
    through.  [Looping rest]: the loop itself, suspended at the [await] of a
    call that has already completed. *)
Inductive Task : Type :=
| Waiting (r : nat) (rest : list (list N))
| Looping (rest : list (list N)).

Definition task_ref (t : Task) : option nat :=
  match t with
  | Waiting r _ => Some r
  | Looping _ => None
  end.

Inductive output : Type :=
| ChangeNotified (c : CodeChange)        (* notifyChangeListeners *)
| JournalNotified (j : JournalEntry)     (* notifyJournalListeners *)
| GeneratorCalled (req : LLMRequest)     (* llmService.generateExplanation *)
| ErrorLogged                            (* console.error *)
| StatusWritten (r : nat) (old new : Status).
    (* history: the assignment [change.status = new] and the value it
       replaced *)

Record state : Type := mkState {
  changes : list (list N * nat);          (* Map, in insertion order *)
  heap : list CodeChange;
  currentJournal : option JournalEntry;
  fileWatchers : list nat;
  documentChangeListener : option nat;
  pendingChanges : gmap changeKey nat;
  isTracking : bool;
  (* environment *)
  edit_listeners : list nat;     (* live onDidChangeTextDocument listeners *)
  save_listeners : list nat;     (* live onDidSaveTextDocument listeners *)
  subscriptions : list nat;      (* context.subscriptions *)
  next_handle : nat;
  timers : gmap nat Timer;
  workspaceFolders : bool;       (* vscode.workspace.workspaceFolders is set *)
  inflight : list Task;
  trace : list output
}.

Definition DEBOUNCE_MS : Z := 2000.

Definition init : state :=
  {| changes := []; heap := []; currentJournal := None; fileWatchers := [];
     documentChangeListener := None; pendingChanges := ∅;
     isTracking := false; edit_listeners := []; save_listeners := [];
     subscriptions := []; next_handle := 0; timers := ∅;
     workspaceFolders := true; inflight := []; trace := [] |}.

(** *** Field updates *)

Definition set_changes v (s : state) : state :=
  mkState v (heap s) (currentJournal s) (fileWatchers s)
    (documentChangeListener s) (pendingChanges s) (isTracking s)
    (edit_listeners s) (save_listeners s) (subscriptions s) (next_handle s)
    (timers s) (workspaceFolders s) (inflight s) (trace s).
Definition set_heap v (s : state) : state :=
  mkState (changes s) v (currentJournal s) (fileWatchers s)
    (documentChangeListener s) (pendingChanges s) (isTracking s)
    (edit_listeners s) (save_listeners s) (subscriptions s) (next_handle s)
    (timers s) (workspaceFolders s) (inflight s) (trace s).
Definition set_currentJournal v (s : state) : state :=
  mkState (changes s) (heap s) v (fileWatchers s)
    (documentChangeListener s) (pendingChanges s) (isTracking s)
    (edit_listeners s) (save_listeners s) (subscriptions s) (next_handle s)
    (timers s) (workspaceFolders s) (inflight s) (trace s).
Definition set_fileWatchers v (s : state) : state :=
  mkState (changes s) (heap s) (currentJournal s) v
    (documentChangeListener s) (pendingChanges s) (isTracking s)
    (edit_listeners s) (save_listeners s) (subscriptions s) (next_handle s)
    (timers s) (workspaceFolders s) (inflight s) (trace s).
Definition set_documentChangeListener v (s : state) : state :=
  mkState (changes s) (heap s) (currentJournal s) (fileWatchers s)
    v (pendingChanges s) (isTracking s)
    (edit_listeners s) (save_listeners s) (subscriptions s) (next_handle s)
    (timers s) (workspaceFolders s) (inflight s) (trace s).
Definition set_pendingChanges v (s : state) : state :=
  mkState (changes s) (heap s) (currentJournal s) (fileWatchers s)
    (documentChangeListener s) v (isTracking s)
    (edit_listeners s) (save_listeners s) (subscriptions s) (next_handle s)
    (timers s) (workspaceFolders s) (inflight s) (trace s).
Definition set_isTracking v (s : state) : state :=
  mkState (changes s) (heap s) (currentJournal s) (fileWatchers s)
    (documentChangeListener s) (pendingChanges s) v
    (edit_listeners s) (save_listeners s) (subscriptions s) (next_handle s)
    (timers s) (workspaceFolders s) (inflight s) (trace s).
Definition set_edit_listeners v (s : state) : state :=
  mkState (changes s) (heap s) (currentJournal s) (fileWatchers s)
    (documentChangeListener s) (pendingChanges s) (isTracking s)
    v (save_listeners s) (subscriptions s) (next_handle s)
    (timers s) (workspaceFolders s) (inflight s) (trace s).
Definition set_save_listeners v (s : state) : state :=
  mkState (changes s) (heap s) (currentJournal s) (fileWatchers s)
    (documentChangeListener s) (pendingChanges s) (isTracking s)
    (edit_listeners s) v (subscriptions s) (next_handle s)
    (timers s) (workspaceFolders s) (inflight s) (trace s).
Definition set_subscriptions v (s : state) : state :=
  mkState (changes s) (heap s) (currentJournal s) (fileWatchers s)
    (documentChangeListener s) (pendingChanges s) (isTracking s)
    (edit_listeners s) (save_listeners s) v (next_handle s)
    (timers s) (workspaceFolders s) (inflight s) (trace s).
Definition set_next_handle v (s : state) : state :=
  mkState (changes s) (heap s) (currentJournal s) (fileWatchers s)
    (documentChangeListener s) (pendingChanges s) (isTracking s)
    (edit_listeners s) (save_listeners s) (subscriptions s) v
    (timers s) (workspaceFolders s) (inflight s) (trace s).
Definition set_timers v (s : state) : state :=
  mkState (changes s) (heap s) (currentJournal s) (fileWatchers s)
    (documentChangeListener s) (pendingChanges s) (isTracking s)
    (edit_listeners s) (save_listeners s) (subscriptions s) (next_handle s)
    v (workspaceFolders s) (inflight s) (trace s).
Definition set_workspaceFolders v (s : state) : state :=
  mkState (changes s) (heap s) (currentJournal s) (fileWatchers s)
    (documentChangeListener s) (pendingChanges s) (isTracking s)
    (edit_listeners s) (save_listeners s) (subscriptions s) (next_handle s)
    (timers s) v (inflight s) (trace s).
Definition set_inflight v (s : state) : state :=
  mkState (changes s) (heap s) (currentJournal s) (fileWatchers s)
    (documentChangeListener s) (pendingChanges s) (isTracking s)
    (edit_listeners s) (save_listeners s) (subscriptions s) (next_handle s)
    (timers s) (workspaceFolders s) v (trace s).
Definition emit (o : output) (s : state) : state :=
  mkState (changes s) (heap s) (currentJournal s) (fileWatchers s)
    (documentChangeListener s) (pendingChanges s) (isTracking s)
    (edit_listeners s) (save_listeners s) (subscriptions s) (next_handle s)
    (timers s) (workspaceFolders s) (inflight s) (trace s ++ [o]).

(** *** Host primitives *)

Definition remove_handle (h : nat) (l : list nat) : list nat :=
  List.filter (fun x => negb (x =? h)) l.

(** [disposable.dispose()]: the listener leaves the editor's registries. *)
Definition dispose (h : nat) (s : state) : state :=
  set_save_listeners (remove_handle h (save_listeners s))
    (set_edit_listeners (remove_handle h (edit_listeners s)) s).

Definition clearTimeout (h : nat) (s : state) : state :=
  set_timers (delete h (timers s)) s.

Definition setTimeout (t : Timer) (s : state) : nat * state :=
  let h := next_handle s in
  (h, set_next_handle (S h) (set_timers (<[h := t]> (timers s)) s)).

(** Registering a listener yields a fresh disposable. *)
Definition onDidChangeTextDocument (s : state) : nat * state :=
  let h := next_handle s in
  (h, set_next_handle (S h) (set_edit_listeners (edit_listeners s ++ [h]) s)).

Definition onDidSaveTextDocument (s : state) : nat * state :=
  let h := next_handle s in
  (h, set_next_handle (S h) (set_save_listeners (save_listeners s ++ [h]) s)).

(** [Map.get] and [Map.set] on the insertion-ordered map of changes. *)
Fixpoint map_get (k : list N) (m : list (list N * nat)) : option nat :=
  match m with
  | [] => None
  | (k', v) :: m' => if bool_decide (k' = k) then Some v else map_get k m'
  end.

Fixpoint map_set (k : list N) (v : nat) (m : list (list N * nat))
  : list (list N * nat) :=
  match m with
  | [] => [(k, v)]
  | (k', v') :: m' =>
      if bool_decide (k' = k) then (k', v) :: m'
      else (k', v') :: map_set k v m'
  end.

(** *** Notifications *)

Definition notifyChangeListeners (r : nat) (s : state) : state :=
  match heap s !! r with
  | Some c => emit (ChangeNotified c) s
  | None => s
  end.

Definition notifyJournalListeners (s : state) : state :=
  match currentJournal s with
  | Some j => emit (JournalNotified j) s
  | None => s
  end.

(** *** startTracking, stopTracking *)

Definition startTracking (now : Z) (newid : list N) (s : state) : state :=
  if isTracking s then s
  else
    let s := set_isTracking true s in
    let s := set_currentJournal
               (Some (mkJournal newid now None None [] None)) s in
    let '(h, s) := onDidChangeTextDocument s in
    let s := set_documentChangeListener (Some h) s in
    let '(saveWatcher, s) := onDidSaveTextDocument s in
    set_subscriptions (subscriptions s ++ [saveWatcher]) s.

Definition with_sessionEnd (t : Z) (j : JournalEntry) : JournalEntry :=
  mkJournal (j_id j) (sessionStart j) (Some t) (j_title j) (j_changes j)
    (j_summary j).

Definition stopTracking (now : Z) (s : state) : state * option JournalEntry :=
  if negb (isTracking s) then (s, None)
  else
    let s := set_isTracking false s in
    let s := match documentChangeListener s with
             | Some h => dispose h s
             | None => s
             end in
    let s := fold_left (fun s w => dispose w s) (fileWatchers s) s in
    let s := set_fileWatchers [] s in
    let s := foldr (fun kh s => clearTimeout kh.2 s) s
               (map_to_list (pendingChanges s)) in
    let s := set_pendingChanges ∅ s in
    match currentJournal s with
    | Some j =>
        let journal := with_sessionEnd now j in
        (set_currentJournal None s, Some journal)
    | None => (s, None)
    end.

(** *** Edits *)

Definition ignorePatterns : list regex :=
  [ lit "node_modules";          (* /node_modules/ *)
    lit ".git";                  (* /\.git/ *)
    lit "dist/";                 (* /dist\// *)
    lit "build/";                (* /build\// *)
    lit ".voya/";                (* /\.voya\// *)
    lit ".next/";                (* /\.next\// *)
    lit "package-lock.json";     (* /package-lock\.json/ *)
    lit "yarn.lock";             (* /yarn\.lock/ *)
    lit ".min.";                 (* /\.min\./ *)
    Seq (lit ".map") Eos ].      (* /\.map$/ *)

Definition shouldIgnoreFile (path : list N) : bool :=
  existsb (fun p => test p path) ignorePatterns.

Definition push_change (r : nat) (j : JournalEntry) : JournalEntry :=
  mkJournal (j_id j) (sessionStart j) (sessionEnd j) (j_title j)
    (j_changes j ++ [r]) (j_summary j).

Definition processChange (doc : TextDocument) (ch : ContentChange)
  (now : Z) (newid : list N) (s : state) : state :=
  let filePath := relativePath doc in
  let startLine := (start_line ch + 1)%Z in
  let endLine :=
    (startLine + Z.of_nat (length (split LF (text ch))) - 1)%Z in
  let isLikelyAgent := detectAgentChange (text ch) in
  let codeChange :=
    mkChange newid now filePath added (mkRange startLine endLine) (text ch)
      None pending (Some (if isLikelyAgent then agent else manual)) in
  let r := length (heap s) in
  let s := set_heap (heap s ++ [codeChange]) s in
  let s := set_changes (map_set newid r (changes s)) s in
  let s := match currentJournal s with
           | Some j => set_currentJournal (Some (push_change r j)) s
           | None => s
           end in
  notifyJournalListeners (notifyChangeListeners r s).

(** The two filters of the loop body: blank text, and a single line of
    fewer than 10 characters. *)
Definition skipped (ch : ContentChange) : bool :=
  (length (trim (text ch)) =? 0)
  || ((length (split LF (text ch)) =? 1) && (length (text ch) <? 10)).

Definition schedule (doc : TextDocument) (ch : ContentChange) (now : Z)
  (s : state) : state :=
  let key := (fsPath doc, start_line ch) in
  let s := match pendingChanges s !! key with
           | Some h => clearTimeout h s
           | None => s
           end in
  let '(h, s) :=
    setTimeout (mkTimer (now + DEBOUNCE_MS)%Z doc ch key) s in
  set_pendingChanges (<[key := h]> (pendingChanges s)) s.

Definition handleDocumentChange (ev : TextDocumentChangeEvent) (now : Z)
  (s : state) : state :=
  if negb (bool_decide (scheme (document ev) = str "file")) then s
  else if length (contentChanges ev) =? 0 then s
  else if shouldIgnoreFile (fsPath (document ev)) then s
  else
    fold_left
      (fun s ch => if skipped ch then s else schedule (document ev) ch now s)
      (contentChanges ev) s.

(** A timer comes due: its callback runs [processChange] and forgets the
    key. *)
Definition timer_fire (h : nat) (now : Z) (newid : list N) (s : state)
  : state :=
  match timers s !! h with
  | Some t =>
      if (deadline t <=? now)%Z then
        let s := set_timers (delete h (timers s)) s in
        let s := processChange (t_document t) (t_change t) now newid s in
        set_pendingChanges (delete (t_key t) (pendingChanges s)) s
      else s
  | None => s
  end.

(** *** explainChange *)

Definition with_status (st : Status) (c : CodeChange) : CodeChange :=
  mkChange (id c) (timestamp c) (filePath c) (changeType c) (range c)
    (code c) (explanation c) st (source c).

Definition with_explanation (e : list N) (c : CodeChange) : CodeChange :=
  mkChange (id c) (timestamp c) (filePath c) (changeType c) (range c)
    (code c) (Some e) (status c) (source c).

Definition update_change (r : nat) (f : CodeChange -> CodeChange) (s : state)
  : state :=
  match heap s !! r with
  | Some c => set_heap (<[r := f c]> (heap s)) s
  | None => s
  end.

(** [change.status = st] *)
Definition write_status (r : nat) (st : Status) (s : state) : state :=
  match heap s !! r with
  | Some c =>
      emit (StatusWritten r (status c) st)
        (set_heap (<[r := with_status st c]> (heap s)) s)
  | None => s
  end.

Definition explain_request (c : CodeChange) : LLMRequest :=
  mkRequest (code c) (filePath c) (startLine (range c)) (endLine (range c))
    general
    (Some (str "This code was just "
           ++ (match source c with
               | Some agent => str "generated by an AI assistant"
               | _ => str "written"
               end)
           ++ str ". Explain what it does and why it might have been added.")).

(** The guard at the head of [explainChange]: the object to explain, if the
    call is not to return at once. *)
Definition eligible (changeId : list N) (s : state) : option nat :=
  match map_get changeId (changes s) with
  | Some r =>
      match heap s !! r with
      | Some c =>
          match status c with
          | explaining | explained => None
          | pending | error => Some r
          end
      | None => None
      end
  | None => None
  end.

(** Computations of the service. *)
Abbreviation M := (Types.M state) (only parsing).

(** The start of the [try] block, up to the awaited call. *)
Definition explain_prelude (r : nat) : M LLMRequest :=
  fun s =>
    if workspaceFolders s then
      match heap s !! r with
      | Some c => (s, Returned (explain_request c))
      | None => (s, Thrown (str "TypeError"))
      end
    else (s, Thrown (str "No workspace")).

(** The rest of the [try] block once the promise has settled. *)
Definition explain_finish (r : nat) (res : outcome LLMResponse) : M unit :=
  response <- await res ;;
  modify (update_change r (with_explanation (resp_explanation response))) ;;;
  modify (write_status r explained).

Definition explain_catch (r : nat) (e : list N) : M unit :=
  modify (emit ErrorLogged) ;;;
  modify (write_status r error).

Definition explain_epilogue (r : nat) : M unit :=
  modify (notifyChangeListeners r) ;;;
  modify notifyJournalListeners.

(** [explainChange] with the generator as an oracle [gen]: the call runs to
    completion. *)
Definition explainChange (changeId : list N)
  (gen : LLMRequest -> outcome LLMResponse) : M unit :=
  fun s =>
    match eligible changeId s with
    | None => ret tt s
    | Some r =>
        (modify (write_status r explaining) ;;;
         modify (notifyChangeListeners r) ;;;
         try_catch
           (req <- explain_prelude r ;;
            modify (emit (GeneratorCalled req)) ;;;
            explain_finish r (gen req))
           (explain_catch r) ;;;
         explain_epilogue r) s
    end.

(** The same body cut at its [await]: what runs before the generator is
    called, and what runs when its promise settles. *)
Inductive begun : Type :=
| Skipped                                  (* the guard returned *)
| Settled                                  (* completed without awaiting *)
| Awaiting (r : nat) (req : LLMRequest).   (* suspended on the generator *)

Definition explainChange_begin (changeId : list N) (s : state)
  : state * begun :=
  match eligible changeId s with
  | None => (s, Skipped)
  | Some r =>
      let s := write_status r explaining s in
      let s := notifyChangeListeners r s in
      match explain_prelude r s with
      | (s, Returned req) => (emit (GeneratorCalled req) s, Awaiting r req)
      | (s, Thrown e) =>
          (fst (explain_epilogue r (fst (explain_catch r e s))), Settled)
      end
  end.

Definition explainChange_settle (r : nat) (res : outcome LLMResponse)
  (s : state) : state :=
  fst ((try_catch (explain_finish r res) (explain_catch r) ;;;
        explain_epilogue r) s).

(** One turn of [for (const change of pending) await explainChange(...)]:
    the call runs up to its first [await]; the loop is then suspended, on
    the generator if the call awaits it, on the completed call otherwise.
    A single call from outside is the loop over a one-element list. *)
Definition loop_turn (ids : list (list N)) (s : state) : state * option Task :=
  match ids with
  | [] => (s, None)
  | changeId :: rest =>
      match explainChange_begin changeId s with
      | (s', Awaiting r _) => (s', Some (Waiting r rest))
      | (s', _) => (s', Some (Looping rest))
      end
  end.

(** A suspended call joins the others; a loop with nothing left to do is
    over. *)
Definition park (t : option Task) (s : state) : state :=
  match t with
  | None | Some (Looping []) => s
  | Some t => set_inflight (inflight s ++ [t]) s
  end.

Definition spawn (ids : list (list N)) (s : state) : state :=
  let '(s', t) := loop_turn ids s in park t s'.

Definition pending_in (path : list N) (s : state) : list (list N) :=
  omap (fun kr : list N * nat =>
          match heap s !! kr.2 with
          | Some c =>
              if bool_decide (status c = pending)
                 && bool_decide (filePath c = path)
              then Some (id c) else None
          | None => None
          end) (changes s).

Definition handleFileSave (doc : TextDocument) (s : state) : state :=
  spawn (pending_in (relativePath doc) s) s.

(** The generator's promise of the [n]-th suspended call settles: the call
    completes, and the loop that made it is ready for its next turn. *)
Definition settle (n : nat) (res : outcome LLMResponse) (s : state) : state :=
  match inflight s !! n with
  | Some (Waiting r rest) =>
      let s := set_inflight (delete n (inflight s)) s in
      let s := explainChange_settle r res s in
      park (Some (Looping rest)) s
  | _ => s
  end.

(** The [n]-th suspended call is a loop, and takes its next turn. *)
Definition continue (n : nat) (s : state) : state :=
  match inflight s !! n with
  | Some (Looping ids) =>
      spawn ids (set_inflight (delete n (inflight s)) s)
  | _ => s
  end.

Definition clear (s : state) : state :=
  let s := set_changes [] s in
  match currentJournal s with
  | Some j =>
      set_currentJournal
        (Some (mkJournal (j_id j) (sessionStart j) (sessionEnd j) (j_title j)
                 [] (j_summary j))) s
  | None => s
  end.

(** *** The tracker as a transition system *)

Inductive event : Type :=
| EvStart (now : Z) (newid : list N)       (* startTracking() *)
| EvStop (now : Z)                         (* stopTracking() *)
| EvEdit (ev : TextDocumentChangeEvent) (now : Z)
                                           (* the editor reports an edit *)
| EvSave (doc : TextDocument)              (* the editor reports a save *)
| EvTimer (h : nat) (now : Z) (newid : list N)
                                           (* the timer queue runs [h] *)
| EvExplain (changeId : list N)            (* explainChange(changeId) *)
| EvSettle (n : nat) (res : outcome LLMResponse)
                                           (* a generator promise settles *)
| EvContinue (n : nat)                     (* a suspended loop goes on *)
| EvClear                                  (* clear() *)
| EvWorkspace (b : bool).                  (* folders opened or closed *)

(** Events of the editor reach the service once per live listener. *)
Definition step (s : state) (e : event) : state :=
  match e with
  | EvStart now newid => startTracking now newid s
  | EvStop now => fst (stopTracking now s)
  | EvEdit ev now =>
      fold_left (fun s _ => handleDocumentChange ev now s)
        (edit_listeners s) s
  | EvSave doc =>
      fold_left (fun s _ => handleFileSave doc s) (save_listeners s) s
  | EvTimer h now newid => timer_fire h now newid s
  | EvExplain changeId => spawn [changeId] s
  | EvSettle n res => settle n res s
  | EvContinue n => continue n s
  | EvClear => clear s
  | EvWorkspace b => set_workspaceFolders b s
  end.

Definition run (s : state) (es : list event) : state := fold_left step es s.

(** How often the generator was called along a trace. *)
Definition generator_calls (tr : list output) : nat :=
  length (List.filter
            (fun o => match o with GeneratorCalled _ => true | _ => false end)
            tr).

(** *** Status transitions and the invariants of the service *)

Inductive allowed : Status -> Status -> Prop :=
| allowed_start : allowed pending explaining
| allowed_retry : allowed error explaining
| allowed_success : allowed explaining explained
| allowed_failure : allowed explaining error.

Definition task_refs (s : state) : list nat := omap task_ref (inflight s).

(** A call that awaits the generator has set its change to [explaining], and
    no change has two such calls. *)
Definition inflight_explaining (s : state) : Prop :=
  forall r, In r (task_refs s) ->
    exists c, heap s !! r = Some c /\ status c = explaining.

Definition writes_allowed (s : state) : Prop :=
  forall r a b, In (StatusWritten r a b) (trace s) -> allowed a b.

Definition invariant (s : state) : Prop :=
  inflight_explaining s /\ NoDup (task_refs s) /\ writes_allowed s.

(** Every record of [s] is still there in [s'], its status further along a
    path of allowed transitions. *)
Definition moves (s s' : state) : Prop :=
  forall r c, heap s !! r = Some c ->
    exists c', heap s' !! r = Some c' /\ rtc allowed (status c) (status c').

(** Every live timer is the one registered for its key. *)
Definition timers_registered (s : state) : Prop :=
  forall h t, timers s !! h = Some t ->
    h < next_handle s /\ pendingChanges s !! t_key t = Some h.

(** What the status discipline is about: records, suspended calls, history. *)
Definition core (s : state) : list CodeChange * list Task * list output :=
  (heap s, inflight s, trace s).

(** Records and history alone. *)
Definition core' (s : state) : list CodeChange * list output :=
  (heap s, trace s).

(** One operation taken from a state that satisfies the invariant. *)
Definition proceeds (s s' : state) : Prop :=
  invariant s' /\ moves s s' /\ length (heap s') = length (heap s).

(** What scheduling is about: the timer queue, the debounce table, the
    handle counter, and the listeners. *)
Definition sched (s : state) :=
  (timers s, pendingChanges s, next_handle s,
   (fileWatchers s, edit_listeners s, save_listeners s,
    documentChangeListener s, isTracking s)).

(** The listener handles of the service: [fileWatchers] stays empty, and
    the edit listener is not among the save listeners. *)
Definition listeners_ok (s : state) : Prop :=
  fileWatchers s = []
  /\ (forall h, In h (save_listeners s) -> h < next_handle s)
  /\ (forall h, documentChangeListener s = Some h ->
        h < next_handle s /\ ~ In h (save_listeners s))
  /\ (isTracking s = true -> save_listeners s <> [])
  /\ edit_listeners s
     = (if isTracking s
        then match documentChangeListener s with
             | Some h => [h]
             | None => []
             end
        else []).

(** The scenario of the save listener that outlives [stopTracking]: one
    edit is recorded, tracking stops, the file is saved. *)
Definition demo_document : TextDocument :=
  mkDocument (str "file") (str "/w/src/a.ts") (str "src/a.ts").

Definition demo_edit : ContentChange :=
  mkContentChange 4 (str "const answer = 42;").

Definition before_stop : state :=
  run init [EvStart 0 (str "j1");
            EvEdit (mkEvent demo_document [demo_edit]) 100;
            EvTimer 2 2100 (str "c1")].

Definition after_stop : state := step before_stop (EvStop 3000).

(** A change that is recorded, explained without success, and explained
    again with success. *)
Definition first_attempt : list event :=
  [EvStart 0 (str "j1");
   EvEdit (mkEvent demo_document [demo_edit]) 100;
   EvTimer 2 2100 (str "c1");
   EvSave demo_document;
   EvSettle 0 (Thrown (str "network"))].

Definition second_attempt : list event :=
  [EvExplain (str "c1");
   EvSettle 0 (Returned (mkResponse (str "Binds the answer.")))].

Definition afterwards : list event :=
  [EvExplain (str "c1"); EvSave demo_document; EvClear; EvStop 9000].

(** An earlier edit of the same line as [demo_edit]. *)
Definition demo_first_edit : ContentChange :=
  mkContentChange 4 (str "const answer = 4;").

(** The service once tracking has been started. *)
Definition tracking : state := startTracking 0 (str "j1") init.

End Tracker.


(** ** The tour player

    The host side is [VoyaWebviewProvider], the webview side is [App]; the
    two exchange messages.  The awaited calls of a handler (file read,
    generator, tour store) are answered by an environment, and a handler
    runs to completion before the next message is taken. *)

Module Player.
Import Js Types.

(** *** [core/types] *)

Record StepExplanations : Type := mkExplanations {
  e_tldr : option (list N);
  e_general : option (list N);
  e_detailed : option (list N);
  e_extreme_detail : option (list N)
}.

(** [{}] *)
Definition no_explanations : StepExplanations :=
  mkExplanations None None None None.

(** [explanations[level]] *)
Definition get_level (l : DetailLevel) (e : StepExplanations)
  : option (list N) :=
  match l with
  | tldr => e_tldr e
  | general => e_general e
  | detailed => e_detailed e
  | extreme_detail => e_extreme_detail e
  end.

(** [explanations[level] = text] *)
Definition set_level (l : DetailLevel) (text : list N) (e : StepExplanations)
  : StepExplanations :=
  match l with
  | tldr =>
      mkExplanations (Some text) (e_general e) (e_detailed e)
        (e_extreme_detail e)
  | general =>
      mkExplanations (e_tldr e) (Some text) (e_detailed e)
        (e_extreme_detail e)
  | detailed =>
      mkExplanations (e_tldr e) (e_general e) (Some text)
        (e_extreme_detail e)
  | extreme_detail =>
      mkExplanations (e_tldr e) (e_general e) (e_detailed e) (Some text)
  end.

(** The truth value JavaScript gives to an optional string in a condition:
    [undefined] and the empty string are false. *)
Definition truthy (o : option (list N)) : bool :=
  match o with
  | Some (_ :: _) => true
  | Some [] | None => false
  end.

Record VoyaStep : Type := mkStep {
  stepIndex : Z;
  filePath : list N;
  startLine : Z;                             (* range.startLine *)
  endLine : Z;                               (* range.endLine *)
  summary : list N;                          (* content.summary *)
  explanation : list N;                      (* content.explanation *)
  explanations : option StepExplanations;    (* content.explanations *)
  translation : option (list N);             (* content.translation *)
  codeSnippet : option (list N)
}.

Record VoyaTour : Type := mkTour {
  tour_id : list N;
  title : list N;
  createdAt : list N;
  steps : list VoyaStep
}.

(** [step.content.explanations?.[level]] *)
Definition embedded (l : DetailLevel) (st : VoyaStep) : option (list N) :=
  match explanations st with
  | Some e => get_level l e
  | None => None
  end.

(** [steps[i]] for an integer [i]: [undefined] outside the array. *)
Definition nth_step (l : list VoyaStep) (i : Z) : option VoyaStep :=
  if (i <? 0)%Z then None else l !! Z.to_nat i.

Inductive ExtensionToWebviewMessage : Type :=
| tourLoaded (tour : VoyaTour)
| tourList (tours : list VoyaTour)
| stepChanged (i : Z)
| playbackStateChanged (playing : bool)
| deepenStarted (i : Z)
| deepenComplete (i : Z) (detailLevel : DetailLevel) (text : list N)
| error (message : list N).

Inductive WebviewToExtensionMessage : Type :=
| goToStepMsg (i : Z)
| nextStep
| prevStep
| play
| pause
| setDetailLevel (level : DetailLevel)
| requestDeepen (i : Z) (targetLevel : DetailLevel).

(** *** The host: [VoyaWebviewProvider] *)

Inductive output : Type :=
| Sent (m : ExtensionToWebviewMessage)     (* panel.webview.postMessage *)
| GeneratorCalled (req : LLMRequest)       (* llmService.generateExplanation *)
| TourSaved (t : VoyaTour)                 (* tourService.saveTour *)
| Highlighted (st : VoyaStep)              (* editor decoration *)
| ErrorLogged.                             (* console.error *)

Record host : Type := mkHost {
  panel : bool;                            (* this.panel is set *)
  currentTour : option VoyaTour;
  currentStepIndex : Z;
  outbox : list output
}.

(** What answers the awaited calls. *)
Record environment : Type := mkEnv {
  read_lines : VoyaStep -> list N;         (* the file text of the step's
                                              range, [''] when unreadable *)
  generate : LLMRequest -> outcome LLMResponse;
  saveTour : VoyaTour -> outcome unit
}.

Abbreviation H := (Types.M host) (only parsing).

Definition log (o : output) (h : host) : host :=
  mkHost (panel h) (currentTour h) (currentStepIndex h) (outbox h ++ [o]).

Definition sendMessage (m : ExtensionToWebviewMessage) (h : host) : host :=
  if panel h then log (Sent m) h else h.

Definition set_currentTour (t : option VoyaTour) (h : host) : host :=
  mkHost (panel h) t (currentStepIndex h) (outbox h).

Definition set_currentStepIndex (i : Z) (h : host) : host :=
  mkHost (panel h) (currentTour h) i (outbox h).

Definition highlightCurrentStep (h : host) : host :=
  match currentTour h with
  | None => h
  | Some tour =>
      match nth_step (steps tour) (currentStepIndex h) with
      | None => h
      | Some st => log (Highlighted st) h
      end
  end.

Definition loadTour (tour : VoyaTour) (h : host) : host :=
  let h := set_currentTour (Some tour) h in
  let h := set_currentStepIndex 0 h in
  let h := sendMessage (tourLoaded tour) h in
  highlightCurrentStep h.

Definition goToStep (stepIndex : Z) : H unit :=
  fun h =>
    match currentTour h with
    | None => ret tt h
    | Some tour =>
        let maxIndex := (Z.of_nat (length (steps tour)) - 1)%Z in
        (modify (set_currentStepIndex (Z.max 0 (Z.min stepIndex maxIndex))) ;;;
         (fun h => modify (sendMessage (stepChanged (currentStepIndex h))) h) ;;;
         modify highlightCurrentStep) h
    end.

Definition getCodeSnippet (env : environment) (st : VoyaStep) : list N :=
  match codeSnippet st with
  | Some (c :: w) => c :: w
  | Some [] | None => read_lines env st
  end.

Definition deepen_request (env : environment) (st : VoyaStep)
  (targetLevel : DetailLevel) : LLMRequest :=
  mkRequest (getCodeSnippet env st) (filePath st) (startLine st) (endLine st)
    targetLevel None.

(** [step.content.explanations[targetLevel] = text], creating the record when
    it is absent. *)
Definition cache_level (l : DetailLevel) (text : list N) (st : VoyaStep)
  : VoyaStep :=
  mkStep (stepIndex st) (filePath st) (startLine st) (endLine st)
    (summary st) (explanation st)
    (Some (set_level l text
             (match explanations st with
              | Some e => e
              | None => no_explanations
              end)))
    (translation st) (codeSnippet st).

(** The write goes to the step object of the current tour. *)
Definition cache_in_tour (i : Z) (l : DetailLevel) (text : list N)
  (h : host) : host :=
  match currentTour h with
  | Some tour =>
      match nth_step (steps tour) i with
      | Some st =>
          set_currentTour
            (Some (mkTour (tour_id tour) (title tour) (createdAt tour)
                     (<[Z.to_nat i := cache_level l text st]> (steps tour))))
            h
      | None => h
      end
  | None => h
  end.

Definition failure_message : list N :=
  str "Failed to generate explanation. Please try again.".

Definition save_current (env : environment) : H unit :=
  fun h =>
    match currentTour h with
    | Some tour => (modify (log (TourSaved tour)) ;;; await (saveTour env tour)) h
    | None => throw (str "TypeError") h
    end.

(** [handleDeepenRequest], run from its call to its end with nothing else
    handled while it waits: each [await] is answered by the environment at
    once.  The pieces between its [await]s follow below. *)
Definition handleDeepenRequest (env : environment) (stepIndex : Z)
  (targetLevel : DetailLevel) : H unit :=
  fun h =>
    match currentTour h with
    | None => ret tt h
    | Some tour =>
        match nth_step (steps tour) stepIndex with
        | None => ret tt h
        | Some st =>
            if truthy (embedded targetLevel st) then
              modify (sendMessage
                        (deepenComplete stepIndex targetLevel
                           (default [] (embedded targetLevel st)))) h
            else
              (modify (sendMessage (deepenStarted stepIndex)) ;;;
               try_catch
                 (let req := deepen_request env st targetLevel in
                  modify (log (GeneratorCalled req)) ;;;
                  response <- await (generate env req) ;;
                  modify (cache_in_tour stepIndex targetLevel
                            (resp_explanation response)) ;;;
                  save_current env ;;;
                  modify (sendMessage
                            (deepenComplete stepIndex targetLevel
                               (resp_explanation response))))
                 (fun _ =>
                    modify (log ErrorLogged) ;;;
                    modify (sendMessage (error failure_message)))) h
        end
    end.

(** The same body cut at its [await]s.  The handler is asynchronous and the
    listener that calls it is not awaited by the panel, so that other
    messages can be handled while a call is suspended: at
    [getCodeSnippet(step)], at [generateExplanation], and at [saveTour].  A
    suspended call holds the [step] object that it read at its start; the
    write to the cache goes to that object, which is the step of the
    current tour as long as no other tour has been loaded since, as
    [cache_in_tour] has it. *)
Inductive deepen_task : Type :=
| AwaitSnippet (st : VoyaStep)          (* at [getCodeSnippet(step)] *)
| AwaitGenerator (req : LLMRequest)     (* at [generateExplanation] *)
| AwaitSave (text : list N).            (* at [saveTour]; [text] is
                                           [response.explanation] *)

(** Up to the first [await]. *)
Definition deepen_start (stepIndex : Z) (targetLevel : DetailLevel) (h : host)
  : host * option deepen_task :=
  match currentTour h with
  | None => (h, None)
  | Some tour =>
      match nth_step (steps tour) stepIndex with
      | None => (h, None)
      | Some st =>
          if truthy (embedded targetLevel st) then
            (sendMessage
               (deepenComplete stepIndex targetLevel
                  (default [] (embedded targetLevel st))) h, None)
          else (sendMessage (deepenStarted stepIndex) h, Some (AwaitSnippet st))
      end
  end.

(** The [catch] block. *)
Definition deepen_failed (h : host) : host :=
  sendMessage (error failure_message) (log ErrorLogged h).

(** The snippet is there: the generator is called. *)
Definition deepen_snippet (st : VoyaStep) (targetLevel : DetailLevel)
  (codeSnippet : list N) (h : host) : host * option deepen_task :=
  let req :=
    mkRequest codeSnippet (filePath st) (startLine st) (endLine st)
      targetLevel None in
  (log (GeneratorCalled req) h, Some (AwaitGenerator req)).

(** The promise of the generator has settled: its answer is written to the
    cache and the tour is saved. *)
Definition deepen_answer (stepIndex : Z) (targetLevel : DetailLevel)
  (res : outcome LLMResponse) (h : host) : host * option deepen_task :=
  match res with
  | Returned response =>
      let h := cache_in_tour stepIndex targetLevel
                 (resp_explanation response) h in
      match currentTour h with
      | Some tour =>
          (log (TourSaved tour) h, Some (AwaitSave (resp_explanation response)))
      | None => (deepen_failed h, None)
      end
  | Thrown _ => (deepen_failed h, None)
  end.

(** The write of [saveTour] has ended. *)
Definition deepen_saved (stepIndex : Z) (targetLevel : DetailLevel)
  (text : list N) (res : outcome unit) (h : host) : host :=
  match res with
  | Returned _ => sendMessage (deepenComplete stepIndex targetLevel text) h
  | Thrown _ => deepen_failed h
  end.

(** A call that nothing interrupts: each [await] is answered by the
    environment at once. *)
Definition deepen_alone (env : environment) (stepIndex : Z)
  (targetLevel : DetailLevel) (h : host) : host :=
  match deepen_start stepIndex targetLevel h with
  | (h, Some (AwaitSnippet st)) =>
      match deepen_snippet st targetLevel (getCodeSnippet env st) h with
      | (h, Some (AwaitGenerator req)) =>
          match deepen_answer stepIndex targetLevel (generate env req) h with
          | (h, Some (AwaitSave text)) =>
              match currentTour h with
              | Some tour =>
                  deepen_saved stepIndex targetLevel text (saveTour env tour) h
              | None => h
              end
          | (h, _) => h
          end
      | (h, _) => h
      end
  | (h, _) => h
  end.

(** The message listener of the panel. *)
Definition receive (env : environment) (m : WebviewToExtensionMessage)
  : H unit :=
  match m with
  | goToStepMsg i => goToStep i
  | nextStep => fun h => goToStep (currentStepIndex h + 1) h
  | prevStep => fun h => goToStep (currentStepIndex h - 1) h
  | play => modify (sendMessage (playbackStateChanged true))
  | pause => modify (sendMessage (playbackStateChanged false))
  | setDetailLevel _ => ret tt
  | requestDeepen i l => handleDeepenRequest env i l
  end.

Definition generator_invocations (o : list output) : nat :=
  length (List.filter
            (fun x => match x with GeneratorCalled _ => true | _ => false end)
            o).

Definition messages (o : list output) : list ExtensionToWebviewMessage :=
  omap (fun x => match x with Sent m => Some m | _ => None end) o.

(** *** The webview: [App] *)

Record PlayerState : Type := mkPlayerState {
  activeTourId : option (list N);
  ps_currentStepIndex : Z;
  isPlaying : bool;
  isLoadingDeepen : bool;
  language : list N;                       (* preferences.language *)
  detailLevel : DetailLevel                (* preferences.detailLevel *)
}.

Record App : Type := mkApp {
  tours : list VoyaTour;
  playerState : PlayerState;
  activeTour : option VoyaTour;
  deepenedExplanations : gmap Z StepExplanations
}.

Definition initial_app : App :=
  mkApp [] (mkPlayerState None 0 false false (str "en") general) None ∅.

Definition setPlayerState (f : PlayerState -> PlayerState) (a : App) : App :=
  mkApp (tours a) (f (playerState a)) (activeTour a)
    (deepenedExplanations a).

Definition setDeepenedExplanations
  (f : gmap Z StepExplanations -> gmap Z StepExplanations) (a : App) : App :=
  mkApp (tours a) (playerState a) (activeTour a)
    (f (deepenedExplanations a)).

Definition with_loading (b : bool) (p : PlayerState) : PlayerState :=
  mkPlayerState (activeTourId p) (ps_currentStepIndex p) (isPlaying p) b
    (language p) (detailLevel p).

(** The listener installed by [useEffect]. *)
Definition onMessage (m : ExtensionToWebviewMessage) (a : App) : App :=
  match m with
  | tourList ts =>
      mkApp ts (playerState a) (activeTour a) (deepenedExplanations a)
  | tourLoaded tour =>
      let a := mkApp (tours a) (playerState a) (Some tour) ∅ in
      setPlayerState
        (fun prev =>
           mkPlayerState (Some (tour_id tour)) 0 false false (language prev)
             (detailLevel prev)) a
  | stepChanged i =>
      setPlayerState
        (fun prev =>
           mkPlayerState (activeTourId prev) i (isPlaying prev)
             (isLoadingDeepen prev) (language prev) (detailLevel prev)) a
  | playbackStateChanged b =>
      setPlayerState
        (fun prev =>
           mkPlayerState (activeTourId prev) (ps_currentStepIndex prev) b
             (isLoadingDeepen prev) (language prev) (detailLevel prev)) a
  | deepenStarted _ => setPlayerState (with_loading true) a
  | deepenComplete i l text =>
      let a := setPlayerState (with_loading false) a in
      setDeepenedExplanations
        (fun prev =>
           <[i := set_level l text
                    (match prev !! i with
                     | Some e => e
                     | None => no_explanations
                     end)]> prev) a
  | error _ => setPlayerState (with_loading false) a
  end.

Definition handleDetailLevelChange (level : DetailLevel) (a : App) : App :=
  setPlayerState
    (fun prev =>
       mkPlayerState (activeTourId prev) (ps_currentStepIndex prev)
         (isPlaying prev) (isLoadingDeepen prev) (language prev) level) a.

(** [deepenedExplanations[currentStepIndex]?.[level]] *)
Definition cached (a : App) : option (list N) :=
  match deepenedExplanations a !! ps_currentStepIndex (playerState a) with
  | Some e => get_level (detailLevel (playerState a)) e
  | None => None
  end.

Definition getCurrentExplanation (a : App) : list N :=
  match activeTour a with
  | None => []
  | Some tour =>
      match nth_step (steps tour) (ps_currentStepIndex (playerState a)) with
      | None => []
      | Some st =>
          let level := detailLevel (playerState a) in
          if truthy (cached a) then default [] (cached a)
          else if truthy (embedded level st)
               then default [] (embedded level st)
               else explanation st
      end
  end.

(** The webview takes the messages of the host in order. *)
Definition deliver (ms : list ExtensionToWebviewMessage) (a : App) : App :=
  fold_left (fun a m => onMessage m a) ms a.

(** *** The resolution order in the words of the specification

    "Present" read as "set": the cached text if there is one, else the
    embedded text if there is one, else the default. *)
Definition resolution_as_stated (a : App) (st : VoyaStep) : list N :=
  match cached a with
  | Some text => text
  | None =>
      match embedded (detailLevel (playerState a)) st with
      | Some text => text
      | None => explanation st
      end
  end.

(** *** Sample data *)

Definition sample_step (i : Z) (e : option StepExplanations) : VoyaStep :=
  mkStep i (str "src/a.ts") 1 10 (str "summary") (str "C") e None
    (Some (str "let x = 1;")).

Definition sample_tour (n : nat) : VoyaTour :=
  mkTour (str "t1") (str "Tour") (str "2024-01-01")
    (List.map (fun i => sample_step (Z.of_nat i) None) (seq 0 n)).

Definition sample_host (n : nat) : host :=
  mkHost true (Some (sample_tour n)) 0 [].

(** A generator that answers every request with [text]. *)
Definition answering (text : list N) : environment :=
  mkEnv (fun _ => []) (fun _ => Returned (mkResponse text))
    (fun _ => Returned tt).

(** A generator that fails. *)
Definition failing : environment :=
  mkEnv (fun _ => []) (fun _ => Thrown (str "network")) (fun _ => Returned tt).

(** The webview after a one-step tour was loaded, [detailed] was selected
    and the generator answered the request for that level with the empty
    text. *)
Definition empty_answer_host : host :=
  fst (handleDeepenRequest (answering []) 0 detailed
         (loadTour (sample_tour 1) (mkHost true None 0 []))).

Definition empty_answer_app : App :=
  handleDetailLevelChange detailed
    (deliver (messages (outbox empty_answer_host)) initial_app).

(** A host whose one-step tour embeds a [general] explanation, and the
    webview that has loaded this tour and been told that a request is
    loading. *)
Definition general_tour : VoyaTour :=
  mkTour (str "t1") (str "Tour") (str "2024-01-01")
    [sample_step 0 (Some (set_level general (str "cached") no_explanations))].

Definition general_host : host := mkHost true (Some general_tour) 0 [].

Definition loading_app : App :=
  deliver [tourLoaded general_tour; deepenStarted 0] initial_app.

(** A webview showing step 0 of a one-step tour at level [detailed], whose
    step embeds [b] for that level, and whose cache holds [c]. *)
Definition sample_app_step (b : option (list N)) : VoyaStep :=
  sample_step 0
    (match b with
     | Some text => Some (set_level detailed text no_explanations)
     | None => None
     end).

Definition sample_app_tour (b : option (list N)) : VoyaTour :=
  mkTour (str "t1") (str "Tour") (str "2024-01-01") [sample_app_step b].

Definition sample_app (c b : option (list N)) : App :=
  mkApp []
    (mkPlayerState (Some (str "t1")) 0 false false (str "en") detailed)
    (Some (sample_app_tour b))
    (match c with
     | Some text => {[ 0%Z := set_level detailed text no_explanations ]}
     | None => ∅
     end).

End Player.

(** ** The tracker over whole runs: its scheduler, its records, its journal *)

Module Journal.
Import Js Regex Types Tracker.

(** *** Whole-run invariants of the scheduler *)

(** Every key of the debounce table has its live timer. *)
Definition keys_scheduled (s : state) : Prop :=
  forall k h, pendingChanges s !! k = Some h ->
    exists t, timers s !! h = Some t /\ t_key t = k.

(** A timer set by [handleDocumentChange]: its edit passed the filters and
    its key is the path and line of that edit. *)
Definition qualifying (t : Timer) : Prop :=
  t_key t = (fsPath (t_document t), start_line (t_change t))
  /\ scheme (t_document t) = str "file"
  /\ shouldIgnoreFile (fsPath (t_document t)) = false
  /\ skipped (t_change t) = false.

Definition timers_qualify (s : state) : Prop :=
  forall h t, timers s !! h = Some t -> qualifying t.

Definition idle_when_stopped (s : state) : Prop :=
  isTracking s = false -> timers s = ∅ /\ pendingChanges s = ∅.

Definition scheduler_ok (s : state) : Prop :=
  timers_registered s /\ listeners_ok s /\ keys_scheduled s
  /\ timers_qualify s /\ idle_when_stopped s.


(** *** The life of a record *)

(** The record that [processChange] creates. *)
Definition new_record (doc : TextDocument) (ch : ContentChange) (now : Z)
  (newid : list N) : CodeChange :=
  let startLine := (start_line ch + 1)%Z in
  let endLine :=
    (startLine + Z.of_nat (length (split LF (text ch))) - 1)%Z in
  mkChange newid now (relativePath doc) added (mkRange startLine endLine)
    (text ch) None pending
    (Some (if detectAgentChange (text ch) then agent else manual)).

(** What [explainChange] does to a record: it takes up a pending or failed
    record, and a record it has taken up is explained or fails. *)
Inductive rec_step : CodeChange -> CodeChange -> Prop :=
| rec_start c :
    status c = pending \/ status c = error ->
    rec_step c (with_status explaining c)
| rec_explained c e :
    status c = explaining ->
    rec_step c (with_status explained (with_explanation e c))
| rec_failed c :
    status c = explaining -> rec_step c (with_status error c).

Definition evolves (s s' : state) : Prop :=
  forall r c, heap s !! r = Some c ->
    exists c', heap s' !! r = Some c' /\ rtc rec_step c c'.

(** A record has an explanation exactly when it is [explained]. *)
Definition explained_iff (c : CodeChange) : Prop :=
  is_Some (explanation c) <-> status c = explained.

(** The fields that [processChange] computes from the edit. *)
Definition well_formed (c : CodeChange) : Prop :=
  changeType c = added
  /\ endLine (range c)
     = (startLine (range c) + Z.of_nat (length (split LF (code c))) - 1)%Z
  /\ source c = Some (classify (code c))
  /\ length (trim (code c)) <> 0
  /\ (length (split LF (code c)) <> 1 \/ 10 <= length (code c)).


(** The journal of the session: it exists exactly while tracking is on, its
    end is not stamped, and it lists the records made since it was opened or
    last cleared. *)
Definition journal_ok (s : state) : Prop :=
  (isTracking s = true <-> is_Some (currentJournal s))
  /\ forall j, currentJournal s = Some j ->
       sessionEnd j = None
       /\ exists a, a <= length (heap s)
            /\ j_changes j = seq a (length (heap s) - a).


(** *** Queries *)

(** [Array.from(this.changes.values())]: the records of the map, in the
    order of insertion. *)
Definition values (s : state) : list CodeChange :=
  omap (fun kr : list N * nat => heap s !! kr.2) (changes s).

(** [.sort((a, b) => time(b) - time(a))]: [Array.prototype.sort] is stable,
    so that its result is the list made by inserting each element, from the
    last to the first, before the first element that is not newer. *)
Fixpoint insert_newest (c : CodeChange) (l : list CodeChange)
  : list CodeChange :=
  match l with
  | [] => [c]
  | x :: l' =>
      if (timestamp x <=? timestamp c)%Z then c :: l
      else x :: insert_newest c l'
  end.

Definition sort_newest_first (l : list CodeChange) : list CodeChange :=
  foldr insert_newest [] l.

Definition getChanges (s : state) : list CodeChange :=
  sort_newest_first (values s).

Definition getCurrentJournal (s : state) : option JournalEntry :=
  currentJournal s.

(** *** What [shouldIgnoreFile] looks for *)

Definition contains (w path : list N) : Prop :=
  exists pre post, path = pre ++ w ++ post.

Definition ignored_fragments : list (list N) :=
  [ str "node_modules"; str ".git"; str "dist/"; str "build/"; str ".voya/";
    str ".next/"; str "package-lock.json"; str "yarn.lock"; str ".min." ].

(** A run in which tracking was started and stopped. *)
Definition stopped_run : list event :=
  [EvStart 0 (str "j1");
   EvEdit (mkEvent demo_document [demo_edit]) 100;
   EvTimer 2 2100 (str "c1");
   EvEdit (mkEvent demo_document [demo_first_edit]) 2500;
   EvStop 3000].

End Journal.


(** ** The journal in the panel: what the provider sends to the webview *)

Module JournalPanel.
Import Js Types Tracker Journal.

(** [TrackedChange], the change as the webview gets it, has the fields of
    [CodeChange]. *)
Abbreviation TrackedChange := CodeChange (only parsing).

Definition convertToTrackedChange (change : CodeChange) : TrackedChange :=
  mkChange (id change) (timestamp change) (filePath change)
    (changeType change) (range change) (code change) (explanation change)
    (status change) (source change).

Record CodeJournal : Type := mkCodeJournal {
  cj_id : list N;
  cj_sessionStart : Z;
  cj_sessionEnd : option Z;
  cj_title : option (list N);
  cj_changes : list TrackedChange;
  cj_summary : option (list N);
  cj_isTracking : bool
}.

(** The messages of the journal, from the extension to the webview. *)
Inductive message : Type :=
| journalUpdate (journal : CodeJournal)
| changeDetected (change : TrackedChange)
| changeExplained (changeId : list N) (explanation : list N)
| trackingStateChanged (isTracking : bool).

(** The messages of the journal, from the webview to the extension. *)
Inductive request : Type :=
| startTrackingMsg
| stopTrackingMsg
| getJournal
| explainChangeMsg (changeId : list N)
| explainAllPending
| clearJournal.

(** *** The changes of the map, as objects *)

Definition time_of (s : state) (r : nat) : Z :=
  match heap s !! r with
  | Some c => timestamp c
  | None => 0
  end.

Fixpoint insert_newest_ref (s : state) (r : nat) (l : list nat) : list nat :=
  match l with
  | [] => [r]
  | x :: l' =>
      if (time_of s x <=? time_of s r)%Z then r :: l
      else x :: insert_newest_ref s r l'
  end.

(** What [getChanges()] returns, as references: the objects of the map,
    sorted like [getChanges]. *)
Definition getChanges_refs (s : state) : list nat :=
  foldr (insert_newest_ref s) [] (changes s).*2.

Definition deref (s : state) (refs : list nat) : list CodeChange :=
  omap (fun r => heap s !! r) refs.

(** The key of every entry of the map is the id of its object, and no
    object is entered twice. *)
Definition map_ok (s : state) : Prop :=
  NoDup (changes s).*1 /\ NoDup (changes s).*2
  /\ forall k r, In (k, r) (changes s) ->
       exists c, heap s !! r = Some c /\ id c = k.

(** What the operations other than [processChange] and [clear] leave as it
    is: the map of changes and the workspace flag. *)
Definition ledger (s : state) := (changes s, workspaceFolders s).

(** The record that a call of [explainChange] leaves of a record that it
    takes up; [ws] tells whether a workspace folder is open. *)
Definition answered (gen : LLMRequest -> outcome LLMResponse) (ws : bool)
  (c : CodeChange) : CodeChange :=
  if ws then
    match gen (explain_request c) with
    | Returned response =>
        with_status explained
          (with_explanation (resp_explanation response) c)
    | Thrown _ => with_status error c
    end
  else with_status error c.

(** *** What the provider sends *)

(** The object that [sendJournalUpdate] builds; [now] is the clock. *)
Definition journal_of (now : Z) (s : state) : CodeJournal :=
  let internalJournal := getCurrentJournal s in
  mkCodeJournal
    (match internalJournal with Some j => j_id j | None => [] end)
    (match internalJournal with Some j => sessionStart j | None => now end)
    (internalJournal ≫= sessionEnd)
    (internalJournal ≫= j_title)
    (convertToTrackedChange <$> getChanges s)
    (internalJournal ≫= j_summary)
    (match internalJournal with
     | Some j => negb (bool_decide (is_Some (sessionEnd j)))
     | None => false
     end).

Definition sendJournalUpdate (now : Z) (s : state) : message :=
  journalUpdate (journal_of now s).

(** The callback that the provider registers with [onChangeDetected]: each
    notification of the tracker goes to the webview. *)
Definition detected (o : output) : option message :=
  match o with
  | ChangeNotified c => Some (changeDetected (convertToTrackedChange c))
  | _ => None
  end.

(** The notifications that the tracker has made between two of its
    states. *)
Definition notified (s s' : state) : list message :=
  omap detected (drop (length (trace s)) (trace s')).

Definition explained_message (changeId : list N) (change : option CodeChange)
  : list message :=
  match change with
  | Some c =>
      if Player.truthy (explanation c)
      then [changeExplained changeId (default [] (explanation c))]
      else []
  | None => []
  end.

(** What a handler leaves: the state of the tracker, the messages sent, and
    how the handler ends. *)
Abbreviation reply := (state * list message * outcome unit)%type
  (only parsing).

(** [handleExplainChange], the call of [explainChange] running to its end
    with [gen] for the generator, and the panel staying open. *)
Definition handleExplainChange (gen : LLMRequest -> outcome LLMResponse)
  (now : Z) (changeId : list N) (s : state) : reply :=
  match explainChange changeId gen s with
  | (s', Returned _) =>
      let changes := getChanges s' in
      let change :=
        List.find (fun c => bool_decide (id c = changeId)) changes in
      (s', notified s s' ++ explained_message changeId change
           ++ [sendJournalUpdate now s'], Returned tt)
  | (s', Thrown e) => (s', notified s s', Thrown e)
  end.

(** The loop of [handleExplainAllPending] over the objects that were
    pending; [gen k] is the generator at the [k]-th turn. *)
Fixpoint explain_each (gen : nat -> LLMRequest -> outcome LLMResponse)
  (k : nat) (pending : list nat) (s : state) : reply :=
  match pending with
  | [] => (s, [], Returned tt)
  | r :: rest =>
      match heap s !! r with
      | Some change =>
          match explainChange (id change) (gen k) s with
          | (s1, Returned _) =>
              let sent :=
                match heap s1 !! r with
                | Some change' =>
                    explained_message (id change') (Some change')
                | None => []
                end in
              let '(s2, out, res) := explain_each gen (S k) rest s1 in
              (s2, notified s s1 ++ sent ++ out, res)
          | (s1, Thrown e) => (s1, notified s s1, Thrown e)
          end
      | None => (s, [], Thrown (str "TypeError"))
      end
  end.

Definition is_pending (s : state) (r : nat) : bool :=
  match heap s !! r with
  | Some c => bool_decide (status c = pending)
  | None => false
  end.

Definition handleExplainAllPending
  (gen : nat -> LLMRequest -> outcome LLMResponse) (now : Z) (s : state)
  : reply :=
  let changes := getChanges_refs s in
  let pending := List.filter (is_pending s) changes in
  match explain_each gen 0 pending s with
  | (s', out, Returned _) =>
      (s', out ++ [sendJournalUpdate now s'], Returned tt)
  | (s', out, Thrown e) => (s', out, Thrown e)
  end.

(** The listener of the panel, for the messages of the journal.  [now] is
    the clock when the tracker is called, [later] the clock when the
    journal is sent, [newid] what [generateId] draws. *)
Definition receive (gen : nat -> LLMRequest -> outcome LLMResponse)
  (now later : Z) (newid : list N) (m : request) (s : state) : reply :=
  match m with
  | startTrackingMsg =>
      let s' := startTracking now newid s in
      (s', [trackingStateChanged true; sendJournalUpdate later s'],
       Returned tt)
  | stopTrackingMsg =>
      let s' := fst (stopTracking now s) in
      (s', [trackingStateChanged false; sendJournalUpdate later s'],
       Returned tt)
  | getJournal => (s, [sendJournalUpdate later s], Returned tt)
  | explainChangeMsg changeId => handleExplainChange (gen 0) later changeId s
  | explainAllPending => handleExplainAllPending gen later s
  | clearJournal =>
      let s' := clear s in (s', [sendJournalUpdate later s'], Returned tt)
  end.

(** What the loop of [handleExplainAllPending] goes through: objects that
    are pending, each held by the map under its id. *)
Definition takes_up (s : state) (pending : list nat) : Prop :=
  NoDup pending
  /\ forall r, In r pending ->
       exists c, heap s !! r = Some c /\ status c = Tracker.pending
                 /\ map_get (id c) (changes s) = Some r.

(** What [changeExplained] tells of a change, if the change has an
    explanation that is not empty. *)
Definition report (c : CodeChange) : option (list N * list N) :=
  if Player.truthy (explanation c)
  then Some (id c, default [] (explanation c))
  else None.

(** The changes that a list of messages reports as explained. *)
Definition explained_ids (out : list message) : list (list N * list N) :=
  omap (fun m => match m with
                 | changeExplained i e => Some (i, e)
                 | _ => None
                 end) out.

Definition journals (out : list message) : list CodeJournal :=
  omap (fun m => match m with journalUpdate j => Some j | _ => None end) out.

Definition tracking_flags (out : list message) : list bool :=
  omap (fun m => match m with
                 | trackingStateChanged b => Some b
                 | _ => None
                 end) out.

End JournalPanel.


(** ** A session of the player: the user, the webview and the host *)

Module Session.
Import Js Types Player.

(** [type ViewState] of [App]. *)
Inductive ViewState : Type := list_view | settings_view | player_view.

Record webview : Type := mkWebview { app : App; view : ViewState }.

(** What [App] renders. *)
Inductive screen : Type :=
| SettingsScreen
| PlayerScreen (tour : VoyaTour)
| TourListScreen.

Definition rendered (w : webview) : screen :=
  match view w with
  | settings_view => SettingsScreen
  | player_view =>
      match activeTour (app w) with
      | Some tour => PlayerScreen tour
      | None => TourListScreen
      end
  | list_view => TourListScreen
  end.

Definition setView (v : ViewState) (w : webview) : webview :=
  mkWebview (app w) v.

Definition setActiveTour (t : option VoyaTour) (a : App) : App :=
  mkApp (tours a) (playerState a) t (deepenedExplanations a).

(** [Player]: [DETAIL_LEVELS] and [getNextDeeperLevel]. *)
Definition DETAIL_LEVELS : list DetailLevel :=
  [tldr; general; detailed; extreme_detail].

Definition indexOf (l : list DetailLevel) (x : DetailLevel) : Z :=
  match list_find (fun y => y = x) l with
  | Some (i, _) => Z.of_nat i
  | None => -1
  end.

Definition getNextDeeperLevel (detailLevel : DetailLevel)
  : option DetailLevel :=
  let currentIndex := indexOf DETAIL_LEVELS detailLevel in
  if (currentIndex <? Z.of_nat (length DETAIL_LEVELS) - 1)%Z
  then DETAIL_LEVELS !! Z.to_nat (currentIndex + 1)
  else None.

(** The messages that the host has sent between two of its states. *)
Definition news (h h' : host) : list ExtensionToWebviewMessage :=
  messages (drop (length (outbox h)) (outbox h')).

(** The host does something and the webview takes the messages that this
    sends.  The host's handler runs to its end here, with every [await] of
    it answered at once, and all its messages reach the webview before
    anything else happens: a user who acts while a handler is suspended
    (see [Player.deepen_start] and what follows it) is outside this
    model. *)
Definition roundtrip (f : host -> host) (sys : host * webview)
  : host * webview :=
  let h' := f (fst sys) in
  (h', mkWebview (deliver (news (fst sys) h') (app (snd sys)))
         (view (snd sys))).

(** [vscode.postMessage(m)], handled by the listener of the panel. *)
Definition post (env : environment) (m : WebviewToExtensionMessage)
  : host * webview -> host * webview :=
  roundtrip (fun h => fst (receive env m h)).

(** What the user can do on the screen that is rendered, and what the
    extension does on its own: the command that creates a tour loads it into
    the player. *)
Inductive action : Type :=
| Mount (ts : list VoyaTour)
    (* the effect of [App]: [requestTourList], answered with the stored tours *)
| SelectTour (found : option VoyaTour)
    (* [handleSelectTour(id)]; [found] is what [tourService.loadTour(id)]
       returns *)
| OpenSettings
| CloseSettings
| Play
| Pause
| Next
| Prev
| GoTo (i : Z)
| Back
| PickLevel (l : DetailLevel)
    (* an option of the level selector: [onDetailLevelChange(l)] and
       [onRequestDeepen(l)] *)
| PressDeepen
    (* the button shown when there is a deeper level and nothing plays or
       loads *)
| CreateTour (t : VoyaTour).
    (* the command [voya.createTour]: [show()] and [loadTour(tour)] *)

Definition handleRequestDeepen (env : environment) (targetLevel : DetailLevel)
  (sys : host * webview) : host * webview :=
  post env
    (requestDeepen (ps_currentStepIndex (playerState (app (snd sys))))
       targetLevel) sys.

(** One action, handled to completion: the webview's own handler, the
    host's listener up to its end, and the webview's handling of the
    messages that the host has sent. *)
Definition perform (env : environment) (a : action) (sys : host * webview)
  : host * webview :=
  let w := snd sys in
  match a, rendered w with
  | Mount ts, _ =>
      roundtrip (sendMessage (tourList ts)) sys
  | CreateTour t, _ => roundtrip (loadTour t) sys
  | SelectTour found, TourListScreen =>
      roundtrip
        (fun h => match found with Some tour => loadTour tour h | None => h end)
        (fst sys, setView player_view w)
  | OpenSettings, TourListScreen => (fst sys, setView settings_view w)
  | CloseSettings, SettingsScreen => (fst sys, setView list_view w)
  | Play, PlayerScreen _ => post env play sys
  | Pause, PlayerScreen _ => post env pause sys
  | Next, PlayerScreen _ => post env nextStep sys
  | Prev, PlayerScreen _ => post env prevStep sys
  | GoTo i, PlayerScreen _ => post env (goToStepMsg i) sys
  | Back, PlayerScreen _ =>
      (fst sys, mkWebview (setActiveTour None (app w)) list_view)
  | PickLevel l, PlayerScreen _ =>
      handleRequestDeepen env l
        (post env (setDetailLevel l)
           (fst sys, mkWebview (handleDetailLevelChange l (app w)) (view w)))
  | PressDeepen, PlayerScreen _ =>
      match getNextDeeperLevel (detailLevel (playerState (app w))) with
      | Some nextDeeperLevel =>
          if negb (isPlaying (playerState (app w)))
             && negb (isLoadingDeepen (playerState (app w)))
          then handleRequestDeepen env nextDeeperLevel sys
          else sys
      | None => sys
      end
  | _, _ => sys
  end.

(** A session in which each action is handled to completion before the
    next one. *)
Definition session (env : environment) (acts : list action)
  (sys : host * webview) : host * webview :=
  fold_left (fun sys a => perform env a sys) acts sys.

(** The panel has been opened, no tour is loaded. *)
Definition opened : host * webview :=
  (mkHost true None 0 [], mkWebview initial_app list_view).

(** What the host's tour holds for its current step at a level. *)
Definition host_explanation (level : DetailLevel) (h : host) : list N :=
  match currentTour h with
  | None => []
  | Some tour =>
      match nth_step (steps tour) (currentStepIndex h) with
      | None => []
      | Some st =>
          if truthy (embedded level st) then default [] (embedded level st)
          else explanation st
      end
  end.

(** [deepenedExplanations[i]?.[level]] *)
Definition cached_at (cache : gmap Z StepExplanations) (i : Z)
  (l : DetailLevel) : option (list N) :=
  match cache !! i with
  | Some e => get_level l e
  | None => None
  end.

(** The tour of the webview is the tour that the host was given, and the
    cache of the webview holds what the host has written into it since. *)
Definition mirrors (cache : gmap Z StepExplanations) (ta th : VoyaTour)
  : Prop :=
  length (steps ta) = length (steps th)
  /\ forall i sa sh,
       nth_step (steps ta) i = Some sa -> nth_step (steps th) i = Some sh ->
       explanation sa = explanation sh
       /\ forall l,
            (truthy (embedded l sa) = true -> embedded l sh = embedded l sa)
            /\ embedded l sh
               = match cached_at cache i l with
                 | Some text => Some text
                 | None => embedded l sa
                 end.

(** The two sides agree: on the step index, which is within the tour; on
    nothing being loaded; and on the tours as far as [related] says. *)
Definition agree
  (related : gmap Z StepExplanations -> VoyaTour -> VoyaTour -> Prop)
  (sys : host * webview) : Prop :=
  let h := fst sys in
  let a := app (snd sys) in
  panel h = true
  /\ ps_currentStepIndex (playerState a) = currentStepIndex h
  /\ isLoadingDeepen (playerState a) = false
  /\ (0 <= currentStepIndex h)%Z
  /\ (forall th, currentTour h = Some th ->
        (currentStepIndex h < Z.max 1 (Z.of_nat (length (steps th))))%Z)
  /\ forall ta, activeTour a = Some ta ->
       exists th, currentTour h = Some th
                  /\ length (steps ta) = length (steps th)
                  /\ related (deepenedExplanations a) ta th.

(** What the agreement needs of the relation between the tours: it holds
    of a tour that has just been loaded, and each way in which a request to
    deepen can end keeps it. *)
Record respected (env : environment)
  (related : gmap Z StepExplanations -> VoyaTour -> VoyaTour -> Prop)
  : Prop := {
  related_loaded : forall tour, related ∅ tour tour;
  related_hit : forall cache ta th i level st text,
    related cache ta th ->
    nth_step (steps th) i = Some st -> embedded level st = Some text ->
    related
      (<[i := set_level level text
                (match cache !! i with
                 | Some e => e
                 | None => no_explanations
                 end)]> cache) ta th;
  related_miss : forall cache ta th i level st text,
    related cache ta th ->
    nth_step (steps th) i = Some st -> truthy (embedded level st) = false ->
    related
      (<[i := set_level level text
                (match cache !! i with
                 | Some e => e
                 | None => no_explanations
                 end)]> cache) ta
      (mkTour (tour_id th) (title th) (createdAt th)
         (<[Z.to_nat i := cache_level level text st]> (steps th)));
  related_unsaved : forall cache ta th i level st text e,
    related cache ta th ->
    nth_step (steps th) i = Some st -> truthy (embedded level st) = false ->
    saveTour env
      (mkTour (tour_id th) (title th) (createdAt th)
         (<[Z.to_nat i := cache_level level text st]> (steps th)))
    = Thrown e ->
    related cache ta
      (mkTour (tour_id th) (title th) (createdAt th)
         (<[Z.to_nat i := cache_level level text st]> (steps th)))
}.

(** A one-step tour, and a store that rejects every write. *)
Definition demo_tour : VoyaTour := sample_tour 1.

Definition unsaved (text : list N) : environment :=
  mkEnv (fun _ => []) (fun _ => Returned (mkResponse text))
    (fun _ => Thrown (str "EACCES")).

End Session.


(** ** Arrays and numbers of JavaScript *)

Module JsArray.
Import Js.

(** The numbers of the code are IEEE 754 doubles.  Those that the functions
    below compute with are integers, and a double holds an integer exactly
    up to [2^53] in absolute value; beyond that it holds only the multiples
    of a power of two, and a sum or a difference is rounded to the nearest
    of them, to the one with an even significand when two are as near.
    [Number.MAX_SAFE_INTEGER] is [2^53 - 1]. *)
Definition MAX_SAFE_INTEGER : Z := (2 ^ 53 - 1)%Z.

(** The double nearest to the integer [z], for [z] below [2^1024] in
    absolute value (beyond, the double is an infinity): [z] itself up to
    [2^53]; above, with [2^e <= |z| < 2^(e+1)], the doubles are the
    multiples of [2^(e-52)]. *)
Definition double (z : Z) : Z :=
  let a := Z.abs z in
  if (a <=? 2 ^ 53)%Z then z
  else
    let ulp := (2 ^ (Z.log2 a - 52))%Z in
    let q := (a / ulp)%Z in
    let r := (a mod ulp)%Z in
    let q' :=
      if (2 * r <? ulp)%Z then q
      else if (ulp <? 2 * r)%Z then (q + 1)%Z
      else if Z.even q then q else (q + 1)%Z in
    (Z.sgn z * (q' * ulp))%Z.

(** [a + b] and [a - b] for doubles that are integers. *)
Definition num_add (a b : Z) : Z := double (a + b).
Definition num_sub (a b : Z) : Z := double (a - b).

(** [a.join(sep)] *)
Fixpoint join (sep : list N) (l : list (list N)) : list N :=
  match l with
  | [] => []
  | [x] => x
  | x :: l' => x ++ sep ++ join sep l'
  end.

(** [a.slice(start, end)] for integers: a negative index counts from the
    end, and both are clamped to the array. *)
Definition slice {A} (l : list A) (start end_ : Z) : list A :=
  let len := Z.of_nat (length l) in
  let k := if (start <? 0)%Z then Z.max (len + start) 0 else Z.min start len in
  let final :=
    if (end_ <? 0)%Z then Z.max (len + end_) 0 else Z.min end_ len in
  take (Z.to_nat (final - k)) (drop (Z.to_nat k) l).

(** [`${n}`] for an integer below [10^21] in absolute value, as line numbers
    and lengths are: the decimal digits, after a minus sign when negative. *)
Definition number_to_string (n : Z) : list N :=
  str (NilZero.string_of_int (Z.to_int n)).

(** [Math.ceil(a / b)] for the length [a] of an array or a string and a
    count [b] from 1 to 10: such a quotient, when it is no integer, is at
    least a tenth away from the integers, which is more than the rounding
    of the division moves it, so that its ceiling is that of the exact
    quotient.  Sums, differences and products of lengths and counts, which
    stay far below [2^53], are exact and are written with the operations
    of [Z]. *)
Definition ceil_div (a b : Z) : Z := (- ((- a) / b))%Z.

(** [s.replace(w, '')] for a string [w]: the first occurrence of [w] is
    taken out. *)
Fixpoint replace_first (w s : list N) : list N :=
  match strip_prefix w s with
  | Some rest => rest
  | None =>
      match s with
      | [] => []
      | c :: s' => c :: replace_first w s'
      end
  end.

(** [s.endsWith(w)] *)
Definition endsWith (w s : list N) : bool :=
  match strip_prefix (rev w) (rev s) with
  | Some _ => true
  | None => false
  end.

End JsArray.

(** ** Tours made by the tour service *)

Module Tours.
Import Js JsArray Types Player.

(** *** [TourService.createDemoTour] *)

Definition demo_step (filePath : list N) (startLine totalLines linesPerStep : Z)
  (i : nat) : VoyaStep :=
  let stepStartOffset := (Z.of_nat i * linesPerStep)%Z in
  let stepEndOffset :=
    Z.min ((Z.of_nat i + 1) * linesPerStep - 1) (totalLines - 1) in
  mkStep (Z.of_nat i) filePath
    (num_add startLine stepStartOffset) (num_add startLine stepEndOffset)
    (str "Step " ++ number_to_string (Z.of_nat i + 1) ++ str ": Code Section")
    (str "This section covers lines "
     ++ number_to_string (num_add startLine stepStartOffset) ++ str " to "
     ++ number_to_string (num_add startLine stepEndOffset) ++ str ". "
     ++ str "In Phase 2, this will be replaced with AI-generated explanations that describe what the code does, "
     ++ str "its purpose, and how it fits into the broader codebase. The teleprompter will smoothly scroll "
     ++ str "through this explanation while highlighting the relevant code.")
    None None None.

(** [tourId] is what [generateId] draws, [createdAt] the clock,
    [basename] is [path.basename(filePath)], and [saved] is how the write of
    [saveTour] ends. *)
Definition createDemoTour (tourId createdAt basename : list N)
  (saved : outcome unit) (filePath selectedText : list N)
  (startLine endLine : Z) : outcome VoyaTour :=
  let lines := split LF selectedText in
  let totalLines := Z.of_nat (length lines) in
  let stepsCount := Z.min (Z.max 1 (ceil_div totalLines 5)) 5 in
  let linesPerStep := ceil_div totalLines stepsCount in
  let steps :=
    List.map (demo_step filePath startLine totalLines linesPerStep)
      (seq 0 (Z.to_nat stepsCount)) in
  let tour := mkTour tourId (str "Tour of " ++ basename) createdAt steps in
  match saved with
  | Returned _ => Returned tour
  | Thrown e => Thrown e
  end.

(** The line ranges [first .. last] of the steps of a tour, one after the
    other. *)
Definition ranges (l : list VoyaStep) : list (Z * Z) :=
  List.map (fun st => (startLine st, endLine st)) l.

(** Consecutive, non-empty ranges from [first] to [last]. *)
Fixpoint tiles (first last : Z) (l : list (Z * Z)) : Prop :=
  match l with
  | [] => False
  | [(a, b)] => a = first /\ (a <= b)%Z /\ b = last
  | (a, b) :: l' => a = first /\ (a <= b)%Z /\ tiles (b + 1) last l'
  end.


(** *** [LLMService.generateTour] without a usable answer *)

Record TourGenerationRequest : Type := mkTourRequest {
  tg_code : list N;
  tg_filePath : list N;
  tg_startLine : Z;
  tg_endLine : Z;
  tg_detailLevel : DetailLevel;
  tg_outputLanguage : option (list N);
  tg_additionalContext : option (list N)
}.

Record GeneratedStep : Type := mkGenerated {
  gs_summary : list N;
  gs_explanation : list N;
  gs_startLine : Z;
  gs_endLine : Z
}.

Definition quote : N := 34%N.

Definition stub_step (request : TourGenerationRequest)
  (stepsCount linesPerStep : Z) (i : nat) : GeneratedStep :=
  let stepStartLine :=
    num_add (tg_startLine request) (Z.of_nat i * linesPerStep) in
  let stepEndLine :=
    Z.min
      (num_sub
         (num_add (tg_startLine request) ((Z.of_nat i + 1) * linesPerStep)) 1)
      (tg_endLine request) in
  mkGenerated
    (if (Z.of_nat i =? 0)%Z then str "Introduction & Setup"
     else if (Z.of_nat i =? stepsCount - 1)%Z then str "Wrapping Up"
     else str "Section " ++ number_to_string (Z.of_nat i + 1)
          ++ str ": Core Logic")
    (if (Z.of_nat i =? 0)%Z then
       join [LF]
         [ str "Welcome to this code tour! This walkthrough will guide you through the code in "
             ++ tg_filePath request ++ str ".";
           [];
           str "To enable AI-powered explanations that analyze your actual code:";
           str "1. Open VS Code Settings (Cmd+,)";
           str "2. Search for " ++ [quote] ++ str "voya.llm.apiKey" ++ [quote];
           str "3. Enter your OpenAI or Anthropic API key";
           [];
           str "Let's begin exploring this code section by section." ]
     else
       join [LF]
         [ str "This section covers lines " ++ number_to_string stepStartLine
             ++ str " to " ++ number_to_string stepEndLine ++ str ". ";
           [];
           str "When AI analysis is enabled, you'll see:";
           str "- Detailed explanation of what this code does";
           str "- Why certain patterns or approaches were chosen";
           str "- How this section connects to the rest of the codebase";
           str "- Potential edge cases or considerations";
           [];
           str "Configure your LLM API key to unlock these insights!" ])
    stepStartLine stepEndLine.

Definition generateStubSteps (request : TourGenerationRequest)
  : list GeneratedStep :=
  let lines := split LF (tg_code request) in
  let totalLines := Z.of_nat (length lines) in
  let stepsCount := Z.min (Z.max 2 (ceil_div totalLines 10)) 5 in
  let linesPerStep := ceil_div totalLines stepsCount in
  List.map (stub_step request stepsCount linesPerStep)
    (seq 0 (Z.to_nat stepsCount)).

(** [configured] is [isConfigured()]; [parsed] is how the call of the
    provider, [JSON.parse] of its answer and the reading of its [steps] end,
    the steps being the typed data that the code takes them for. *)
Definition generateTour (configured : bool)
  (parsed : outcome (list GeneratedStep)) (request : TourGenerationRequest)
  : list GeneratedStep :=
  if negb configured then generateStubSteps request
  else
    match parsed with
    | Returned steps =>
        List.map
          (fun step =>
             mkGenerated (gs_summary step) (gs_explanation step)
               (num_sub (num_add (tg_startLine request) (gs_startLine step))
                  1)
               (num_sub (num_add (tg_startLine request) (gs_endLine step)) 1))
          steps
    | Thrown _ => generateStubSteps request
    end.

(** *** [LLMService.generateExplanation] *)

(** [path.split('/').pop()] *)
Definition lastSegment (path : list N) : list N :=
  default [] (last (split 47%N path)).

(** The placeholder for a level; the lines of each text are joined by line
    feeds. *)
Definition stub_text (request : LLMRequest) (level : DetailLevel) : list N :=
  match level with
  | tldr =>
      str "This code handles " ++ lastSegment (req_filePath request)
        ++ str " logic (lines " ++ number_to_string (req_startLine request)
        ++ str "-" ++ number_to_string (req_endLine request) ++ str ")."
  | general =>
      join [LF]
        [ str "This section of code in " ++ req_filePath request
            ++ str " (lines " ++ number_to_string (req_startLine request)
            ++ str "-" ++ number_to_string (req_endLine request)
            ++ str ") implements core functionality for the module.";
          [];
          str "The code follows a clear pattern: it initializes necessary state, processes the input data, and returns the transformed result. Key functions work together to ensure data integrity throughout the pipeline.";
          [];
          [9888%N; 65039%N]
            ++ str " To get AI-powered explanations, configure your API key in VS Code settings:";
          str "1. Open Settings (Cmd+,)";
          str "2. Search for " ++ [quote] ++ str "voya" ++ [quote] ++ str "  ";
          str "3. Set your OpenAI or Anthropic API key" ]
  | detailed =>
      join [LF]
        [ str "## Overview";
          str "This code block in " ++ req_filePath request
            ++ str " spans lines " ++ number_to_string (req_startLine request)
            ++ str " to " ++ number_to_string (req_endLine request) ++ str ".";
          [];
          str "## How to Enable AI Analysis";
          str "To receive intelligent, context-aware explanations:";
          [];
          str "1. **Get an API Key**: Sign up at OpenAI (platform.openai.com) or Anthropic (console.anthropic.com)";
          str "2. **Configure Voya**: ";
          str "   - Open VS Code Settings (Cmd+,)";
          str "   - Search for " ++ [quote] ++ str "voya.llm" ++ [quote];
          str "   - Set your API key and preferred provider";
          str "3. **Create a New Tour**: The next tour you create will use AI-powered analysis";
          [];
          str "## Supported Providers";
          str "- **OpenAI**: GPT-4, GPT-4 Turbo (recommended for code)";
          str "- **Anthropic**: Claude 3 Opus, Claude 3 Sonnet" ]
  | extreme_detail =>
      join [LF]
        [ str "# Demo Mode - AI Not Configured";
          [];
          str "This is a placeholder explanation. To unlock the full power of Voya's AI-driven code analysis:";
          [];
          str "## Quick Setup Guide";
          [];
          str "### Step 1: Choose Your Provider";
          str "- **OpenAI GPT-4**: Best for detailed code analysis, supports function calling";
          str "- **Anthropic Claude 3**: Excellent for nuanced explanations, 200K context window";
          [];
          str "### Step 2: Get API Key";
          str "- OpenAI: https://platform.openai.com/api-keys";
          str "- Anthropic: https://console.anthropic.com/";
          [];
          str "### Step 3: Configure Voya";
          str "Open VS Code settings and search for " ++ [quote] ++ str "voya"
            ++ [quote] ++ str ":";
          [];
          str "```json";
          str "{";
          str "  " ++ [quote] ++ str "voya.llm.provider" ++ [quote]
            ++ str ": " ++ [quote] ++ str "openai" ++ [quote] ++ str ",";
          str "  " ++ [quote] ++ str "voya.llm.apiKey" ++ [quote] ++ str ": "
            ++ [quote] ++ str "your-api-key-here" ++ [quote] ++ str ",";
          str "  " ++ [quote] ++ str "voya.llm.model" ++ [quote] ++ str ": "
            ++ [quote] ++ str "gpt-4-turbo-preview" ++ [quote];
          str "}";
          str "```";
          [];
          str "### Step 4: Create Your First AI Tour";
          str "Select code " ++ [8594%N] ++ str " Right click " ++ [8594%N]
            ++ str " " ++ [quote] ++ str "Voya: Create Tour from Selection"
            ++ [quote];
          [];
          str "---";
          str "File: " ++ req_filePath request;
          str "Lines: " ++ number_to_string (req_startLine request) ++ str "-"
            ++ number_to_string (req_endLine request) ]
  end.

Definition generateStubResponse (request : LLMRequest) : LLMResponse :=
  mkResponse (stub_text request (req_detailLevel request)).

(** [configured] is [isConfigured()]; [provider] is the call of the
    provider with the prompt built for the request, whose failure is thrown
    on. *)
Definition generateExplanation (configured : bool)
  (provider : LLMRequest -> outcome LLMResponse) (request : LLMRequest)
  : outcome LLMResponse :=
  if negb configured then Returned (generateStubResponse request)
  else provider request.

(** *** [TourService.createTour] *)

Definition extractCodeSnippet (fullCode : list N)
  (relativeStart relativeEnd : Z) : list N :=
  let lines := split LF fullCode in
  join [LF] (slice lines relativeStart (num_add relativeEnd 1)).

(** [tourId] is what [generateId] draws, [createdAt] the clock, [title] what
    [generateTourTitle] resolves to, [generatedSteps] what
    [llmService.generateTour] resolves to, and [saved] is how the write of
    [saveTour] ends. *)
Definition createTour (tourId createdAt title : list N)
  (generatedSteps : list GeneratedStep) (saved : outcome unit)
  (filePath selectedText : list N) (startLine endLine : Z)
  : outcome VoyaTour :=
  let steps :=
    imap
      (fun index step =>
         mkStep (Z.of_nat index) filePath (gs_startLine step)
           (gs_endLine step) (gs_summary step) (gs_explanation step)
           None None
           (Some (extractCodeSnippet selectedText
                    (num_sub (gs_startLine step) startLine)
                    (num_sub (gs_endLine step) startLine))))
      generatedSteps in
  let tour := mkTour tourId title createdAt steps in
  match saved with
  | Returned _ => Returned tour
  | Thrown e => Thrown e
  end.

(** *** The files of the tours *)

(** [`${tourId}.json`], the name under which [saveTour] writes a tour and
    [loadTour] reads it. *)
Definition tourFileName (tourId : list N) : list N := tourId ++ str ".json".

(** The identifier that [listTours] passes to [loadTour] for a file of the
    directory, if the file has the name of a tour file. *)
Definition listedTourId (fileName : list N) : option (list N) :=
  if endsWith (str ".json") fileName
  then Some (replace_first (str ".json") fileName)
  else None.

(** The snippets of the steps, one after the other. *)
Definition snippets (l : list VoyaStep) : list (list N) :=
  omap codeSnippet l.

(** A selection of three lines that starts at line 10. *)
Definition three_lines : list N :=
  str "let a = 1;" ++ [LF] ++ str "let b = 2;" ++ [LF] ++ str "return a + b;".

End Tours.

(** ** Tours made for a selection of a document *)

Module SelectionTours.
Import Js JsArray Types Player Tours.

(** [createTour(document, selection)]: [startLine] and [endLine] are
    [selection.start.line + 1] and [selection.end.line + 1], [selectedText]
    is [document.getText(selection)], [filePath] is
    [getRelativePath(document.uri)]; the other arguments are as for the
    earlier [createTour].  The context gathered for the prompt goes into
    the request of [generateTour] only.  [createTourFromText] computes its
    steps in the same way. *)
Definition createTour (tourId createdAt title : list N)
  (generatedSteps : list GeneratedStep) (saved : outcome unit)
  (filePath selectedText : list N) (startLine endLine : Z)
  : outcome VoyaTour :=
  let steps :=
    imap
      (fun index step =>
         mkStep (Z.of_nat index) filePath
           (num_sub (num_add startLine (gs_startLine step)) 1)
           (num_sub (num_add startLine (gs_endLine step)) 1)
           (gs_summary step) (gs_explanation step)
           None None
           (Some (extractCodeSnippet selectedText
                    (num_sub (gs_startLine step) 1)
                    (num_sub (gs_endLine step) 1))))
      generatedSteps in
  let tour := mkTour tourId title createdAt steps in
  match saved with
  | Returned _ => Returned tour
  | Thrown e => Thrown e
  end.

End SelectionTours.


(** * Proofs *)

(** ** Regular expressions: the matcher finds what the pattern denotes *)

Module RegexProofs.
Import Js Regex.

Lemma strip_prefix_Some w s s' : strip_prefix w s = Some s' <-> s = w ++ s'.
Proof.
  revert s. induction w as [|a w IH]; intros s; cbn [strip_prefix app].
  - split; [now intros [= ->] | now intros ->].
  - destruct s as [|b s]; [split; discriminate|].
    destruct (N.eqb_spec a b) as [-> | Hne].
    + rewrite IH. split; [now intros -> | now intros [= ->]].
    + split; [discriminate | intros [= ? _]; congruence].
Qed.

Lemma last_or_cons prev x ws : last_or prev (x :: ws) = last_or (Some x) ws.
Proof.
  unfold last_or. destruct ws as [|y ws]; [reflexivity|].
  change (last (x :: y :: ws)) with (last (y :: ws)).
  destruct (last (y :: ws)) eqn:E; [reflexivity|].
  apply last_None in E. discriminate.
Qed.

Lemma star_is_Some {A} c (k : cont A) prev s :
  is_Some (star c k prev s) <->
  exists ws rest,
    s = ws ++ rest /\ forallb (in_cls c) ws = true
    /\ is_Some (k (last_or prev ws) rest).
Proof.
  revert prev. induction s as [|x s IH]; intros prev; cbn [star].
  - split.
    + intros H. exists [], []. auto.
    + intros (ws & rest & E & _ & H).
      symmetry in E. apply app_eq_nil in E as [-> ->]. exact H.
  - split.
    + destruct (in_cls c x) eqn:Hx.
      * destruct (star c k (Some x) s) as [r|] eqn:Hs.
        -- intros _.
           destruct (proj1 (IH (Some x))) as (ws & rest & -> & Hws & Hk);
             [rewrite Hs; eauto|].
           exists (x :: ws), rest. cbn [forallb app].
           rewrite Hx, Hws, last_or_cons. auto.
        -- intros H. exists [], (x :: s). auto.
      * intros H. exists [], (x :: s). auto.
    + intros (ws & rest & E & Hws & Hk). destruct ws as [|y ws].
      * cbn [app] in E. subst rest. cbn in Hk.
        destruct (in_cls c x); [|exact Hk].
        now destruct (star c k (Some x) s).
      * cbn [app] in E. injection E as <- ->.
        cbn [forallb] in Hws. apply andb_prop in Hws as [Hx Hws].
        rewrite Hx. rewrite last_or_cons in Hk.
        assert (is_Some (star c k (Some x) (ws ++ rest))) as [r Hr]
          by (apply IH; eauto).
        rewrite Hr. eauto.
Qed.

(** The matcher succeeds exactly when the pattern matches a prefix after
    which the continuation succeeds. *)
Lemma run_is_Some {A} r prev s (k : cont A) :
  is_Some (run r prev s k) <->
  exists prev' rest, matches r prev s prev' rest /\ is_Some (k prev' rest).
Proof.
  revert prev s k.
  induction r as [w|c| | | |r1 IH1 r2 IH2|r IH|c|c]; intros prev s k;
    cbn [run].
  - destruct (strip_prefix w s) as [s'|] eqn:E.
    + apply strip_prefix_Some in E as ->. split.
      * intros H. eexists _, _. split; [constructor | exact H].
      * intros (p' & rest & Hm & Hk). inversion Hm; subst.
        apply app_inv_head in H as ->. exact Hk.
    + split; [intros []; discriminate|].
      intros (p' & rest & Hm & _). inversion Hm; subst.
      assert (strip_prefix w (w ++ rest) = Some rest) as E'
        by now apply strip_prefix_Some.
      congruence.
  - destruct s as [|x s].
    + split; [intros []; discriminate|].
      intros (p' & rest & Hm & _). inversion Hm.
    + destruct (in_cls c x) eqn:Hx; split.
      * intros H. eexists _, _. split; [now constructor | exact H].
      * intros (p' & rest & Hm & Hk). now inversion Hm; subst.
      * intros []; discriminate.
      * intros (p' & rest & Hm & _). inversion Hm; subst. congruence.
  - destruct (at_bol prev) eqn:Hb; split.
    + intros H. eexists _, _. split; [now constructor | exact H].
    + intros (p' & rest & Hm & Hk). now inversion Hm; subst.
    + intros []; discriminate.
    + intros (p' & rest & Hm & _). inversion Hm; subst. congruence.
  - destruct (at_eol s) eqn:Hb; split.
    + intros H. eexists _, _. split; [now constructor | exact H].
    + intros (p' & rest & Hm & Hk). now inversion Hm; subst.
    + intros []; discriminate.
    + intros (p' & rest & Hm & _). inversion Hm; subst. congruence.
  - destruct s as [|x s]; split.
    + intros H. eexists _, _. split; [constructor | exact H].
    + intros (p' & rest & Hm & Hk). now inversion Hm; subst.
    + intros []; discriminate.
    + intros (p' & rest & Hm & _). inversion Hm.
  - rewrite IH1. split.
    + intros (p1 & s1 & Hm1 & H2). apply IH2 in H2 as (p2 & s2 & Hm2 & Hk).
      eexists _, _. split; [econstructor; eauto | exact Hk].
    + intros (p2 & s2 & Hm & Hk). inversion Hm; subst.
      eexists _, _. split; [eassumption|]. apply IH2. eauto.
  - split.
    + destruct (run r prev s k) as [res|] eqn:E.
      * intros _.
        destruct (proj1 (IH prev s k)) as (p' & rest & Hm & Hk);
          [rewrite E; eauto|].
        eexists _, _. split; [apply matches_Opt_some; eassumption | exact Hk].
      * intros H. eexists _, _. split; [apply matches_Opt_none | exact H].
    + intros (p' & rest & Hm & Hk).
      destruct (run r prev s k) as [res|] eqn:E; [eauto|].
      inversion Hm; subst; [|exact Hk].
      exfalso. apply eq_None_not_Some in E. apply E, IH. eauto.
  - rewrite star_is_Some. split.
    + intros (ws & rest & -> & Hws & Hk).
      eexists _, _. split; [now constructor | exact Hk].
    + intros (p' & rest & Hm & Hk). inversion Hm; subst. eauto.
  - destruct s as [|x s].
    + split; [intros []; discriminate|].
      intros (p' & rest & Hm & _). inversion Hm.
    + destruct (in_cls c x) eqn:Hx.
      * rewrite star_is_Some. split.
        -- intros (ws & rest & -> & Hws & Hk).
           eexists _, _. split; [now constructor | exact Hk].
        -- intros (p' & rest & Hm & Hk). inversion Hm; subst. eauto.
      * split; [intros []; discriminate|].
        intros (p' & rest & Hm & _). inversion Hm; subst. congruence.
Qed.

Lemma exec_at_is_Some r prev s :
  is_Some (exec_at r prev s) <-> exists prev' rest, matches r prev s prev' rest.
Proof.
  unfold exec_at. rewrite run_is_Some. split.
  - intros (p' & rest & Hm & _). eauto.
  - intros (p' & rest & Hm). eauto.
Qed.

Lemma test_from_true r prev s :
  test_from r prev s = true <->
  exists pre post prev' rest,
    s = pre ++ post /\ matches r (last_or prev pre) post prev' rest.
Proof.
  revert prev. induction s as [|x s IH]; intros prev; cbn [test_from].
  - destruct (exec_at r prev []) as [rest|] eqn:E; split.
    + intros _.
      destruct (proj1 (exec_at_is_Some r prev [])) as (p' & rest' & Hm);
        [rewrite E; eauto|].
      exists [], [], p', rest'. auto.
    + reflexivity.
    + discriminate.
    + intros (pre & post & p' & rest & Hs & Hm).
      symmetry in Hs. apply app_eq_nil in Hs as [-> ->].
      assert (is_Some (exec_at r prev [])) as [? ?]
        by (apply exec_at_is_Some; eauto).
      congruence.
  - destruct (exec_at r prev (x :: s)) as [rest|] eqn:E; split.
    + intros _.
      destruct (proj1 (exec_at_is_Some r prev (x :: s))) as (p' & rest' & Hm);
        [rewrite E; eauto|].
      exists [], (x :: s), p', rest'. auto.
    + reflexivity.
    + intros H. apply IH in H as (pre & post & p' & rest & -> & Hm).
      exists (x :: pre), post, p', rest. rewrite last_or_cons. auto.
    + intros (pre & post & p' & rest & Hs & Hm). destruct pre as [|y pre].
      * cbn [app] in Hs. subst post.
        assert (is_Some (exec_at r prev (x :: s))) as [? ?]
          by (apply exec_at_is_Some; eauto).
        congruence.
      * cbn [app] in Hs. injection Hs as <- ->. apply IH.
        exists pre, post, p', rest. rewrite last_or_cons in Hm. auto.
Qed.

(** [r.test(text)] is true exactly when the pattern matches somewhere in the
    text. *)
Lemma test_true r text : test r text = true <-> found r text.
Proof.
  unfold test, found. rewrite test_from_true.
  split; intros (pre & post & p' & rest & Hs & Hm);
    exists pre, post, p', rest; (split; [exact Hs|]);
    unfold last_or in *; now destruct (last pre).
Qed.

End RegexProofs.

(** ** Classifier *)

Module ClassifierProofs.
Import Js Regex Classifier RegexProofs.

Lemma line_terminator_is_space c :
  is_line_terminator c = true -> is_space c = true.
Proof.
  intros H. unfold is_space. rewrite H. apply orb_true_r.
Qed.

Lemma stmt_char_not_space c : is_stmt_char c = true -> is_space c = false.
Proof.
  unfold is_stmt_char. cbn [str of_ascii list_ascii_of_string List.map existsb].
  intros H.
  repeat (apply orb_prop in H; destruct H as [H | H]);
    try discriminate;
    apply N.eqb_eq in H; subst c; reflexivity.
Qed.

Lemma stmt_char_not_terminator c :
  is_stmt_char c = true -> is_line_terminator c = false.
Proof.
  intros H. destruct (is_line_terminator c) eqn:E; [|reflexivity].
  apply line_terminator_is_space in E.
  rewrite (stmt_char_not_space c H) in E. discriminate.
Qed.

(** *** Lines *)

Lemma split_by_length sep s :
  length (split_by sep s) = S (length (List.filter sep s)).
Proof.
  induction s as [|c s IH]; [reflexivity|].
  cbn [split_by List.filter]. destruct (sep c); cbn [length].
  - now rewrite IH.
  - destruct (split_by sep s); cbn [length] in *; lia.
Qed.

Lemma split_length text : length (split LF text) = line_count text.
Proof. apply split_by_length. Qed.

(** *** Brace counts *)

Lemma match_all_single c prev s :
  length (match_all_from (Str [c]) 0 prev s) = occurrences c s.
Proof.
  revert prev. induction s as [|x s IH]; intros prev; [reflexivity|].
  unfold occurrences in *.
  cbn [match_all_from exec_at run strip_prefix List.filter].
  destruct (c =? x)%N; cbn [length].
  - replace (S (length s) - length s - 1) with 0 by lia. now rewrite IH.
  - apply IH.
Qed.

Lemma open_braces_count text :
  length (match_all open_brace_re text) = occurrences (chr "{") text.
Proof. apply match_all_single. Qed.

Lemma close_braces_count text :
  length (match_all close_brace_re text) = occurrences (chr "}") text.
Proof. apply match_all_single. Qed.

(** *** Statement ends *)

Lemma star_space_eol prev s :
  match star Space (fun p s' => run Eol p s' (fun _ rest => Some rest)) prev s
  with
  | Some rest =>
      exists ws, s = ws ++ rest /\ forallb is_space ws = true
                 /\ blank_to_eol s = true
  | None => blank_to_eol s = false
  end.
Proof.
  revert prev. induction s as [|x s IH]; intros prev.
  - cbn. exists []. auto.
  - cbn [star in_cls blank_to_eol].
    destruct (is_space x) eqn:Hsp.
    + specialize (IH (Some x)).
      destruct (star Space _ (Some x) s) as [rest|].
      * destruct IH as (ws & -> & Hws & Hb).
        exists (x :: ws). cbn [forallb]. rewrite Hsp, Hws, Hb.
        destruct (is_line_terminator x); auto.
      * cbn [run at_eol]. destruct (is_line_terminator x) eqn:Hlt.
        -- exists []. auto.
        -- now rewrite IH.
    + cbn [run at_eol]. destruct (is_line_terminator x) eqn:Hlt.
      * apply line_terminator_is_space in Hlt. congruence.
      * reflexivity.
Qed.

Lemma stmt_ends_spaces ws s :
  forallb is_space ws = true -> stmt_ends (ws ++ s) = stmt_ends s.
Proof.
  induction ws as [|c ws IH]; [reflexivity|].
  cbn [forallb app stmt_ends]. intros [Hc Hws]%andb_prop.
  destruct (is_stmt_char c) eqn:E.
  - apply stmt_char_not_space in E. congruence.
  - cbn. auto.
Qed.

Lemma exec_statement_cons prev x s :
  exec_at statement_re prev (x :: s) =
    if is_stmt_char x
    then star Space (fun p s' => run Eol p s' (fun _ rest => Some rest))
           (Some x) s
    else None.
Proof. reflexivity. Qed.

Lemma match_all_statement skip prev s :
  skip <= length s ->
  forallb is_space (take skip s) = true ->
  length (match_all_from statement_re skip prev s) = stmt_ends s.
Proof.
  revert skip prev. induction s as [|x s IH]; intros skip prev Hle Hsp.
  - cbn [length] in Hle. destruct skip; [reflexivity | lia].
  - destruct skip as [|n].
    + cbn [match_all_from]. rewrite exec_statement_cons. cbn [stmt_ends].
      destruct (is_stmt_char x) eqn:Hx; cbn [andb].
      * pose proof (star_space_eol (Some x) s) as Hst.
        destruct (star Space _ (Some x) s) as [rest|].
        -- destruct Hst as (ws & -> & Hws & ->).
           cbn [length]. rewrite length_app.
           replace (S (length ws + length rest) - length rest - 1)
             with (length ws) by lia.
           rewrite IH.
           ++ reflexivity.
           ++ rewrite length_app. lia.
           ++ now rewrite take_app_length.
        -- rewrite Hst. cbn [Nat.add]. apply IH; [lia | reflexivity].
      * cbn [Nat.add]. apply IH; [lia | reflexivity].
    + cbn [match_all_from stmt_ends]. cbn [take forallb] in Hsp.
      apply andb_prop in Hsp as [Hx Hsp].
      destruct (is_stmt_char x) eqn:E.
      * apply stmt_char_not_space in E. congruence.
      * cbn [andb Nat.add]. apply IH; [cbn [length] in Hle; lia | exact Hsp].
Qed.

(** *** Lines that end in a statement character *)

Lemma drop_spaces_snoc a c :
  drop_spaces (a ++ [c]) =
    if forallb is_space a then (if is_space c then [] else [c])
    else drop_spaces a ++ [c].
Proof.
  induction a as [|x a IH]; [reflexivity|].
  cbn [app drop_spaces forallb]. destruct (is_space x); auto.
Qed.

Lemma forallb_rev {A} (f : A -> bool) l : forallb f (rev l) = forallb f l.
Proof.
  induction l as [|x l IH]; [reflexivity|].
  cbn [rev forallb]. rewrite forallb_app, IH. cbn. rewrite andb_true_r.
  apply andb_comm.
Qed.

Lemma trim_end_cons c l :
  trim_end (c :: l) =
    if forallb is_space l then (if is_space c then [] else [c])
    else c :: trim_end l.
Proof.
  unfold trim_end. cbn [rev]. rewrite drop_spaces_snoc, forallb_rev.
  destruct (forallb is_space l).
  - now destruct (is_space c).
  - rewrite rev_app_distr. reflexivity.
Qed.

Lemma trim_end_blank l : forallb is_space l = true -> trim_end l = [].
Proof.
  induction l as [|c l IH]; [reflexivity|].
  cbn [forallb]. intros [Hc Hl]%andb_prop.
  now rewrite trim_end_cons, Hl, Hc.
Qed.

Lemma trim_end_nonblank l : forallb is_space l = false -> trim_end l <> [].
Proof.
  induction l as [|c l IH]; [discriminate|].
  intros H. rewrite trim_end_cons.
  destruct (forallb is_space l) eqn:Hl; [|discriminate].
  cbn [forallb] in H. rewrite Hl, andb_true_r in H. now rewrite H.
Qed.

Lemma ends_stmt_cons c l :
  ends_stmt (c :: l) =
    if forallb is_space l then is_stmt_char c else ends_stmt l.
Proof.
  unfold ends_stmt. rewrite trim_end_cons.
  destruct (forallb is_space l) eqn:Hl.
  - destruct (is_space c) eqn:Hc; [|reflexivity].
    destruct (is_stmt_char c) eqn:E; [|reflexivity].
    apply stmt_char_not_space in E. congruence.
  - apply trim_end_nonblank in Hl.
    destruct (trim_end l); [congruence | reflexivity].
Qed.

Lemma ends_stmt_blank l : forallb is_space l = true -> ends_stmt l = false.
Proof.
  intros H. unfold ends_stmt. now rewrite (trim_end_blank l H).
Qed.

Lemma stmt_ends_lines s :
  exists l ls,
    split_by is_line_terminator s = l :: ls
    /\ blank_to_eol s = forallb is_space l
    /\ stmt_ends s = length (List.filter ends_stmt (l :: ls)).
Proof.
  induction s as [|c s (l & ls & Hs & Hb & Hn)].
  - exists [], []. repeat split.
  - cbn [split_by blank_to_eol stmt_ends]. rewrite Hs.
    destruct (is_line_terminator c) eqn:Hlt.
    + exists [], (l :: ls). repeat split.
      destruct (is_stmt_char c) eqn:E.
      * apply stmt_char_not_terminator in E. congruence.
      * cbn [andb Nat.add]. rewrite Hn. reflexivity.
    + exists (c :: l), ls. split; [reflexivity|]. split.
      * cbn [forallb]. now rewrite Hb.
      * rewrite Hn, Hb. cbn [List.filter]. rewrite ends_stmt_cons.
        destruct (forallb is_space l) eqn:Hl.
        -- rewrite (ends_stmt_blank l Hl), andb_true_r.
           destruct (is_stmt_char c); reflexivity.
        -- rewrite andb_false_r. destruct (ends_stmt l); reflexivity.
Qed.

Lemma statements_count text :
  length (match_all statement_re text) = stmt_lines text.
Proof.
  unfold match_all, stmt_lines.
  rewrite match_all_statement by (cbn; auto with arith).
  destruct (stmt_ends_lines text) as (l & ls & -> & _ & ->). reflexivity.
Qed.

(** *** The decision procedure *)

Lemma hasCodePattern_true text :
  hasCodePattern text = true <-> matches_code_pattern text.
Proof.
  unfold hasCodePattern, matches_code_pattern. rewrite existsb_exists.
  split; intros (p & Hin & Hp); exists p; (split; [exact Hin|]);
    now apply test_true.
Qed.

Lemma detectAgentChange_spec text :
  detectAgentChange text = true <-> spec_condition stmt_lines text.
Proof.
  unfold detectAgentChange, spec_condition.
  rewrite split_length, open_braces_count, close_braces_count,
    statements_count, <- hasCodePattern_true.
  destruct (Nat.ltb_spec (line_count text) 3) as [Hlt | Hge].
  - split; [discriminate | intros [H _]; lia].
  - rewrite !andb_true_iff, orb_true_iff, Nat.eqb_eq, !Nat.leb_le.
    tauto.
Qed.

(** C1, as the code has it.  The classifier answers [agent] exactly when the
    text has at least 3 lines (as cut by ['\n']), matches one of the listed
    code patterns, has as many ['{'] as ['}'], and either at least 2 line
    ends (end of text, or the position before LF, CR, U+2028 or U+2029) are
    preceded by [;], [{] or [}] and optional white space, or the text has at
    least 5 lines; in every other case it answers [manual]. *)
Theorem classify_agent_iff text :
  (classify text = agent <-> spec_condition stmt_lines text)
  /\ (classify text = manual <-> ~ spec_condition stmt_lines text).
Proof.
  unfold classify. rewrite <- detectAgentChange_spec.
  destruct (detectAgentChange text); intuition (try discriminate; congruence).
Qed.

(** C1 as stated, with lines cut at ['\n'] throughout, fails on
    [lone_cr_text]: the classifier answers [agent] although only one of the
    three lines ends in a statement character. *)
Lemma classify_lone_cr :
  classify lone_cr_text = agent
  /\ line_count lone_cr_text = 3
  /\ stmt_lines_lf lone_cr_text = 1
  /\ ~ spec_condition stmt_lines_lf lone_cr_text.
Proof.
  split; [reflexivity|]. split; [reflexivity|]. split; [reflexivity|].
  unfold spec_condition. intros (_ & _ & _ & [H | H]); vm_compute in H; lia.
Qed.

(** On texts whose only line terminator is LF both readings agree. *)
Lemma split_by_ext (f g : N -> bool) s :
  Forall (fun c => f c = g c) s -> split_by f s = split_by g s.
Proof.
  induction 1 as [|c s Hc _ IH]; [reflexivity|].
  cbn [split_by]. now rewrite Hc, IH.
Qed.

Lemma classify_agent_iff_lf text :
  Forall (fun c => is_line_terminator c = (LF =? c)%N) text ->
  (classify text = agent <-> spec_condition stmt_lines_lf text).
Proof.
  intros H. unfold classify.
  assert (spec_condition stmt_lines_lf text <-> spec_condition stmt_lines text)
    as ->.
  { unfold spec_condition, stmt_lines, stmt_lines_lf, split.
    now rewrite (split_by_ext _ _ _ H). }
  rewrite <- detectAgentChange_spec.
  destruct (detectAgentChange text); intuition (try discriminate; congruence).
Qed.

(** The examples of the specification. *)
Example classify_function :
  classify (str "function foo() {" ++ [LF] ++ str "  return 1;" ++ [LF]
            ++ str "}") = agent.
Proof. reflexivity. Qed.

Example classify_prose :
  classify (str "one line of prose" ++ [LF] ++ str "another line" ++ [LF]
            ++ str "and a third") = manual.
Proof. reflexivity. Qed.

End ClassifierProofs.

(** ** Change tracker *)

Module TrackerProofs.
Import Js Types Tracker.

Ltac unfold_monad :=
  unfold bind, modify, ret, try_catch, await, throw in *.

(** *** Reading the heap after a write *)

Lemma lookup_write_status r st s c :
  heap s !! r = Some c ->
  heap (write_status r st s) !! r = Some (with_status st c).
Proof.
  intros H. unfold write_status. rewrite H. cbn.
  apply list_lookup_insert_eq. eapply lookup_lt_Some; eauto.
Qed.

Lemma lookup_write_status_ne r r' st s :
  r <> r' -> heap (write_status r st s) !! r' = heap s !! r'.
Proof.
  intros H. unfold write_status.
  destruct (heap s !! r); [|reflexivity]. cbn.
  now apply list_lookup_insert_ne.
Qed.

Lemma lookup_update_change r f s c :
  heap s !! r = Some c ->
  heap (update_change r f s) !! r = Some (f c).
Proof.
  intros H. unfold update_change. rewrite H. cbn.
  apply list_lookup_insert_eq. eapply lookup_lt_Some; eauto.
Qed.

Lemma lookup_update_change_ne r r' f s :
  r <> r' -> heap (update_change r f s) !! r' = heap s !! r'.
Proof.
  intros H. unfold update_change.
  destruct (heap s !! r); [|reflexivity]. cbn.
  now apply list_lookup_insert_ne.
Qed.

Lemma heap_notifyChangeListeners r s :
  heap (notifyChangeListeners r s) = heap s.
Proof. unfold notifyChangeListeners. now destruct (heap s !! r). Qed.

Lemma heap_notifyJournalListeners s :
  heap (notifyJournalListeners s) = heap s.
Proof. unfold notifyJournalListeners. now destruct (currentJournal s). Qed.

Lemma eligible_Some changeId s r :
  eligible changeId s = Some r <->
  exists c, map_get changeId (changes s) = Some r /\ heap s !! r = Some c
            /\ (status c = pending \/ status c = error).
Proof.
  unfold eligible. split.
  - destruct (map_get changeId (changes s)) as [r'|]; [|discriminate].
    destruct (heap s !! r') as [c|] eqn:Hc; [|discriminate].
    destruct (status c) eqn:Hst; try discriminate;
      intros [= <-]; exists c; rewrite Hst; auto.
  - intros (c & -> & -> & [-> | ->]); reflexivity.
Qed.

Lemma eligible_None changeId s :
  eligible changeId s = None <->
  (map_get changeId (changes s) = None
   \/ exists r, map_get changeId (changes s) = Some r
        /\ (heap s !! r = None
            \/ exists c, heap s !! r = Some c
                 /\ (status c = explaining \/ status c = explained))).
Proof.
  unfold eligible. split.
  - destruct (map_get changeId (changes s)) as [r|]; [|auto].
    intros H. right. exists r. split; [reflexivity|].
    destruct (heap s !! r) as [c|]; [|auto].
    right. exists c. split; [reflexivity|].
    destruct (status c); try discriminate; auto.
  - intros [-> | (r & -> & [-> | (c & -> & [-> | ->])])]; reflexivity.
Qed.

(** *** The sequential reading and the reading cut at the [await] agree *)

Lemma explainChange_cut changeId gen s :
  explainChange changeId gen s =
    match explainChange_begin changeId s with
    | (s', Awaiting r req) =>
        (explainChange_settle r (gen req) s', Returned tt)
    | (s', _) => (s', Returned tt)
    end.
Proof.
  unfold explainChange, explainChange_begin, explainChange_settle.
  destruct (eligible changeId s) as [r|]; [|reflexivity].
  unfold explain_prelude, explain_finish, explain_catch, explain_epilogue.
  unfold_monad. cbn.
  rewrite !heap_notifyChangeListeners.
  destruct (workspaceFolders _); [|reflexivity].
  destruct (heap (write_status r explaining s) !! r); [|reflexivity].
  cbn. destruct (gen _); reflexivity.
Qed.

(** *** Counting generator calls *)

Lemma generator_calls_app tr1 tr2 :
  generator_calls (tr1 ++ tr2) = generator_calls tr1 + generator_calls tr2.
Proof. unfold generator_calls. now rewrite List.filter_app, length_app. Qed.

Lemma generator_calls_notifyChange r s :
  generator_calls (trace (notifyChangeListeners r s))
  = generator_calls (trace s).
Proof.
  unfold notifyChangeListeners. destruct (heap s !! r); [|reflexivity].
  cbn [trace emit]. rewrite generator_calls_app. cbn. lia.
Qed.

Lemma generator_calls_notifyJournal s :
  generator_calls (trace (notifyJournalListeners s))
  = generator_calls (trace s).
Proof.
  unfold notifyJournalListeners. destruct (currentJournal s); [|reflexivity].
  cbn [trace emit]. rewrite generator_calls_app. cbn. lia.
Qed.

Lemma generator_calls_write_status r st s :
  generator_calls (trace (write_status r st s)) = generator_calls (trace s).
Proof.
  unfold write_status. destruct (heap s !! r); [|reflexivity].
  cbn [trace emit set_heap]. rewrite generator_calls_app. cbn. lia.
Qed.

Lemma trace_update_change r f s : trace (update_change r f s) = trace s.
Proof. unfold update_change. now destruct (heap s !! r). Qed.

Lemma in_trace_emit o o' s : In o (trace s) -> In o (trace (emit o' s)).
Proof. intros H. cbn [trace emit]. apply in_app_iff. auto. Qed.

Lemma in_trace_notifyChange o r s :
  In o (trace s) -> In o (trace (notifyChangeListeners r s)).
Proof.
  intros H. unfold notifyChangeListeners.
  destruct (heap s !! r); [now apply in_trace_emit | exact H].
Qed.

Lemma in_trace_notifyJournal o s :
  In o (trace s) -> In o (trace (notifyJournalListeners s)).
Proof.
  intros H. unfold notifyJournalListeners.
  destruct (currentJournal s); [now apply in_trace_emit | exact H].
Qed.

Lemma in_trace_write_status o r st s :
  In o (trace s) -> In o (trace (write_status r st s)).
Proof.
  intros H. unfold write_status.
  destruct (heap s !! r); [now apply in_trace_emit | exact H].
Qed.

(** *** explainChange *)

(** C3.  [explainChange] never throws.  For an identifier that is not in the
    map, or whose change is [explaining] or [explained], it changes nothing
    (in particular it neither notifies nor calls the generator).  A change
    in [error] (or [pending]) status is taken up: its status is set to
    [explaining], the generator is called once with the change's code, and
    the status ends as [explained] with the explanation when the generator
    answers, as [error] with the explanation field untouched when it
    fails.  Without a workspace folder the change goes to [error] and the
    generator is not called. *)
Theorem explainChange_contract (changeId : list N)
  (gen : LLMRequest -> outcome LLMResponse) (s : state) :
  snd (explainChange changeId gen s) = Returned tt
  /\ ((map_get changeId (changes s) = None
       \/ exists r c, map_get changeId (changes s) = Some r
            /\ heap s !! r = Some c
            /\ (status c = explaining \/ status c = explained))
      -> explainChange changeId gen s = (s, Returned tt)
         /\ explainChange_begin changeId s = (s, Skipped))
  /\ (forall r c,
        map_get changeId (changes s) = Some r ->
        heap s !! r = Some c ->
        status c = error \/ status c = pending ->
        workspaceFolders s = true ->
        let s' := fst (explainChange changeId gen s) in
        In (StatusWritten r (status c) explaining) (trace s')
        /\ In (GeneratorCalled (explain_request c)) (trace s')
        /\ generator_calls (trace s') = S (generator_calls (trace s))
        /\ match gen (explain_request c) with
           | Returned response =>
               heap s' !! r =
                 Some (with_status explained
                         (with_explanation (resp_explanation response) c))
           | Thrown _ => heap s' !! r = Some (with_status error c)
           end)
  /\ (forall r c,
        map_get changeId (changes s) = Some r ->
        heap s !! r = Some c ->
        status c = error \/ status c = pending ->
        workspaceFolders s = false ->
        let s' := fst (explainChange changeId gen s) in
        heap s' !! r = Some (with_status error c)
        /\ generator_calls (trace s') = generator_calls (trace s)).
Proof.
  split; [|split; [|split]].
  4:{ intros r c Hm Hc Hst Hws s'. subst s'.
      assert (eligible changeId s = Some r) as He.
      { apply eligible_Some. exists c. tauto. }
      unfold explainChange. rewrite He.
      unfold explain_prelude, explain_finish, explain_catch, explain_epilogue.
      unfold_monad. cbn.
      replace (workspaceFolders _) with false
        by (unfold notifyChangeListeners, write_status; rewrite Hc; cbn;
            rewrite list_lookup_insert_eq by (eapply lookup_lt_Some; eauto);
            cbn; congruence).
      cbn. rewrite heap_notifyJournalListeners, heap_notifyChangeListeners.
      rewrite generator_calls_notifyJournal, generator_calls_notifyChange,
        generator_calls_write_status.
      split.
      - rewrite (lookup_write_status r error _ (with_status explaining c));
          [reflexivity|].
        change (heap (emit ?o ?x)) with (heap x).
        rewrite heap_notifyChangeListeners. now apply lookup_write_status.
      - change (trace (emit ErrorLogged ?x)) with (trace x ++ [ErrorLogged]).
        rewrite generator_calls_app, generator_calls_notifyChange,
          generator_calls_write_status. cbn. lia. }
  - rewrite explainChange_cut.
    destruct (explainChange_begin changeId s) as [s' []]; reflexivity.
  - intros H.
    assert (eligible changeId s = None) as He.
    { apply eligible_None. destruct H as [H | (r & c & H1 & H2 & H3)]; eauto 8. }
    unfold explainChange, explainChange_begin. rewrite He. auto.
  - intros r c Hm Hc Hst Hws s'. subst s'.
    assert (eligible changeId s = Some r) as He.
    { apply eligible_Some. exists c. tauto. }
    unfold explainChange. rewrite He.
    unfold explain_prelude, explain_finish, explain_catch, explain_epilogue.
    unfold_monad. cbn.
    rewrite !heap_notifyChangeListeners, (lookup_write_status _ _ _ _ Hc).
    replace (workspaceFolders _) with true
      by (unfold notifyChangeListeners, write_status; rewrite Hc; cbn;
          rewrite list_lookup_insert_eq by (eapply lookup_lt_Some; eauto);
          cbn; congruence).
    set (s1 := notifyChangeListeners r (write_status r explaining s)).
    assert (In (StatusWritten r (status c) explaining) (trace s1)) as Hw.
    { unfold s1, notifyChangeListeners.
      rewrite (lookup_write_status _ _ _ _ Hc). unfold write_status.
      rewrite Hc. cbn. rewrite !in_app_iff. cbn. auto. }
    assert (generator_calls (trace s1) = generator_calls (trace s)) as Hg.
    { unfold s1. now rewrite generator_calls_notifyChange,
        generator_calls_write_status. }
    assert (heap s1 !! r = Some (with_status explaining c)) as H1.
    { unfold s1. rewrite heap_notifyChangeListeners.
      now apply lookup_write_status. }
    change (explain_request (with_status explaining c))
      with (explain_request c).
    set (s2 := emit (GeneratorCalled (explain_request c)) s1).
    assert (heap s2 !! r = Some (with_status explaining c)) as H2 by exact H1.
    destruct (gen (explain_request c)) as [response | e]; cbn.
    + rewrite heap_notifyJournalListeners, heap_notifyChangeListeners.
      rewrite generator_calls_notifyJournal, generator_calls_notifyChange,
        generator_calls_write_status, trace_update_change.
      split; [|split; [|split]].
      * apply in_trace_notifyJournal, in_trace_notifyChange,
          in_trace_write_status. rewrite trace_update_change.
        now apply in_trace_emit.
      * apply in_trace_notifyJournal, in_trace_notifyChange,
          in_trace_write_status. rewrite trace_update_change.
        unfold s2. cbn [trace emit]. apply in_app_iff. cbn. auto.
      * unfold s2. cbn [trace emit]. rewrite generator_calls_app, Hg.
        cbn. lia.
      * erewrite lookup_write_status
          by (apply lookup_update_change; exact H2).
        reflexivity.
    + rewrite heap_notifyJournalListeners, heap_notifyChangeListeners.
      rewrite generator_calls_notifyJournal, generator_calls_notifyChange,
        generator_calls_write_status.
      split; [|split; [|split]].
      * apply in_trace_notifyJournal, in_trace_notifyChange,
          in_trace_write_status, in_trace_emit, in_trace_emit. exact Hw.
      * apply in_trace_notifyJournal, in_trace_notifyChange,
          in_trace_write_status, in_trace_emit.
        unfold s2. cbn [trace emit]. apply in_app_iff. cbn. auto.
      * unfold s2. cbn [trace emit]. rewrite !generator_calls_app, Hg.
        cbn. lia.
      * erewrite lookup_write_status by exact H2. reflexivity.
Qed.

(** *** Status transitions *)

Lemma allowed_path a b :
  rtc allowed a b ->
  (a = explained -> b = explained) /\ (b = pending -> a = pending).
Proof.
  induction 1 as [|a b c Hab _ [IH1 IH2]]; [auto|].
  split; intros ->.
  - inversion Hab.
  - specialize (IH2 eq_refl). subst b. inversion Hab.
Qed.

Lemma moves_refl s : moves s s.
Proof. intros r c H. exists c. split; [exact H | reflexivity]. Qed.

Lemma moves_trans s1 s2 s3 : moves s1 s2 -> moves s2 s3 -> moves s1 s3.
Proof.
  intros H12 H23 r c H.
  destruct (H12 r c H) as (c2 & H2 & Hp2).
  destruct (H23 r c2 H2) as (c3 & H3 & Hp3).
  exists c3. split; [exact H3 | etransitivity; eassumption].
Qed.

Lemma moves_same_heap s s' : heap s' = heap s -> moves s s'.
Proof. intros E r c H. exists c. rewrite E. split; [exact H | reflexivity]. Qed.

Lemma moves_write_status r st s c :
  heap s !! r = Some c -> allowed (status c) st ->
  moves s (write_status r st s).
Proof.
  intros Hc Ha r' c' H'. destruct (decide (r = r')) as [<- | Hne].
  - exists (with_status st c). split; [now apply lookup_write_status|].
    rewrite Hc in H'. injection H' as <-. now apply rtc_once.
  - exists c'. rewrite lookup_write_status_ne by exact Hne.
    split; [exact H' | reflexivity].
Qed.

Lemma moves_update_explanation r e s :
  moves s (update_change r (with_explanation e) s).
Proof.
  intros r' c' H'. destruct (decide (r = r')) as [<- | Hne].
  - exists (with_explanation e c').
    split; [now apply lookup_update_change | reflexivity].
  - exists c'. rewrite lookup_update_change_ne by exact Hne.
    split; [exact H' | reflexivity].
Qed.

(** *** The invariant under the primitive operations *)

Lemma invariant_same s s' :
  heap s' = heap s -> inflight s' = inflight s ->
  (forall o, In o (trace s') ->
     In o (trace s) \/ forall r a b, o <> StatusWritten r a b) ->
  invariant s -> invariant s'.
Proof.
  intros Hh Hi Ht (I1 & I2 & I3). unfold invariant, inflight_explaining,
    writes_allowed, task_refs in *. rewrite Hh, Hi.
  split; [exact I1|]. split; [exact I2|].
  intros r a b Hin. destruct (Ht _ Hin) as [H | H]; [eauto|].
  now destruct (H r a b).
Qed.

Lemma invariant_emit o s :
  (forall r a b, o <> StatusWritten r a b) ->
  invariant s -> invariant (emit o s).
Proof.
  intros Ho. apply invariant_same; [reflexivity..|].
  intros o' Hin. cbn [trace emit] in Hin. apply in_app_iff in Hin as [H|H];
    [auto|]. right. destruct H as [<- | []]. exact Ho.
Qed.

Lemma invariant_notifyChange r s :
  invariant s -> invariant (notifyChangeListeners r s).
Proof.
  unfold notifyChangeListeners. destruct (heap s !! r); [|auto].
  apply invariant_emit. discriminate.
Qed.

Lemma invariant_notifyJournal s :
  invariant s -> invariant (notifyJournalListeners s).
Proof.
  unfold notifyJournalListeners. destruct (currentJournal s); [|auto].
  apply invariant_emit. discriminate.
Qed.

Lemma task_refs_write_status r st s :
  task_refs (write_status r st s) = task_refs s.
Proof.
  unfold task_refs, write_status. now destruct (heap s !! r).
Qed.

Lemma invariant_write_status r st s c :
  heap s !! r = Some c -> allowed (status c) st ->
  ~ In r (task_refs s) ->
  invariant s -> invariant (write_status r st s).
Proof.
  intros Hc Ha Hr (I1 & I2 & I3). split; [|split].
  - intros r' Hin. rewrite task_refs_write_status in Hin.
    assert (r <> r') as Hne by (intros ->; exact (Hr Hin)).
    rewrite lookup_write_status_ne by exact Hne. now apply I1.
  - now rewrite task_refs_write_status.
  - intros r' a b Hin. unfold write_status in Hin. rewrite Hc in Hin.
    cbn [trace emit set_heap] in Hin.
    apply in_app_iff in Hin as [H | [[= <- <- <-] | []]]; eauto.
Qed.

Lemma invariant_update_explanation r e s :
  invariant s -> invariant (update_change r (with_explanation e) s).
Proof.
  intros (I1 & I2 & I3). unfold update_change.
  destruct (heap s !! r) as [c|] eqn:Hc; [|now repeat split].
  split; [|split]; [|exact I2|exact I3].
  intros r' Hin. destruct (I1 r' Hin) as (c' & Hc' & Hst).
  cbn [heap set_heap]. destruct (decide (r = r')) as [<- | Hne].
  - exists (with_explanation e c).
    rewrite list_lookup_insert_eq by (eapply lookup_lt_Some; eauto).
    split; [reflexivity|]. rewrite Hc in Hc'. now injection Hc' as <-.
  - exists c'. now rewrite list_lookup_insert_ne.
Qed.

Lemma heap_length_write_status r st s :
  length (heap (write_status r st s)) = length (heap s).
Proof.
  unfold write_status. destruct (heap s !! r); [|reflexivity].
  cbn. apply length_insert.
Qed.

Lemma heap_length_update_change r f s :
  length (heap (update_change r f s)) = length (heap s).
Proof.
  unfold update_change. destruct (heap s !! r); [|reflexivity].
  cbn. apply length_insert.
Qed.

Lemma inflight_write_status r st s :
  inflight (write_status r st s) = inflight s.
Proof. unfold write_status. now destruct (heap s !! r). Qed.

Lemma inflight_update_change r f s :
  inflight (update_change r f s) = inflight s.
Proof. unfold update_change. now destruct (heap s !! r). Qed.

Lemma inflight_notifyChange r s :
  inflight (notifyChangeListeners r s) = inflight s.
Proof. unfold notifyChangeListeners. now destruct (heap s !! r). Qed.

Lemma inflight_notifyJournal s :
  inflight (notifyJournalListeners s) = inflight s.
Proof. unfold notifyJournalListeners. now destruct (currentJournal s). Qed.

(** *** Operations that leave records, suspended calls and history alone *)

Lemma core_fold_left {A} (f : state -> A -> state) l s :
  (forall s x, core (f s x) = core s) ->
  core (fold_left f l s) = core s.
Proof.
  intros Hf. revert s. induction l as [|x l IH]; intros s; [reflexivity|].
  cbn [fold_left]. now rewrite IH, Hf.
Qed.

Lemma core_foldr {A} (f : A -> state -> state) l s :
  (forall s x, core (f x s) = core s) ->
  core (foldr f s l) = core s.
Proof.
  intros Hf. induction l as [|x l IH]; [reflexivity|].
  cbn [foldr]. now rewrite Hf, IH.
Qed.

Lemma core_startTracking now newid s :
  core (startTracking now newid s) = core s.
Proof. unfold startTracking. now destruct (isTracking s). Qed.

Lemma core_dispose h s : core (dispose h s) = core s.
Proof. reflexivity. Qed.

Lemma core_stopTracking now s : core (fst (stopTracking now s)) = core s.
Proof.
  unfold stopTracking. destruct (isTracking s); [|reflexivity]. cbn [negb].
  match goal with
  | |- core (fst (match currentJournal ?x with _ => _ end)) = _ =>
      assert (core x = core s) as E
  end.
  { change (core (set_pendingChanges ?v ?x)) with (core x).
    rewrite core_foldr by reflexivity.
    change (core (set_fileWatchers ?v ?x)) with (core x).
    rewrite core_fold_left by reflexivity.
    now destruct (documentChangeListener _). }
  match goal with
  | |- core (fst (match currentJournal ?x with _ => _ end)) = _ =>
      destruct (currentJournal x)
  end; exact E.
Qed.

Lemma core_schedule doc ch now s : core (schedule doc ch now s) = core s.
Proof.
  unfold schedule. now destruct (pendingChanges s !! _).
Qed.

Lemma core_handleDocumentChange ev now s :
  core (handleDocumentChange ev now s) = core s.
Proof.
  unfold handleDocumentChange.
  destruct (negb _); [reflexivity|].
  destruct (_ =? 0); [reflexivity|].
  destruct (shouldIgnoreFile _); [reflexivity|].
  apply core_fold_left. intros s' ch.
  destruct (skipped ch); [reflexivity | apply core_schedule].
Qed.

Lemma core_clear s : core (clear s) = core s.
Proof. unfold clear. now destruct (currentJournal _). Qed.

Lemma proceeds_refl s : invariant s -> proceeds s s.
Proof. intros H. split; [exact H|]. split; [apply moves_refl | reflexivity]. Qed.

Lemma proceeds_trans s1 s2 s3 :
  proceeds s1 s2 -> proceeds s2 s3 -> proceeds s1 s3.
Proof.
  intros (_ & M12 & L12) (I3 & M23 & L23).
  split; [exact I3|]. split; [eapply moves_trans; eauto | congruence].
Qed.

Lemma proceeds_core s s' : core s' = core s -> invariant s -> proceeds s s'.
Proof.
  unfold core. intros [= Hh Hi Ht] I. split; [|split].
  - apply (invariant_same s s' Hh Hi); [|exact I].
    intros o Ho. left. now rewrite <- Ht.
  - now apply moves_same_heap.
  - now rewrite Hh.
Qed.

(** *** explainChange, cut at its await *)

Lemma explain_catch_eq r e s :
  explain_catch r e s = (write_status r error (emit ErrorLogged s), Returned tt).
Proof. reflexivity. Qed.

Lemma explain_epilogue_eq r s :
  explain_epilogue r s
  = (notifyJournalListeners (notifyChangeListeners r s), Returned tt).
Proof. reflexivity. Qed.

Lemma not_inflight s r c :
  invariant s -> heap s !! r = Some c -> status c <> explaining ->
  ~ In r (task_refs s).
Proof.
  intros (I1 & _) Hc Hst Hin. destruct (I1 r Hin) as (c' & Hc' & Hst').
  congruence.
Qed.

Lemma proceeds_write_status r st s c :
  invariant s -> heap s !! r = Some c -> allowed (status c) st ->
  ~ In r (task_refs s) ->
  proceeds s (write_status r st s).
Proof.
  intros I Hc Ha Hr. split; [|split].
  - eapply invariant_write_status; eauto.
  - eapply moves_write_status; eauto.
  - apply heap_length_write_status.
Qed.

Lemma proceeds_emit o s :
  (forall r a b, o <> StatusWritten r a b) ->
  invariant s -> proceeds s (emit o s).
Proof.
  intros Ho I. split; [now apply invariant_emit|].
  split; [now apply moves_same_heap | reflexivity].
Qed.

Lemma proceeds_notifyChange r s :
  invariant s -> proceeds s (notifyChangeListeners r s).
Proof.
  intros I. split; [now apply invariant_notifyChange|].
  split; [apply moves_same_heap, heap_notifyChangeListeners|].
  now rewrite heap_notifyChangeListeners.
Qed.

Lemma proceeds_notifyJournal s :
  invariant s -> proceeds s (notifyJournalListeners s).
Proof.
  intros I. split; [now apply invariant_notifyJournal|].
  split; [apply moves_same_heap, heap_notifyJournalListeners|].
  now rewrite heap_notifyJournalListeners.
Qed.

Lemma proceeds_update_explanation r e s :
  invariant s -> proceeds s (update_change r (with_explanation e) s).
Proof.
  intros I. split; [now apply invariant_update_explanation|].
  split; [apply moves_update_explanation | apply heap_length_update_change].
Qed.

Lemma proceeds_invariant s s' : proceeds s s' -> invariant s'.
Proof. now intros [H _]. Qed.

(** A change that has just failed is out of the set of suspended calls. *)
Lemma proceeds_fail r s c :
  invariant s -> heap s !! r = Some c -> status c = explaining ->
  ~ In r (task_refs s) ->
  proceeds s
    (notifyJournalListeners
       (notifyChangeListeners r (write_status r error (emit ErrorLogged s)))).
Proof.
  intros I Hc Hst Hr.
  assert (proceeds s (emit ErrorLogged s)) as P1
    by (apply proceeds_emit; [discriminate | exact I]).
  assert (proceeds (emit ErrorLogged s)
            (write_status r error (emit ErrorLogged s))) as P2.
  { eapply proceeds_write_status; [exact (proceeds_invariant _ _ P1)|..].
    - exact Hc.
    - rewrite Hst. constructor.
    - exact Hr. }
  eapply proceeds_trans; [exact P1|].
  eapply proceeds_trans; [exact P2|].
  eapply proceeds_trans;
    [apply proceeds_notifyChange, (proceeds_invariant _ _ P2)|].
  apply proceeds_notifyJournal, invariant_notifyChange,
    (proceeds_invariant _ _ P2).
Qed.

Lemma explainChange_begin_proceeds changeId s :
  invariant s ->
  let '(s', b) := explainChange_begin changeId s in
  proceeds s s' /\ inflight s' = inflight s
  /\ match b with
     | Awaiting r _ =>
         (exists c, heap s' !! r = Some c /\ status c = explaining)
         /\ ~ In r (task_refs s')
     | _ => True
     end.
Proof.
  intros I. unfold explainChange_begin.
  destruct (eligible changeId s) as [r|] eqn:He.
  2:{ split; [now apply proceeds_refl | auto]. }
  apply eligible_Some in He as (c & _ & Hc & Hst).
  assert (~ In r (task_refs s)) as Hr.
  { eapply not_inflight; eauto. destruct Hst as [-> | ->]; discriminate. }
  assert (proceeds s (write_status r explaining s)) as P1.
  { eapply proceeds_write_status; eauto.
    destruct Hst as [-> | ->]; constructor. }
  set (s1 := write_status r explaining s) in *.
  assert (heap s1 !! r = Some (with_status explaining c)) as H1
    by now apply lookup_write_status.
  assert (proceeds s1 (notifyChangeListeners r s1)) as P2
    by apply proceeds_notifyChange, (proceeds_invariant _ _ P1).
  set (s2 := notifyChangeListeners r s1) in *.
  assert (heap s2 !! r = Some (with_status explaining c)) as H2
    by (unfold s2; now rewrite heap_notifyChangeListeners).
  assert (inflight s2 = inflight s) as Hi2
    by (unfold s2, s1; now rewrite inflight_notifyChange,
          inflight_write_status).
  assert (~ In r (task_refs s2)) as Hr2
    by (unfold task_refs in *; now rewrite Hi2).
  unfold explain_prelude. rewrite H2.
  destruct (workspaceFolders s2).
  - split; [|split; [exact Hi2|]].
    + eapply proceeds_trans; [exact P1|].
      eapply proceeds_trans; [exact P2|].
      apply proceeds_emit; [discriminate | exact (proceeds_invariant _ _ P2)].
    + split; [|exact Hr2]. exists (with_status explaining c). split; auto.
  - rewrite explain_catch_eq, explain_epilogue_eq. cbn [fst].
    split; [|split; [|exact Logic.I]].
    + eapply proceeds_trans; [exact P1|].
      eapply proceeds_trans; [exact P2|].
      eapply proceeds_fail; try exact H2; auto.
      exact (proceeds_invariant _ _ P2).
    + rewrite inflight_notifyJournal, inflight_notifyChange,
        inflight_write_status. exact Hi2.
Qed.

Lemma explainChange_settle_proceeds r res s c :
  invariant s -> heap s !! r = Some c -> status c = explaining ->
  ~ In r (task_refs s) ->
  let s' := explainChange_settle r res s in
  proceeds s s' /\ inflight s' = inflight s.
Proof.
  intros I Hc Hst Hr. unfold explainChange_settle, explain_finish.
  unfold_monad. destruct res as [response | e]; cbn [fst].
  - unfold explain_epilogue. unfold_monad. cbn [fst].
    set (s1 := update_change r (with_explanation (resp_explanation response)) s).
    assert (proceeds s s1) as P1 by now apply proceeds_update_explanation.
    assert (heap s1 !! r
            = Some (with_explanation (resp_explanation response) c)) as H1
      by now apply lookup_update_change.
    assert (~ In r (task_refs s1)) as Hr1
      by (unfold task_refs, s1; now rewrite inflight_update_change).
    assert (proceeds s1 (write_status r explained s1)) as P2.
    { eapply proceeds_write_status; eauto using proceeds_invariant.
      cbn. rewrite Hst. constructor. }
    split.
    + eapply proceeds_trans; [exact P1|].
      eapply proceeds_trans; [exact P2|].
      eapply proceeds_trans;
        [apply proceeds_notifyChange, (proceeds_invariant _ _ P2)|].
      apply proceeds_notifyJournal, invariant_notifyChange,
        (proceeds_invariant _ _ P2).
    + rewrite inflight_notifyJournal, inflight_notifyChange,
        inflight_write_status. apply inflight_update_change.
  - rewrite explain_catch_eq, explain_epilogue_eq. cbn [fst]. split.
    + eapply proceeds_fail; eauto.
    + now rewrite inflight_notifyJournal, inflight_notifyChange,
        inflight_write_status.
Qed.

(** *** The loop over identifiers and the settling of a promise *)

Lemma task_refs_app s l :
  task_refs (set_inflight (inflight s ++ l) s)
  = task_refs s ++ omap task_ref l.
Proof. unfold task_refs. cbn [inflight set_inflight]. apply omap_app. Qed.

Lemma invariant_park_waiting r rest s c :
  invariant s -> heap s !! r = Some c -> status c = explaining ->
  ~ In r (task_refs s) ->
  invariant (park (Some (Waiting r rest)) s).
Proof.
  intros (I1 & I2 & I3) Hc Hst Hr. cbn [park].
  split; [|split]; [| |exact I3].
  - intros r' Hin. rewrite task_refs_app in Hin. cbn in Hin.
    apply in_app_iff in Hin as [Hin | [<- | []]].
    + now apply I1.
    + exists c. auto.
  - rewrite task_refs_app. cbn. apply NoDup_app. split; [exact I2|].
    split; [|repeat constructor; intros []%elem_of_nil].
    intros x Hx [->|[]%elem_of_nil]%elem_of_cons.
    apply Hr. now apply list_elem_of_In.
Qed.

Lemma park_looping rest s :
  invariant s ->
  invariant (park (Some (Looping rest)) s)
  /\ core' (park (Some (Looping rest)) s) = core' s.
Proof.
  intros (I1 & I2 & I3). destruct rest as [|x rest]; [now repeat split|].
  cbn [park]. split; [|reflexivity]. split; [|split]; [| |exact I3].
  - intros r Hin. rewrite task_refs_app in Hin. cbn in Hin.
    rewrite app_nil_r in Hin. now apply I1.
  - rewrite task_refs_app. cbn. now rewrite app_nil_r.
Qed.

Lemma proceeds_core' s s' :
  core' s' = core' s -> invariant s' -> invariant s -> proceeds s s'.
Proof.
  unfold core'. intros [= Hh Ht] I' I. split; [exact I'|]. split.
  - now apply moves_same_heap.
  - now rewrite Hh.
Qed.

Lemma spawn_proceeds ids s : invariant s -> proceeds s (spawn ids s).
Proof.
  intros I. unfold spawn, loop_turn. destruct ids as [|changeId rest].
  { now apply proceeds_refl. }
  pose proof (explainChange_begin_proceeds changeId s I) as Hb.
  destruct (explainChange_begin changeId s) as [s' b].
  destruct Hb as (P & Hi & Hb).
  pose proof (proceeds_invariant _ _ P) as I'.
  eapply proceeds_trans; [exact P|].
  destruct b as [| |r req].
  - destruct (park_looping rest s' I') as [Ip Hc].
    now apply proceeds_core'.
  - destruct (park_looping rest s' I') as [Ip Hc].
    now apply proceeds_core'.
  - destruct Hb as ((c & Hc & Hst) & Hr).
    apply proceeds_core'; [reflexivity| |exact I'].
    eapply invariant_park_waiting; eauto.
Qed.

(** Taking a suspended call out of the list. *)
Lemma invariant_resume n t s :
  invariant s -> inflight s !! n = Some t ->
  let s' := set_inflight (delete n (inflight s)) s in
  invariant s'
  /\ match t with
     | Waiting r _ =>
         (exists c, heap s' !! r = Some c /\ status c = explaining)
         /\ ~ In r (task_refs s')
     | Looping _ => True
     end.
Proof.
  intros (I1 & I2 & I3) Hn. cbn zeta.
  pose proof (take_drop_middle _ _ _ Hn) as Hsplit.
  unfold inflight_explaining, writes_allowed, task_refs in *.
  cbn [inflight set_inflight heap trace].
  rewrite delete_take_drop. rewrite <- Hsplit in I1, I2.
  rewrite omap_app in I1, I2. rewrite omap_app.
  cbn [omap list_omap] in I1, I2.
  destruct t as [r rest | rest]; cbn [task_ref] in I1, I2.
  - apply NoDup_ListNoDup, List.NoDup_remove in I2 as [I2 Hnot].
    split; [split; [|split]|split].
    + intros r' Hin. apply I1. unfold task_refs in Hin.
      cbn [inflight set_inflight] in Hin. rewrite ?omap_app in Hin.
      rewrite in_app_iff in Hin |- *. cbn. destruct Hin; auto.
    + unfold task_refs. cbn [inflight set_inflight]. rewrite ?omap_app.
      now apply NoDup_ListNoDup.
    + exact I3.
    + apply I1. rewrite in_app_iff. cbn. auto.
    + exact Hnot.
  - split; [|exact Logic.I]. split; [|split]; [| |exact I3].
    + intros r' Hin. apply I1. unfold task_refs in Hin.
      cbn [inflight set_inflight] in Hin. rewrite ?omap_app in Hin.
      exact Hin.
    + unfold task_refs. cbn [inflight set_inflight]. rewrite ?omap_app.
      exact I2.
Qed.

Lemma settle_proceeds n res s : invariant s -> proceeds s (settle n res s).
Proof.
  intros I. unfold settle. destruct (inflight s !! n) as [t|] eqn:Hn.
  2:{ now apply proceeds_refl. }
  destruct t as [r rest | rest]; [|now apply proceeds_refl].
  destruct (invariant_resume n _ s I Hn) as (I' & (c & Hc & Hst) & Hr).
  set (s1 := set_inflight (delete n (inflight s)) s) in *.
  destruct (explainChange_settle_proceeds r res s1 c I' Hc Hst Hr) as [P _].
  apply proceeds_trans with s1.
  { apply proceeds_core'; [reflexivity | exact I' | exact I]. }
  eapply proceeds_trans; [exact P|].
  pose proof (proceeds_invariant _ _ P) as I2.
  destruct (park_looping rest _ I2) as [Ip Hcore].
  now apply proceeds_core'.
Qed.

Lemma continue_proceeds n s : invariant s -> proceeds s (continue n s).
Proof.
  intros I. unfold continue. destruct (inflight s !! n) as [t|] eqn:Hn.
  2:{ now apply proceeds_refl. }
  destruct t as [r rest | ids]; [now apply proceeds_refl|].
  destruct (invariant_resume n _ s I Hn) as (I' & _).
  set (s1 := set_inflight (delete n (inflight s)) s) in *.
  apply proceeds_trans with s1.
  { apply proceeds_core'; [reflexivity | exact I' | exact I]. }
  now apply spawn_proceeds.
Qed.

(** *** A timer that comes due *)

Lemma processChange_heap doc ch now newid s :
  exists c,
    heap (processChange doc ch now newid s) = heap s ++ [c]
    /\ status c = pending /\ code c = text ch /\ explanation c = None
    /\ id c = newid /\ timestamp c = now
    /\ source c = Some (classify (text ch)).
Proof.
  unfold processChange.
  rewrite heap_notifyJournalListeners, heap_notifyChangeListeners.
  eexists. split.
  - destruct (currentJournal _); reflexivity.
  - repeat split.
Qed.

Lemma processChange_invariant doc ch now newid s :
  invariant s ->
  invariant (processChange doc ch now newid s) /\
  moves s (processChange doc ch now newid s).
Proof.
  intros (I1 & I2 & I3).
  destruct (processChange_heap doc ch now newid s) as (c & Hh & _).
  assert (inflight (processChange doc ch now newid s) = inflight s) as Hi.
  { unfold processChange.
    rewrite inflight_notifyJournal, inflight_notifyChange.
    now destruct (currentJournal _). }
  split; [split; [|split]|].
  - intros r Hin. unfold task_refs in Hin. rewrite Hi in Hin.
    destruct (I1 r Hin) as (c' & Hc' & Hst). exists c'. split; [|exact Hst].
    rewrite Hh. rewrite lookup_app_l; [exact Hc'|].
    eapply lookup_lt_Some; eauto.
  - unfold task_refs. now rewrite Hi.
  - intros r a b Hin. apply (I3 r a b).
    unfold processChange, notifyJournalListeners, notifyChangeListeners in Hin.
    repeat match type of Hin with
           | context [match ?x with _ => _ end] => destruct x
           end;
      cbn [trace emit set_currentJournal set_changes set_heap] in Hin;
      repeat (apply in_app_iff in Hin as [Hin | [Hin | []]];
              try discriminate); exact Hin.
  - intros r c' Hc'. exists c'. split; [|reflexivity].
    rewrite Hh. rewrite lookup_app_l; [exact Hc'|].
    eapply lookup_lt_Some; eauto.
Qed.

Lemma timer_fire_invariant h now newid s :
  invariant s ->
  invariant (timer_fire h now newid s) /\ moves s (timer_fire h now newid s).
Proof.
  intros I. unfold timer_fire.
  destruct (timers s !! h) as [t|]; [|split; [exact I | apply moves_refl]].
  destruct (deadline t <=? now)%Z; [|split; [exact I | apply moves_refl]].
  set (s1 := set_timers (delete h (timers s)) s).
  destruct (processChange_invariant (t_document t) (t_change t) now newid s1)
    as [I' M']; [exact I|].
  split; [|exact M'].
  eapply invariant_same; [| | |exact I']; try reflexivity.
  intros o Ho. left. exact Ho.
Qed.

(** New records are born [pending]; only a timer creates records. *)
Lemma timer_fire_new h now newid s r c :
  heap s !! r = None ->
  heap (timer_fire h now newid s) !! r = Some c ->
  status c = pending.
Proof.
  unfold timer_fire. intros Hnone.
  destruct (timers s !! h) as [t|]; [|congruence].
  destruct (deadline t <=? now)%Z; [|congruence].
  cbn [heap set_pendingChanges].
  destruct (processChange_heap (t_document t) (t_change t) now newid
              (set_timers (delete h (timers s)) s))
    as (c' & -> & Hst & _).
  cbn [heap set_timers]. intros H.
  apply lookup_app_Some in H as [H | [_ H]]; [congruence|].
  apply list_lookup_singleton_Some in H as [_ <-]. exact Hst.
Qed.

(** *** Every event *)

Lemma step_invariant s e :
  invariant s -> invariant (step s e) /\ moves s (step s e).
Proof.
  intros I.
  assert (forall s', proceeds s s' -> invariant s' /\ moves s s') as Hp
    by (intros s' (? & ? & _); auto).
  destruct e as [now newid|now|ev now|doc|h now newid|changeId|n res|n| |b];
    cbn [step].
  - apply Hp, proceeds_core; [apply core_startTracking | exact I].
  - apply Hp, proceeds_core; [apply core_stopTracking | exact I].
  - apply Hp, proceeds_core; [|exact I].
    apply core_fold_left. intros. apply core_handleDocumentChange.
  - apply Hp. generalize (save_listeners s) as l. intros l. revert s I Hp.
    induction l as [|x l IH]; intros s I Hp; [now apply proceeds_refl|].
    cbn [fold_left].
    assert (proceeds s (handleFileSave doc s)) as P
      by now apply spawn_proceeds.
    eapply proceeds_trans; [exact P|].
    apply IH; [exact (proceeds_invariant _ _ P)|].
    intros s' (? & ? & _); auto.
  - now apply timer_fire_invariant.
  - apply Hp. now apply spawn_proceeds.
  - apply Hp. now apply settle_proceeds.
  - apply Hp. now apply continue_proceeds.
  - apply Hp, proceeds_core; [apply core_clear | exact I].
  - apply Hp, proceeds_core; [reflexivity | exact I].
Qed.

Lemma step_heap_length s e :
  (forall h now newid, e <> EvTimer h now newid) ->
  invariant s -> length (heap (step s e)) = length (heap s).
Proof.
  intros He I.
  assert (forall s', proceeds s s' -> length (heap s') = length (heap s))
    as Hp by (intros s' (_ & _ & ?); auto).
  destruct e as [now newid|now|ev now|doc|h now newid|changeId|n res|n| |b];
    cbn [step].
  - apply Hp, proceeds_core; [apply core_startTracking | exact I].
  - apply Hp, proceeds_core; [apply core_stopTracking | exact I].
  - apply Hp, proceeds_core; [|exact I].
    apply core_fold_left. intros. apply core_handleDocumentChange.
  - apply Hp. generalize (save_listeners s) as l. intros l. clear Hp.
    revert s I.
    induction l as [|x l IH]; intros s I; [now apply proceeds_refl|].
    cbn [fold_left].
    assert (proceeds s (handleFileSave doc s)) as P
      by now apply spawn_proceeds.
    eapply proceeds_trans; [exact P|].
    apply IH. exact (proceeds_invariant _ _ P).
  - now destruct (He h now newid).
  - apply Hp. now apply spawn_proceeds.
  - apply Hp. now apply settle_proceeds.
  - apply Hp. now apply continue_proceeds.
  - apply Hp, proceeds_core; [apply core_clear | exact I].
  - apply Hp, proceeds_core; [reflexivity | exact I].
Qed.

Lemma invariant_init : invariant init.
Proof.
  split; [|split].
  - intros r [].
  - constructor.
  - intros r a b [].
Qed.

Lemma run_invariant s es :
  invariant s -> invariant (run s es) /\ moves s (run s es).
Proof.
  revert s. induction es as [|e es IH]; intros s I.
  - split; [exact I | apply moves_refl].
  - cbn [run fold_left]. destruct (step_invariant s e I) as [I1 M1].
    destruct (IH _ I1) as [I2 M2].
    split; [exact I2 | eapply moves_trans; eauto].
Qed.

(** C2.  Along every sequence of operations from the initial state: every
    assignment to a status field is one of [pending -> explaining],
    [error -> explaining], [explaining -> explained], [explaining -> error];
    every record stays in the heap and its status only moves along paths of
    such transitions, so that [explained] is final and [pending] is never
    entered again; and a record is [pending] when it is created. *)
Theorem status_progression (es : list event) :
  let s := run init es in
  (forall r a b, In (StatusWritten r a b) (trace s) -> allowed a b)
  /\ (forall es' r c,
        heap s !! r = Some c ->
        exists c',
          heap (run s es') !! r = Some c'
          /\ rtc allowed (status c) (status c')
          /\ (status c = explained -> status c' = explained)
          /\ (status c' = pending -> status c = pending))
  /\ (forall e r c',
        heap s !! r = None -> heap (step s e) !! r = Some c' ->
        status c' = pending).
Proof.
  cbn zeta. destruct (run_invariant init es invariant_init) as [I _].
  split; [|split].
  - apply I.
  - intros es' r c Hc.
    destruct (run_invariant (run init es) es' I) as [_ M].
    destruct (M r c Hc) as (c' & Hc' & Hp). exists c'.
    split; [exact Hc'|]. split; [exact Hp|]. now apply allowed_path.
  - intros e r c' Hnone Hsome.
    destruct e as [now newid|now|ev now|doc|h now newid|changeId|n res|n| |b];
      try (exfalso;
           apply lookup_ge_None in Hnone; apply lookup_lt_Some in Hsome;
           rewrite step_heap_length in Hsome by (discriminate || exact I);
           lia).
    eapply timer_fire_new; eauto.
Qed.

(** *** Debounce *)

Lemma heap_of_core s s' : core s' = core s -> heap s' = heap s.
Proof. unfold core. now intros [= -> _ _]. Qed.

Lemma handleDocumentChange_single doc ch now s :
  scheme doc = str "file" ->
  shouldIgnoreFile (fsPath doc) = false ->
  skipped ch = false ->
  handleDocumentChange (mkEvent doc [ch]) now s = schedule doc ch now s.
Proof.
  intros Hs Hi Hk. unfold handleDocumentChange.
  cbn [document contentChanges length Nat.eqb fold_left].
  rewrite bool_decide_true by exact Hs. cbn [negb]. now rewrite Hi, Hk.
Qed.

(** What [schedule] leaves behind. *)
Lemma schedule_spec doc ch now s :
  let key := (fsPath doc, start_line ch) in
  let old := match pendingChanges s !! key with
             | Some h => delete h (timers s)
             | None => timers s
             end in
  let s' := schedule doc ch now s in
  timers s' = <[next_handle s := mkTimer (now + DEBOUNCE_MS) doc ch key]> old
  /\ pendingChanges s' = <[key := next_handle s]> (pendingChanges s)
  /\ next_handle s' = S (next_handle s)
  /\ core s' = core s.
Proof.
  cbn zeta. unfold schedule.
  destruct (pendingChanges s !! (fsPath doc, start_line ch)); repeat split.
Qed.

Lemma schedule_registered doc ch now s :
  timers_registered s -> timers_registered (schedule doc ch now s).
Proof.
  intros R h t. destruct (schedule_spec doc ch now s) as (-> & -> & -> & _).
  set (key := (fsPath doc, start_line ch)).
  destruct (decide (h = next_handle s)) as [-> | Hne].
  - rewrite lookup_insert_eq. intros [= <-]. cbn [t_key].
    rewrite lookup_insert_eq. split; [lia | reflexivity].
  - rewrite lookup_insert_ne by congruence. intros Ht.
    assert (timers s !! h = Some t
            /\ pendingChanges s !! key <> Some h) as [Ht' Hk].
    { destruct (pendingChanges s !! key) as [h0|] eqn:E.
      - destruct (decide (h0 = h)) as [-> | Hn].
        + rewrite lookup_delete_eq in Ht. discriminate.
        + rewrite lookup_delete_ne in Ht by exact Hn. split; congruence.
      - split; [exact Ht | discriminate]. }
    destruct (R h t Ht') as [Hlt Hp]. split; [lia|].
    rewrite lookup_insert_ne; [exact Hp|].
    intros E. apply Hk. now rewrite E.
Qed.

Lemma map_get_set k v m : map_get k (map_set k v m) = Some v.
Proof.
  induction m as [|[k0 v0] m IH]; cbn [map_set map_get].
  - now rewrite bool_decide_eq_true_2.
  - destruct (bool_decide_reflect (k0 = k)) as [-> | Hne]; cbn [map_get].
    + now rewrite bool_decide_eq_true_2.
    + now rewrite bool_decide_eq_false_2.
Qed.

Lemma map_get_set_ne k k' v m :
  k' <> k -> map_get k' (map_set k v m) = map_get k' m.
Proof.
  intros Hne. induction m as [|[k0 v0] m IH]; cbn [map_set map_get].
  - now rewrite bool_decide_eq_false_2 by congruence.
  - destruct (bool_decide_reflect (k0 = k)) as [-> | Hk]; cbn [map_get].
    + now rewrite !bool_decide_eq_false_2 by congruence.
    + now rewrite IH.
Qed.

(** Everything that [processChange] does. *)
Lemma processChange_spec doc ch now newid s :
  let c :=
    mkChange newid now (relativePath doc) added
      (mkRange (start_line ch + 1)
         (start_line ch + 1 + Z.of_nat (length (split LF (text ch))) - 1))
      (text ch) None pending (Some (classify (text ch))) in
  let r := length (heap s) in
  let s' := processChange doc ch now newid s in
  heap s' = heap s ++ [c]
  /\ changes s' = map_set newid r (changes s)
  /\ currentJournal s' = push_change r <$> currentJournal s
  /\ trace s'
     = trace s ++ [ChangeNotified c]
         ++ match currentJournal s' with
            | Some j => [JournalNotified j]
            | None => []
            end
  /\ sched s' = sched s /\ inflight s' = inflight s.
Proof.
  cbn zeta. unfold processChange.
  change (currentJournal (set_changes ?a (set_heap ?b s)))
    with (currentJournal s).
  unfold notifyChangeListeners.
  destruct (currentJournal s) as [j|] eqn:Ej.
  - cbn [heap set_currentJournal set_changes set_heap].
    rewrite lookup_app_r by lia. rewrite Nat.sub_diag. cbn [lookup list_lookup].
    unfold notifyJournalListeners.
    cbn [currentJournal emit set_currentJournal].
    cbn [heap changes trace inflight emit set_currentJournal set_changes
           set_heap].
    rewrite <- app_assoc. repeat split.
  - cbn [heap set_currentJournal set_changes set_heap].
    rewrite lookup_app_r by lia. rewrite Nat.sub_diag. cbn [lookup list_lookup].
    unfold notifyJournalListeners.
    cbn [currentJournal emit set_currentJournal set_changes set_heap].
    rewrite Ej.
    cbn [heap changes trace inflight emit set_currentJournal set_changes
           set_heap currentJournal].
    rewrite Ej. repeat split.
Qed.

Lemma trace_of_core s s' : core s' = core s -> trace s' = trace s.
Proof. unfold core. now intros [= _ _ ->]. Qed.

Lemma schedule_frame doc ch now s :
  changes (schedule doc ch now s) = changes s
  /\ currentJournal (schedule doc ch now s) = currentJournal s.
Proof. unfold schedule. now destruct (pendingChanges s !! _). Qed.

(** C4.  Two qualifying edits of one file at the same starting line, the
    second less than 2000 ms after the first: the first edit's timer
    cannot run before the second edit arrives and is cancelled by it; one
    timer remains for the key, armed for 2000 ms after the second edit and
    holding the second edit; so far nothing is recorded (heap, map, journal
    and notifications are as before the edits).  When that timer runs,
    exactly one record is created: a [pending] one whose [code] is the text
    of the second edit; it is entered in the map under its id (the other
    keys keep their entries), appended to the journal of the session if
    there is one, and notified to the change listeners and then to the
    journal listeners; no timer is left for the key, and neither of the two
    timers can run again. *)
Theorem debounce_last_edit_wins (s : state) (doc1 doc2 : TextDocument)
  (c1 c2 : ContentChange) (t1 t2 : Z) :
  timers_registered s ->
  scheme doc1 = str "file" -> scheme doc2 = str "file" ->
  shouldIgnoreFile (fsPath doc1) = false ->
  skipped c1 = false ->
  skipped c2 = false ->
  fsPath doc1 = fsPath doc2 ->
  start_line c1 = start_line c2 ->
  (t1 <= t2 < t1 + DEBOUNCE_MS)%Z ->
  let key := (fsPath doc1, start_line c1) in
  let s1 := handleDocumentChange (mkEvent doc1 [c1]) t1 s in
  let s2 := handleDocumentChange (mkEvent doc2 [c2]) t2 s1 in
  exists h1 h2,
    pendingChanges s1 !! key = Some h1
    /\ (forall now newid, (now <= t2)%Z -> timer_fire h1 now newid s1 = s1)
    /\ timers s2 !! h1 = None
    /\ (forall now newid, timer_fire h1 now newid s2 = s2)
    /\ pendingChanges s2 !! key = Some h2
    /\ timers s2 !! h2 = Some (mkTimer (t2 + DEBOUNCE_MS) doc2 c2 key)
    /\ (forall h t, timers s2 !! h = Some t -> t_key t = key -> h = h2)
    /\ heap s2 = heap s
    /\ changes s2 = changes s
    /\ currentJournal s2 = currentJournal s
    /\ trace s2 = trace s
    /\ (forall now newid,
          (t2 + DEBOUNCE_MS <= now)%Z ->
          let s3 := timer_fire h2 now newid s2 in
          let r := length (heap s) in
          exists c,
            heap s3 = heap s ++ [c]
            /\ code c = text c2 /\ status c = pending
            /\ id c = newid /\ timestamp c = now
            /\ filePath c = relativePath doc2 /\ explanation c = None
            /\ changes s3 = map_set newid r (changes s)
            /\ map_get newid (changes s3) = Some r
            /\ (forall k, k <> newid ->
                  map_get k (changes s3) = map_get k (changes s))
            /\ currentJournal s3 = push_change r <$> currentJournal s
            /\ trace s3
               = trace s ++ [ChangeNotified c]
                   ++ match currentJournal s3 with
                      | Some j => [JournalNotified j]
                      | None => []
                      end
            /\ (forall h t, timers s3 !! h = Some t -> t_key t <> key)
            /\ pendingChanges s3 !! key = None
            /\ (forall now' newid',
                  timer_fire h1 now' newid' s3 = s3
                  /\ timer_fire h2 now' newid' s3 = s3)).
Proof.
  intros R Hs1 Hs2 Hi1 Hk1 Hk2 Hpath Hline Ht. cbn zeta.
  assert (shouldIgnoreFile (fsPath doc2) = false) as Hi2 by now rewrite <- Hpath.
  rewrite (handleDocumentChange_single doc1 c1 t1 s Hs1 Hi1 Hk1).
  set (s1 := schedule doc1 c1 t1 s).
  rewrite (handleDocumentChange_single doc2 c2 t2 s1 Hs2 Hi2 Hk2).
  set (s2 := schedule doc2 c2 t2 s1).
  set (key := (fsPath doc1, start_line c1)).
  destruct (schedule_spec doc1 c1 t1 s) as (T1 & P1 & N1 & C1).
  destruct (schedule_spec doc2 c2 t2 s1) as (T2 & P2 & N2 & C2).
  destruct (schedule_frame doc1 c1 t1 s) as [F1 J1].
  destruct (schedule_frame doc2 c2 t2 s1) as [F2 J2].
  fold s1 in T1, P1, N1, C1, F1, J1, F2, J2.
  fold s2 in T2, P2, N2, C2, F2, J2.
  rewrite <- Hline, <- Hpath in T2, P2. fold key in T1, P1, T2, P2.
  assert (pendingChanges s1 !! key = Some (next_handle s)) as Hp1
    by (rewrite P1; apply lookup_insert_eq).
  rewrite Hp1 in T2. rewrite N1 in T2, P2.
  set (h1 := next_handle s) in *. set (h2 := S h1) in *.
  assert (h1 <> h2) as Hne by (unfold h2; lia).
  assert (timers s1 !! h1 = Some (mkTimer (t1 + DEBOUNCE_MS) doc1 c1 key))
    as Hh1 by (rewrite T1; apply lookup_insert_eq).
  assert (timers s2 !! h1 = None) as Hgone.
  { rewrite T2, lookup_insert_ne by congruence. apply lookup_delete_eq. }
  assert (timers s2 !! h2 = Some (mkTimer (t2 + DEBOUNCE_MS) doc2 c2 key))
    as Hh2 by (rewrite T2; apply lookup_insert_eq).
  assert (forall h t, timers s2 !! h = Some t -> t_key t = key -> h = h2)
    as Honly.
  { intros h t Hh Hkey. destruct (decide (h = h2)) as [|Hn2]; [assumption|].
    exfalso. rewrite T2, lookup_insert_ne in Hh by congruence.
    destruct (decide (h = h1)) as [-> | Hn1];
      [rewrite lookup_delete_eq in Hh; discriminate|].
    rewrite lookup_delete_ne, T1, lookup_insert_ne in Hh by congruence.
    destruct (pendingChanges s !! key) as [h0|] eqn:E.
    - destruct (decide (h0 = h)) as [-> | Hn0];
        [rewrite lookup_delete_eq in Hh; discriminate|].
      rewrite lookup_delete_ne in Hh by exact Hn0.
      destruct (R h t Hh) as [_ Hreg]. rewrite Hkey in Hreg. congruence.
    - destruct (R h t Hh) as [_ Hreg]. rewrite Hkey in Hreg. congruence. }
  assert (heap s2 = heap s /\ trace s2 = trace s) as [Hheap2 Htrace2].
  { pose proof (heap_of_core _ _ C1). pose proof (heap_of_core _ _ C2).
    pose proof (trace_of_core _ _ C1). pose proof (trace_of_core _ _ C2).
    split; congruence. }
  exists h1, h2.
  split; [exact Hp1|]. split.
  { intros now newid Hnow. unfold timer_fire. rewrite Hh1. cbn [deadline].
    destruct (Z.leb_spec (t1 + DEBOUNCE_MS) now); [lia | reflexivity]. }
  split; [exact Hgone|]. split.
  { intros now newid. unfold timer_fire. now rewrite Hgone. }
  split; [rewrite P2; apply lookup_insert_eq|].
  split; [exact Hh2|]. split; [exact Honly|]. split; [exact Hheap2|].
  split; [congruence|]. split; [congruence|]. split; [exact Htrace2|].
  intros now newid Hnow. cbn zeta.
  assert (timer_fire h2 now newid s2
          = set_pendingChanges
              (delete key
                 (pendingChanges
                    (processChange doc2 c2 now newid
                       (set_timers (delete h2 (timers s2)) s2))))
              (processChange doc2 c2 now newid
                 (set_timers (delete h2 (timers s2)) s2))) as Hfire.
  { unfold timer_fire. rewrite Hh2. cbn [deadline t_document t_change t_key].
    destruct (Z.leb_spec (t2 + DEBOUNCE_MS) now) as [_|]; [reflexivity | lia]. }
  rewrite Hfire.
  set (s2' := set_timers (delete h2 (timers s2)) s2).
  destruct (processChange_spec doc2 c2 now newid s2')
    as (Hh & Hc & Hj & Htr & Hsch & _).
  cbn zeta in Hh, Hc, Hj, Htr.
  set (s3 := processChange doc2 c2 now newid s2') in *.
  cbn [heap changes currentJournal trace timers pendingChanges
         set_pendingChanges].
  assert (heap s2' = heap s) as E1 by exact Hheap2.
  assert (changes s2' = changes s) as E2 by (cbn [changes set_timers s2']; congruence).
  assert (currentJournal s2' = currentJournal s) as E3
    by (cbn [currentJournal set_timers s2']; congruence).
  assert (trace s2' = trace s) as E4 by exact Htrace2.
  rewrite E1 in Hh, Hc, Hj. rewrite E2 in Hc. rewrite E3 in Hj. rewrite E4 in Htr.
  assert (timers s3 = delete h2 (timers s2)) as Htm.
  { unfold sched in Hsch. now injection Hsch as -> _ _ _ _ _ _ _. }
  eexists. split; [exact Hh|].
  split; [reflexivity|]. split; [reflexivity|]. split; [reflexivity|].
  split; [reflexivity|]. split; [reflexivity|]. split; [reflexivity|].
  split; [exact Hc|]. split; [rewrite Hc; apply map_get_set|].
  split; [intros k Hk; rewrite Hc; now apply map_get_set_ne|].
  split; [exact Hj|]. split; [exact Htr|].
  assert (forall h t, timers s3 !! h = Some t -> t_key t <> key) as Hnone.
  { intros h t Hh' Hkey. rewrite Htm in Hh'.
    destruct (decide (h = h2)) as [-> | Hn].
    - rewrite lookup_delete_eq in Hh'. discriminate.
    - rewrite lookup_delete_ne in Hh' by congruence.
      apply Hn. now apply (Honly h t). }
  split; [exact Hnone|]. split; [apply lookup_delete_eq|].
  intros now' newid'. unfold timer_fire.
  cbn [timers set_pendingChanges]. rewrite Htm.
  rewrite lookup_delete_ne by congruence. rewrite Hgone.
  now rewrite lookup_delete_eq.
Qed.

(** *** The timer queue along a run *)

Lemma sched_fold_left {A} (f : state -> A -> state) l s :
  (forall s x, sched (f s x) = sched s) ->
  sched (fold_left f l s) = sched s.
Proof.
  intros Hf. revert s. induction l as [|x l IH]; intros s; [reflexivity|].
  cbn [fold_left]. now rewrite IH, Hf.
Qed.

Lemma sched_write_status r st s : sched (write_status r st s) = sched s.
Proof. unfold write_status. now destruct (heap s !! r). Qed.

Lemma sched_update_change r f s : sched (update_change r f s) = sched s.
Proof. unfold update_change. now destruct (heap s !! r). Qed.

Lemma sched_notifyChange r s : sched (notifyChangeListeners r s) = sched s.
Proof. unfold notifyChangeListeners. now destruct (heap s !! r). Qed.

Lemma sched_notifyJournal s : sched (notifyJournalListeners s) = sched s.
Proof. unfold notifyJournalListeners. now destruct (currentJournal s). Qed.

Lemma sched_explainChange_begin changeId s :
  sched (fst (explainChange_begin changeId s)) = sched s.
Proof.
  unfold explainChange_begin. destruct (eligible changeId s); [|reflexivity].
  unfold explain_prelude.
  destruct (workspaceFolders _).
  - destruct (heap _ !! _); cbn [fst].
    + change (sched (emit ?o ?x)) with (sched x).
      now rewrite sched_notifyChange, sched_write_status.
    + rewrite explain_catch_eq, explain_epilogue_eq. cbn [fst].
      rewrite sched_notifyJournal, sched_notifyChange, sched_write_status.
      change (sched (emit ?o ?x)) with (sched x).
      now rewrite sched_notifyChange, sched_write_status.
  - rewrite explain_catch_eq, explain_epilogue_eq. cbn [fst].
    rewrite sched_notifyJournal, sched_notifyChange, sched_write_status.
    change (sched (emit ?o ?x)) with (sched x).
    now rewrite sched_notifyChange, sched_write_status.
Qed.

Lemma sched_explainChange_settle r res s :
  sched (explainChange_settle r res s) = sched s.
Proof.
  unfold explainChange_settle, explain_finish. unfold_monad.
  destruct res; cbn [fst].
  - unfold explain_epilogue. unfold_monad. cbn [fst].
    now rewrite sched_notifyJournal, sched_notifyChange, sched_write_status,
      sched_update_change.
  - rewrite explain_catch_eq, explain_epilogue_eq. cbn [fst].
    now rewrite sched_notifyJournal, sched_notifyChange, sched_write_status.
Qed.

Lemma sched_park t s : sched (park t s) = sched s.
Proof. destruct t as [[r rest | [|x rest]]|]; reflexivity. Qed.

Lemma sched_spawn ids s : sched (spawn ids s) = sched s.
Proof.
  unfold spawn, loop_turn. destruct ids as [|changeId rest]; [reflexivity|].
  pose proof (sched_explainChange_begin changeId s) as Hb.
  destruct (explainChange_begin changeId s) as [s' []]; cbn [fst] in Hb;
    now rewrite sched_park.
Qed.

Lemma sched_settle n res s : sched (settle n res s) = sched s.
Proof.
  unfold settle. destruct (inflight s !! n) as [[r rest | rest]|];
    [|reflexivity..].
  now rewrite sched_park, sched_explainChange_settle.
Qed.

Lemma sched_continue n s : sched (continue n s) = sched s.
Proof.
  unfold continue. destruct (inflight s !! n) as [[r rest | rest]|];
    [reflexivity| |reflexivity].
  now rewrite sched_spawn.
Qed.

Lemma sched_processChange doc ch now newid s :
  sched (processChange doc ch now newid s) = sched s.
Proof.
  unfold processChange. rewrite sched_notifyJournal, sched_notifyChange.
  now destruct (currentJournal _).
Qed.

Lemma registered_sched s s' :
  sched s' = sched s -> timers_registered s -> timers_registered s'.
Proof.
  unfold sched, timers_registered. intros [= -> -> -> _ _ _ _ _] R. exact R.
Qed.

Lemma timers_cleared (l : list (list N * Z * nat)) s h :
  timers (foldr (fun (kh : list N * Z * nat) s => clearTimeout kh.2 s) s l)
    !! h
  = if bool_decide (h ∈ l.*2) then None else timers s !! h.
Proof.
  induction l as [|[k h'] l IH]; [reflexivity|].
  rewrite fmap_cons. cbn [foldr snd clearTimeout timers set_timers].
  destruct (decide (h' = h)) as [-> | Hne].
  - rewrite lookup_delete_eq, bool_decide_true; [reflexivity|].
    apply elem_of_cons. now left.
  - rewrite lookup_delete_ne, IH by exact Hne.
    destruct (bool_decide_reflect (h ∈ l.*2)) as [Hin | Hnin].
    + rewrite bool_decide_true; [reflexivity|]. apply elem_of_cons. now right.
    + rewrite bool_decide_false; [reflexivity|].
      intros [? | ?]%elem_of_cons; [congruence | tauto].
Qed.

Lemma cleared_frame l s :
  let s' := foldr (fun (kh : list N * Z * nat) s => clearTimeout kh.2 s) s l in
  pendingChanges s' = pendingChanges s /\ next_handle s' = next_handle s
  /\ core s' = core s /\ isTracking s' = isTracking s
  /\ currentJournal s' = currentJournal s
  /\ edit_listeners s' = edit_listeners s
  /\ save_listeners s' = save_listeners s
  /\ documentChangeListener s' = documentChangeListener s
  /\ fileWatchers s' = fileWatchers s.
Proof.
  induction l as [|kh l IH]; [now repeat split|].
  cbn zeta in *. cbn [foldr]. exact IH.
Qed.

(** [stopTracking] from a tracking state, field by field. *)
Lemma stopTracking_spec now s :
  isTracking s = true ->
  fileWatchers s = [] ->
  let s' := fst (stopTracking now s) in
  isTracking s' = false
  /\ currentJournal s' = None
  /\ snd (stopTracking now s) = with_sessionEnd now <$> currentJournal s
  /\ pendingChanges s' = ∅
  /\ (forall h, timers s' !! h
        = if bool_decide (h ∈ (map_to_list (pendingChanges s)).*2)
          then None else timers s !! h)
  /\ next_handle s' = next_handle s
  /\ edit_listeners s'
     = match documentChangeListener s with
       | Some h => remove_handle h (edit_listeners s)
       | None => edit_listeners s
       end
  /\ save_listeners s'
     = match documentChangeListener s with
       | Some h => remove_handle h (save_listeners s)
       | None => save_listeners s
       end
  /\ documentChangeListener s' = documentChangeListener s
  /\ fileWatchers s' = []
  /\ core s' = core s.
Proof.
  intros Htr Hfw. cbn zeta. unfold stopTracking. rewrite Htr. cbn [negb].
  cbn [fileWatchers set_isTracking]. 
  set (s0 := match documentChangeListener (set_isTracking false s) with
             | Some h => dispose h (set_isTracking false s)
             | None => set_isTracking false s
             end).
  assert (fileWatchers s0 = []) as Hfw0
    by (unfold s0; cbn; destruct (documentChangeListener s); exact Hfw).
  rewrite Hfw0. cbn [fold_left].
  set (l := map_to_list (pendingChanges (set_fileWatchers [] s0))).
  destruct (cleared_frame l (set_fileWatchers [] s0))
    as (Hp & Hn & Hc & Ht & Hj & He & Hs & Hd & Hf).
  pose proof (timers_cleared l (set_fileWatchers [] s0)) as Htm.
  set (s1 := foldr _ _ l) in *.
  assert (l = map_to_list (pendingChanges s)) as Hl
    by (unfold l, s0; cbn; now destruct (documentChangeListener s)).
  assert (currentJournal s1 = currentJournal s) as Hj'
    by (rewrite Hj; unfold s0; cbn; now destruct (documentChangeListener s)).
  cbn [currentJournal set_pendingChanges]. rewrite Hj'.
  assert (timers (set_fileWatchers [] s0) = timers s) as Htm0
    by (unfold s0; cbn; now destruct (documentChangeListener s)).
  destruct (currentJournal s) as [j|]; cbn [fst snd fmap option_fmap option_map];
    cbn; rewrite ?Ht, ?Hn, ?He, ?Hs, ?Hd, ?Hf.
  all: repeat split; try reflexivity; try exact Hj';
    try (intros h; rewrite Htm, Hl, Htm0; reflexivity);
    try (transitivity (core s1); [reflexivity | rewrite Hc]);
    unfold s0; cbn; destruct (documentChangeListener s) eqn:E; cbn;
    try reflexivity; try assumption.
Qed.

(** *** Timers and listeners along a run *)

Lemma sched_step_other s e :
  match e with
  | EvSave _ | EvExplain _ | EvSettle _ _ | EvContinue _ | EvClear
  | EvWorkspace _ => True
  | _ => False
  end ->
  sched (step s e) = sched s.
Proof.
  destruct e; intros []; cbn [step].
  - apply sched_fold_left. intros. apply sched_spawn.
  - apply sched_spawn.
  - apply sched_settle.
  - apply sched_continue.
  - unfold clear. now destruct (currentJournal _).
  - reflexivity.
Qed.

Lemma startTracking_registered now newid s :
  timers_registered s -> timers_registered (startTracking now newid s).
Proof.
  intros R. unfold startTracking. destruct (isTracking s); [exact R|].
  intros h t Ht. destruct (R h t Ht) as [Hlt Hp].
  split; [cbn; lia | exact Hp].
Qed.

Lemma stopTracking_registered now s :
  fileWatchers s = [] ->
  timers_registered s -> timers_registered (fst (stopTracking now s)).
Proof.
  intros Hfw R. destruct (isTracking s) eqn:Htr.
  2:{ unfold stopTracking. now rewrite Htr. }
  destruct (stopTracking_spec now s Htr Hfw) as (_ & _ & _ & _ & Htm & _).
  intros h t Ht. exfalso. rewrite Htm in Ht.
  destruct (bool_decide_reflect (h ∈ (map_to_list (pendingChanges s)).*2))
    as [Hin | Hnin]; [discriminate|].
  apply Hnin. destruct (R h t Ht) as [_ Hp].
  apply list_elem_of_fmap. exists (t_key t, h). split; [reflexivity|].
  now apply elem_of_map_to_list.
Qed.

Lemma handleDocumentChange_registered ev now s :
  timers_registered s -> timers_registered (handleDocumentChange ev now s).
Proof.
  unfold handleDocumentChange. intros R.
  destruct (negb _); [exact R|].
  destruct (_ =? 0); [exact R|].
  destruct (shouldIgnoreFile _); [exact R|].
  revert s R. induction (contentChanges ev) as [|ch l IH]; intros s R;
    [exact R|].
  cbn [fold_left]. apply IH.
  destruct (skipped ch); [exact R | now apply schedule_registered].
Qed.

Lemma timer_fire_registered h now newid s :
  timers_registered s -> timers_registered (timer_fire h now newid s).
Proof.
  intros R. unfold timer_fire.
  destruct (timers s !! h) as [t|] eqn:Ht; [|exact R].
  destruct (deadline t <=? now)%Z; [|exact R].
  pose proof (sched_processChange (t_document t) (t_change t) now newid
                (set_timers (delete h (timers s)) s)) as E.
  set (s1 := processChange _ _ _ _ _) in *.
  unfold sched in E. injection E as Et Ep En _ _ _ _ _.
  cbn [timers pendingChanges next_handle set_timers] in Et, Ep, En.
  intros h' t'. unfold timers_registered.
  cbn [timers pendingChanges next_handle set_pendingChanges].
  rewrite Et, Ep, En. intros Ht'.
  destruct (decide (h' = h)) as [-> | Hne];
    [rewrite lookup_delete_eq in Ht'; discriminate|].
  rewrite lookup_delete_ne in Ht' by congruence.
  destruct (R h' t' Ht') as [Hlt Hp']. split; [exact Hlt|].
  destruct (R h t Ht) as [_ Hp].
  rewrite lookup_delete_ne; [exact Hp'|]. intros E. rewrite E in Hp.
  congruence.
Qed.

Lemma remove_handle_absent h l : ~ In h l -> remove_handle h l = l.
Proof.
  induction l as [|x l IH]; [reflexivity|]. intros Hn.
  cbn [remove_handle List.filter]. destruct (Nat.eqb_spec x h) as [-> | _].
  - destruct Hn. now left.
  - cbn [negb]. f_equal. apply IH. intros H. apply Hn. now right.
Qed.

Lemma remove_handle_single h : remove_handle h [h] = [].
Proof. cbn. now rewrite Nat.eqb_refl. Qed.

Lemma listeners_sched s s' :
  sched s' = sched s -> listeners_ok s -> listeners_ok s'.
Proof.
  unfold sched, listeners_ok. now intros [= _ _ -> -> -> -> -> ->].
Qed.

Lemma schedule_listeners doc ch now s :
  listeners_ok s -> listeners_ok (schedule doc ch now s).
Proof.
  intros (L1 & L2 & L3 & L4 & L5). unfold schedule.
  destruct (pendingChanges s !! _); (split; [exact L1|]);
    (split; [intros h Hh; specialize (L2 h Hh); cbn; lia|]);
    (split; [intros h Hh; destruct (L3 h Hh); split; [cbn; lia | assumption]|]);
    (split; [exact L4 | exact L5]).
Qed.

Lemma handleDocumentChange_listeners ev now s :
  listeners_ok s -> listeners_ok (handleDocumentChange ev now s).
Proof.
  unfold handleDocumentChange. intros L.
  destruct (negb _); [exact L|].
  destruct (_ =? 0); [exact L|].
  destruct (shouldIgnoreFile _); [exact L|].
  revert s L. induction (contentChanges ev) as [|ch l IH]; intros s L;
    [exact L|].
  cbn [fold_left]. apply IH.
  destruct (skipped ch); [exact L | now apply schedule_listeners].
Qed.

Lemma startTracking_listeners now newid s :
  listeners_ok s -> listeners_ok (startTracking now newid s).
Proof.
  intros L. unfold startTracking.
  destruct (isTracking s) eqn:Htr; [exact L|].
  destruct L as (L1 & L2 & L3 & L4 & L5). rewrite Htr in L5.
  unfold listeners_ok. cbn. split; [exact L1|]. split; [|split; [|split]].
  - intros h [Hh | [<- | []]]%in_app_iff; [specialize (L2 h Hh)|]; lia.
  - intros h [= <-]. split; [lia|].
    intros [Hh | [Hh | []]]%in_app_iff; [specialize (L2 _ Hh)|]; lia.
  - intros _. now destruct (save_listeners s).
  - now rewrite L5.
Qed.

Lemma stopTracking_listeners now s :
  listeners_ok s -> listeners_ok (fst (stopTracking now s)).
Proof.
  intros L. destruct (isTracking s) eqn:Htr.
  2:{ unfold stopTracking. rewrite Htr. exact L. }
  destruct L as (L1 & L2 & L3 & L4 & L5). rewrite Htr in L5.
  destruct (stopTracking_spec now s Htr L1)
    as (Ht & _ & _ & _ & _ & Hn & He & Hs & Hd & Hf & _).
  set (s' := fst (stopTracking now s)) in *.
  assert (save_listeners s' = save_listeners s) as Hs'.
  { rewrite Hs. destruct (documentChangeListener s) as [h|] eqn:E;
      [|reflexivity].
    apply remove_handle_absent. now apply L3. }
  split; [exact Hf|]. split; [|split; [|split]].
  - intros h. rewrite Hs', Hn. apply L2.
  - intros h. rewrite Hd, Hs', Hn. apply L3.
  - rewrite Ht. discriminate.
  - rewrite Ht, He, L5.
    destruct (documentChangeListener s); [apply remove_handle_single|];
      reflexivity.
Qed.

Lemma timer_fire_sched_listeners h now newid s :
  listeners_ok s -> listeners_ok (timer_fire h now newid s).
Proof.
  intros L. unfold timer_fire. destruct (timers s !! h) as [t|]; [|exact L].
  destruct (deadline t <=? now)%Z; [|exact L].
  pose proof (sched_processChange (t_document t) (t_change t) now newid
                (set_timers (delete h (timers s)) s)) as E.
  set (s1 := processChange _ _ _ _ _) in *.
  unfold sched in E. injection E as _ _ En Ef Ee Es Ed Et.
  unfold listeners_ok in *.
  cbn [fileWatchers save_listeners edit_listeners documentChangeListener
         isTracking next_handle set_pendingChanges set_timers] in *.
  now rewrite En, Ef, Ee, Es, Ed, Et.
Qed.

Lemma step_well_formed s e :
  timers_registered s /\ listeners_ok s ->
  timers_registered (step s e) /\ listeners_ok (step s e).
Proof.
  intros [R L].
  destruct e as [now newid|now|ev now|doc|h now newid|changeId|n res|n| |b];
    try (split;
         [eapply registered_sched | eapply listeners_sched];
         try (apply sched_step_other; exact Logic.I); assumption).
  - split; [now apply startTracking_registered
           | now apply startTracking_listeners].
  - split; [apply stopTracking_registered; [apply L | exact R]
           | now apply stopTracking_listeners].
  - cbn [step]. generalize (edit_listeners s). intros l. revert s R L.
    induction l as [|x l IH]; intros s R L; [now split|].
    cbn [fold_left]. apply IH.
    + now apply handleDocumentChange_registered.
    + now apply handleDocumentChange_listeners.
  - split; [now apply timer_fire_registered
           | now apply timer_fire_sched_listeners].
Qed.

Lemma run_well_formed es :
  timers_registered (run init es) /\ listeners_ok (run init es).
Proof.
  assert (forall s, timers_registered s /\ listeners_ok s ->
            timers_registered (run s es) /\ listeners_ok (run s es)) as H.
  { induction es as [|e es IH]; intros s Hs; [exact Hs|].
    cbn [run fold_left]. apply IH, step_well_formed, Hs. }
  apply H. split.
  - intros h t Ht. cbn [timers init] in Ht. rewrite lookup_empty in Ht.
    discriminate.
  - split; [reflexivity|]. split; [intros h []|].
    split; [discriminate|]. split; [discriminate | reflexivity].
Qed.

(** *** stopTracking *)

(** What [stopTracking] does achieve from any tracking state of a run: the
    flag, the journal, the edit listener and the timers. *)
Lemma stopTracking_from_run es now :
  let s := run init es in
  isTracking s = true ->
  let s' := fst (stopTracking now s) in
  isTracking s' = false
  /\ currentJournal s' = None
  /\ snd (stopTracking now s) = with_sessionEnd now <$> currentJournal s
  /\ edit_listeners s' = []
  /\ timers s' = ∅
  /\ pendingChanges s' = ∅
  /\ (forall ev t, step s' (EvEdit ev t) = s')
  /\ (forall h t newid, step s' (EvTimer h t newid) = s').
Proof.
  cbn zeta. intros Htr. destruct (run_well_formed es) as [R L].
  pose proof (stopTracking_registered now _ (proj1 L) R) as R'.
  destruct L as (L1 & L2 & L3 & L4 & L5). rewrite Htr in L5.
  destruct (stopTracking_spec now _ Htr L1)
    as (Ht & Hj & Hret & Hp & _ & _ & He & _).
  set (s := run init es) in *. set (s' := fst (stopTracking now s)) in *.
  assert (edit_listeners s' = []) as He'.
  { rewrite He, L5. destruct (documentChangeListener s);
      [apply remove_handle_single | reflexivity]. }
  assert (timers s' = ∅) as Htm.
  { apply map_eq. intros h. rewrite lookup_empty.
    destruct (timers s' !! h) as [t|] eqn:E; [|reflexivity].
    destruct (R' h t E) as [_ Hreg]. rewrite Hp, lookup_empty in Hreg.
    discriminate. }
  repeat split; try assumption.
  - intros ev t. cbn [step]. now rewrite He'.
  - intros h t newid. cbn [step]. unfold timer_fire.
    now rewrite Htm, lookup_empty.
Qed.

(** What it misses: the save listener is pushed to [context.subscriptions]
    and never to [fileWatchers], so that stopping disposes of nothing on the
    save feed. *)
Lemma stopTracking_keeps_save_listener es now :
  let s := run init es in
  isTracking s = true ->
  let s' := fst (stopTracking now s) in
  save_listeners s' = save_listeners s /\ save_listeners s' <> [].
Proof.
  cbn zeta. intros Htr. destruct (run_well_formed es) as [_ L].
  destruct L as (L1 & L2 & L3 & L4 & L5).
  destruct (stopTracking_spec now _ Htr L1)
    as (_ & _ & _ & _ & _ & _ & _ & Hs & _).
  assert (save_listeners (fst (stopTracking now (run init es)))
          = save_listeners (run init es)) as E.
  { rewrite Hs. destruct (documentChangeListener _) as [h|] eqn:Ed;
      [|reflexivity].
    apply remove_handle_absent. now apply L3. }
  split; [exact E | rewrite E; now apply L4].
Qed.

(** C5 fails on the code.  One edit is recorded while tracking, tracking is
    stopped, then the file is saved: the edit feed and the timers are
    silent, but the save still reaches [handleFileSave], which sets the
    recorded change to [explaining] and calls the generator. *)
Theorem save_after_stop_requests_explanation :
  isTracking after_stop = false
  /\ List.map status (heap after_stop) = [pending]
  /\ edit_listeners after_stop = []
  /\ save_listeners after_stop = [1]
  /\ generator_calls (trace after_stop) = 0
  /\ let s := step after_stop (EvSave demo_document) in
     List.map status (heap s) = [explaining]
     /\ generator_calls (trace s) = 1
     /\ inflight s = [Waiting 0 []].
Proof. vm_compute. repeat split. Qed.

(** *** Instances *)

(** C2 at work: after a failed and a successful attempt the change is
    [explained], and stays so through further requests, a save, [clear] and
    [stopTracking]. *)
Lemma status_progression_witness :
  exists c c',
    heap (run init (first_attempt ++ second_attempt)) !! 0 = Some c
    /\ status c = explained
    /\ heap (run (run init (first_attempt ++ second_attempt)) afterwards) !! 0
       = Some c'
    /\ status c' = explained.
Proof.
  destruct (status_progression (first_attempt ++ second_attempt))
    as (_ & H & _).
  edestruct (H afterwards 0) as (c' & Hc' & _ & He & _);
    [vm_compute; reflexivity|].
  eexists _, c'. split; [vm_compute; reflexivity|].
  split; [reflexivity|]. split; [exact Hc' | apply He; reflexivity].
Defined.

(** C3 at work on the state left by the failed attempt: an unknown
    identifier changes nothing, and the change in [error] status is taken
    up again, with one more call of the generator. *)
Lemma explainChange_contract_witness :
  let s := run init first_attempt in
  let gen := fun _ : LLMRequest => @Thrown LLMResponse (str "network") in
  List.map status (heap s) = [error]
  /\ explainChange (str "zz") gen s = (s, Returned tt)
  /\ snd (explainChange (str "c1") gen s) = Returned tt
  /\ generator_calls (trace (fst (explainChange (str "c1") gen s)))
     = S (generator_calls (trace s))
  /\ List.map status (heap (fst (explainChange (str "c1") gen s))) = [error].
Proof.
  cbn zeta.
  set (s := run init first_attempt).
  set (gen := fun _ : LLMRequest => @Thrown LLMResponse (str "network")).
  split; [vm_compute; reflexivity|].
  destruct (explainChange_contract (str "zz") gen s) as (_ & Hnoop & _).
  destruct (explainChange_contract (str "c1") gen s)
    as (Hret & _ & Hretry & _).
  split; [apply Hnoop; left; vm_compute; reflexivity|].
  split; [exact Hret|].
  edestruct (Hretry 0) as (_ & _ & Hcalls & _);
    [vm_compute; reflexivity | vm_compute; reflexivity
    | left; reflexivity | vm_compute; reflexivity |].
  split; [exact Hcalls | vm_compute; reflexivity].
Defined.

(** C4 at work: two edits of line 4, 1999 ms apart, while tracking; the
    timer that remains creates one record, with the second text, which is
    entered in the map and in the journal of the session, and notified. *)
Lemma debounce_last_edit_wins_witness :
  let s1 := handleDocumentChange (mkEvent demo_document [demo_first_edit]) 100
              tracking in
  let s2 := handleDocumentChange (mkEvent demo_document [demo_edit]) 2099 s1 in
  heap s2 = []
  /\ exists h2 c,
       let s3 := timer_fire h2 4099 (str "c1") s2 in
       heap s3 = [c]
       /\ code c = text demo_edit
       /\ map_get (str "c1") (changes s3) = Some 0
       /\ j_changes <$> currentJournal s3 = Some [0]
       /\ trace s3 = [ChangeNotified c;
                      JournalNotified
                        (mkJournal (str "j1") 0 None None [0] None)].
Proof.
  cbn zeta.
  destruct (debounce_last_edit_wins tracking demo_document demo_document
              demo_first_edit demo_edit 100 2099)
    as (h1 & h2 & _ & _ & _ & _ & _ & _ & _ & Hheap & _ & _ & _ & Hfire).
  - intros h t H. cbn in H. rewrite lookup_empty in H. discriminate.
  - reflexivity.
  - reflexivity.
  - vm_compute. reflexivity.
  - vm_compute. reflexivity.
  - vm_compute. reflexivity.
  - reflexivity.
  - reflexivity.
  - unfold DEBOUNCE_MS. lia.
  - split; [exact Hheap|].
    destruct (Hfire 4099%Z (str "c1"))
      as (c & Hc & Hcode & _ & _ & _ & _ & _ & _ & Hget & _ & Hj & Htr & _);
      [unfold DEBOUNCE_MS; lia|].
    exists h2, c. cbn zeta. split; [exact Hc|]. split; [exact Hcode|].
    split; [exact Hget|]. rewrite Hj in Htr |- *. split; [reflexivity|].
    exact Htr.
Defined.

End TrackerProofs.

(** ** Tour player *)

Module PlayerProofs.
Import Js Types Player.

Ltac unfold_monad :=
  unfold bind, modify, ret, try_catch, await, throw in *.

Lemma get_set_level l text e : get_level l (set_level l text e) = Some text.
Proof. now destruct l. Qed.

Lemma get_set_level_ne l l' text e :
  l <> l' -> get_level l' (set_level l text e) = get_level l' e.
Proof. destruct l, l'; intros H; try reflexivity; now destruct H. Qed.

Lemma truthy_Some text : text <> [] -> truthy (Some text) = true.
Proof. destruct text; [now intros [] | reflexivity]. Qed.

Lemma truthy_true o :
  truthy o = true <-> exists text, o = Some text /\ text <> [].
Proof.
  split.
  - destruct o as [[|c w]|]; try discriminate. intros _. now exists (c :: w).
  - intros (text & -> & H). now apply truthy_Some.
Qed.

Lemma nth_step_Some l i st :
  nth_step l i = Some st <->
  (0 <= i)%Z /\ l !! Z.to_nat i = Some st.
Proof.
  unfold nth_step. destruct (Z.ltb_spec i 0); split.
  - discriminate.
  - intros [? _]. lia.
  - auto.
  - now intros [_ ?].
Qed.

Lemma nth_step_None l i :
  nth_step l i = None <-> (i < 0 \/ Z.of_nat (length l) <= i)%Z.
Proof.
  unfold nth_step. destruct (Z.ltb_spec i 0); split; auto.
  - intros H0%lookup_ge_None. lia.
  - intros [? | ?]; [lia|]. apply lookup_ge_None. lia.
Qed.

(** *** goToStep *)

(** C9.  With a tour of [n >= 1] steps loaded, [goToStep] does not throw for
    any integer, and leaves [currentStepIndex] at the argument clamped into
    [0 .. n - 1], which is the index of a step; it reports that index to the
    webview. *)
Theorem goToStep_clamps (h : host) (tour : VoyaTour) (i : Z) :
  currentTour h = Some tour ->
  1 <= length (steps tour) ->
  let n := Z.of_nat (length (steps tour)) in
  let clamped := (if i <? 0 then 0 else if n - 1 <? i then n - 1 else i)%Z in
  exists h',
    goToStep i h = (h', Returned tt)
    /\ currentStepIndex h' = clamped
    /\ (0 <= currentStepIndex h' <= n - 1)%Z
    /\ is_Some (nth_step (steps tour) (currentStepIndex h'))
    /\ currentTour h' = Some tour
    /\ (panel h = true -> In (Sent (stepChanged clamped)) (outbox h')).
Proof.
  intros Ht Hn. cbn zeta. unfold goToStep. rewrite Ht. unfold_monad.
  cbn [fst snd]. eexists. split; [reflexivity|].
  set (n := Z.of_nat (length (steps tour))).
  set (k := Z.max 0 (Z.min i (n - 1))).
  assert (k = (if i <? 0 then 0 else if n - 1 <? i then n - 1 else i)%Z)
    as Hk.
  { unfold k. destruct (Z.ltb_spec i 0); destruct (Z.ltb_spec (n - 1) i); lia. }
  assert (0 <= k <= n - 1)%Z as Hr by (unfold k, n; lia).
  assert (forall x, currentStepIndex (highlightCurrentStep x)
                    = currentStepIndex x) as Hhl.
  { intros x. unfold highlightCurrentStep.
    destruct (currentTour x); [|reflexivity].
    now destruct (nth_step _ _). }
  assert (forall x, currentTour (highlightCurrentStep x) = currentTour x)
    as Hht.
  { intros x. unfold highlightCurrentStep.
    destruct (currentTour x) eqn:E; [|exact E].
    now destruct (nth_step _ _). }
  assert (forall m x, currentStepIndex (sendMessage m x) = currentStepIndex x
                      /\ currentTour (sendMessage m x) = currentTour x)
    as Hsm by (intros m x; unfold sendMessage; now destruct (panel x)).
  rewrite Hhl, Hht. rewrite (proj1 (Hsm _ _)), (proj2 (Hsm _ _)).
  cbn [currentStepIndex currentTour set_currentStepIndex]. fold n k.
  rewrite <- Hk. split; [reflexivity|]. split; [exact Hr|].
  split; [|split; [exact Ht|]].
  - destruct (nth_step (steps tour) k) eqn:E; [eauto|].
    apply nth_step_None in E. fold n in E. lia.
  - intros Hp. unfold highlightCurrentStep, sendMessage.
    cbn [panel set_currentStepIndex currentTour currentStepIndex log outbox].
    rewrite Hp. cbn [currentTour currentStepIndex log outbox].
    change (currentTour (set_currentStepIndex k h)) with (currentTour h).
    change (currentStepIndex (set_currentStepIndex k h)) with k.
    rewrite Ht. destruct (nth_step (steps tour) k);
      cbn [outbox log]; rewrite ?in_app_iff; cbn; auto.
Qed.

(** *** requestDeepen without a step *)

(** C10.  Without a tour, or with an index outside the steps of the tour,
    [handleDeepenRequest] returns at once: the host is unchanged, so that
    nothing is sent to the webview and nothing is asked of the generator;
    the index is not clamped. *)
Theorem requestDeepen_without_step (env : environment) (i : Z)
  (level : DetailLevel) (h : host) :
  (currentTour h = None
   \/ exists tour, currentTour h = Some tour
        /\ (i < 0 \/ Z.of_nat (length (steps tour)) <= i)%Z) ->
  handleDeepenRequest env i level h = (h, Returned tt)
  /\ receive env (requestDeepen i level) h = (h, Returned tt).
Proof.
  intros H. cbn [receive]. unfold handleDeepenRequest.
  destruct H as [-> | (tour & -> & Hi)]; [now split|].
  apply nth_step_None in Hi. rewrite Hi. now split.
Qed.

(** *** currentExplanation *)

(** C7, as the code has it.  For the step on display the explanation is the
    cached text for the current level if that is set and not empty, else
    the text embedded in the step for that level if that is set and not
    empty, else the step's default explanation. *)
Theorem getCurrentExplanation_order (a : App) (tour : VoyaTour)
  (st : VoyaStep) :
  activeTour a = Some tour ->
  nth_step (steps tour) (ps_currentStepIndex (playerState a)) = Some st ->
  getCurrentExplanation a =
    match cached a with
    | Some (c :: w) => c :: w
    | Some [] | None =>
        match embedded (detailLevel (playerState a)) st with
        | Some (c :: w) => c :: w
        | Some [] | None => explanation st
        end
    end.
Proof.
  intros Ht Hs. unfold getCurrentExplanation. rewrite Ht, Hs.
  destruct (cached a) as [[|c w]|]; cbn [truthy default];
    try reflexivity;
    destruct (embedded _ st) as [[|c' w']|]; reflexivity.
Qed.

(** C7 as stated fails on the code.  After the generator has answered a
    request with the empty text, that text is in the webview's cache for the
    step and level on display, yet the code yields the step's default
    explanation where the stated order yields the cached text. *)
Lemma getCurrentExplanation_empty_cache :
  activeTour empty_answer_app = Some (sample_tour 1)
  /\ cached empty_answer_app = Some []
  /\ getCurrentExplanation empty_answer_app = str "C"
  /\ resolution_as_stated empty_answer_app (sample_step 0 None) = []
  /\ getCurrentExplanation empty_answer_app
     <> resolution_as_stated empty_answer_app (sample_step 0 None).
Proof. vm_compute. repeat split. discriminate. Qed.

(** *** requestDeepen *)

Lemma invocations_app o1 o2 :
  generator_invocations (o1 ++ o2)
  = generator_invocations o1 + generator_invocations o2.
Proof.
  unfold generator_invocations. now rewrite List.filter_app, length_app.
Qed.

Lemma messages_app o1 o2 : messages (o1 ++ o2) = messages o1 ++ messages o2.
Proof. unfold messages. apply omap_app. Qed.

Lemma deepen_hit env i level h tour st text :
  panel h = true ->
  currentTour h = Some tour ->
  nth_step (steps tour) i = Some st ->
  embedded level st = Some text -> text <> [] ->
  handleDeepenRequest env i level h
  = (log (Sent (deepenComplete i level text)) h, Returned tt).
Proof.
  intros Hp Ht Hs He Hne. unfold handleDeepenRequest.
  rewrite Ht, Hs, He, (truthy_Some text Hne). unfold_monad.
  unfold sendMessage. now rewrite Hp.
Qed.

(** The first of two calls, when the level is not cached yet and the
    generator answers. *)
Lemma deepen_miss env i level h tour st response :
  panel h = true ->
  currentTour h = Some tour ->
  nth_step (steps tour) i = Some st ->
  truthy (embedded level st) = false ->
  generate env (deepen_request env st level) = Returned response ->
  let text := resp_explanation response in
  let tour' :=
    mkTour (tour_id tour) (title tour) (createdAt tour)
      (<[Z.to_nat i := cache_level level text st]> (steps tour)) in
  let h' := fst (handleDeepenRequest env i level h) in
  snd (handleDeepenRequest env i level h) = Returned tt
  /\ panel h' = true
  /\ currentTour h' = Some tour'
  /\ currentStepIndex h' = currentStepIndex h
  /\ nth_step (steps tour') i = Some (cache_level level text st)
  /\ embedded level (cache_level level text st) = Some text
  /\ exists rest,
       outbox h' =
         outbox h ++ [Sent (deepenStarted i);
                      GeneratorCalled (deepen_request env st level);
                      TourSaved tour'] ++ rest
       /\ generator_invocations rest = 0
       /\ (saveTour env tour' = Returned tt ->
           rest = [Sent (deepenComplete i level text)]).
Proof.
  intros Hp Ht Hs Hc Hg. cbn zeta. unfold handleDeepenRequest.
  rewrite Ht, Hs, Hc. unfold_monad. unfold save_current, cache_in_tour.
  unfold_monad. unfold sendMessage.
  cbn -[nth_step deepen_request cache_level failure_message].
  rewrite Hp.
  cbn -[nth_step deepen_request cache_level failure_message].
  rewrite Hg.
  cbn -[nth_step deepen_request cache_level failure_message].
  rewrite Ht, Hs.
  cbn -[nth_step deepen_request cache_level failure_message].
  assert (nth_step
            (<[Z.to_nat i := cache_level level (resp_explanation response) st]>
               (steps tour)) i
          = Some (cache_level level (resp_explanation response) st)) as Hn.
  { apply nth_step_Some in Hs as [H0 Hl]. apply nth_step_Some.
    split; [exact H0|]. apply list_lookup_insert_eq.
    eapply lookup_lt_Some; eauto. }
  assert (embedded level (cache_level level (resp_explanation response) st)
          = Some (resp_explanation response)) as He.
  { unfold embedded, cache_level. cbn [explanations].
    apply get_set_level. }
  destruct (saveTour env _) as [[]|e] eqn:Hsave;
    do 3 (cbn -[nth_step deepen_request cache_level failure_message];
          rewrite ?Hp);
    (split; [reflexivity|]); (split; [reflexivity|]); (split; [reflexivity|]);
    (split; [reflexivity|]); (split; [exact Hn|]); (split; [exact He|]).
  - exists [Sent (deepenComplete i level (resp_explanation response))].
    rewrite <- !app_assoc. cbn. auto.
  - exists [ErrorLogged; Sent (error failure_message)].
    rewrite <- !app_assoc. cbn. repeat split. discriminate.
Qed.

(** The handler, run alone, is its pieces one after the other. *)
Lemma handleDeepenRequest_cut env i level h :
  handleDeepenRequest env i level h = (deepen_alone env i level h, Returned tt).
Proof.
  unfold handleDeepenRequest, deepen_alone, deepen_start.
  destruct (currentTour h) as [tour|] eqn:Ht; [|reflexivity].
  destruct (nth_step (steps tour) i) as [st|] eqn:Hs; [|reflexivity].
  destruct (truthy (embedded level st)) eqn:Hc; [reflexivity|].
  unfold deepen_snippet, deepen_answer, deepen_saved, deepen_failed.
  unfold_monad. unfold save_current. unfold_monad.
  change (mkRequest (getCodeSnippet env st) (filePath st) (startLine st)
            (endLine st) level None) with (deepen_request env st level).
  destruct (generate env (deepen_request env st level)) as [response|e];
    [|reflexivity].
  cbn [fst snd].
  destruct (currentTour (cache_in_tour i level (resp_explanation response) _))
    as [tour'|] eqn:Ht'; [|reflexivity].
  cbn [currentTour log]. rewrite ?Ht'.
  cbn [fst snd currentTour log]. rewrite ?Ht'.
  destruct (saveTour env tour'); reflexivity.
Qed.

(** The test of the cache on a level that is not cached: the request is
    announced and the handler goes on to wait for the snippet. *)
Lemma deepen_start_miss i level h tour st :
  panel h = true ->
  currentTour h = Some tour ->
  nth_step (steps tour) i = Some st ->
  truthy (embedded level st) = false ->
  deepen_start i level h
  = (log (Sent (deepenStarted i)) h, Some (AwaitSnippet st)).
Proof.
  intros Hp Ht Hs Hc. unfold deepen_start, sendMessage.
  now rewrite Ht, Hs, Hc, Hp.
Qed.



(** *** A deepen request that fails *)

Lemma deepen_fail_eq env i level h tour st e :
  panel h = true ->
  currentTour h = Some tour ->
  nth_step (steps tour) i = Some st ->
  truthy (embedded level st) = false ->
  generate env (deepen_request env st level) = Thrown e ->
  handleDeepenRequest env i level h
  = (log (Sent (error failure_message))
       (log ErrorLogged
          (log (GeneratorCalled (deepen_request env st level))
             (log (Sent (deepenStarted i)) h))),
     Returned tt).
Proof.
  intros Hp Ht Hs Hc Hg. unfold handleDeepenRequest.
  rewrite Ht, Hs, Hc. unfold_monad. unfold sendMessage.
  do 3 (cbn -[nth_step deepen_request cache_level failure_message];
        rewrite ?Hp, ?Hg).
  reflexivity.
Qed.

(** C8.  When the generator fails on a request for an uncached level, the
    handler still returns normally; the host keeps its tour (and with it
    every cached level) and its step index, and has logged the error and
    sent [deepenStarted] followed by the generic [error] message; the
    webview, on these two messages, ends with [isLoadingDeepen = false] and
    with its cache of deepened explanations, its tour and the rest of its
    player state as they were; and the same request can be made again: with
    a generator that answers, it is asked once more and its answer is
    cached. *)
Theorem deepen_failure_is_soft (env : environment) (i : Z)
  (level : DetailLevel) (h : host) (tour : VoyaTour) (st : VoyaStep)
  (e : list N) :
  panel h = true ->
  currentTour h = Some tour ->
  nth_step (steps tour) i = Some st ->
  truthy (embedded level st) = false ->
  generate env (deepen_request env st level) = Thrown e ->
  let h' := fst (handleDeepenRequest env i level h) in
  let sent := [Sent (deepenStarted i);
               GeneratorCalled (deepen_request env st level);
               ErrorLogged;
               Sent (error failure_message)] in
  snd (handleDeepenRequest env i level h) = Returned tt
  /\ currentTour h' = currentTour h
  /\ currentStepIndex h' = currentStepIndex h
  /\ outbox h' = outbox h ++ sent
  /\ messages sent = [deepenStarted i; error failure_message]
  /\ (forall a,
        let a' := deliver (messages sent) a in
        isLoadingDeepen (playerState a') = false
        /\ playerState a' = with_loading false (playerState a)
        /\ deepenedExplanations a' = deepenedExplanations a
        /\ activeTour a' = activeTour a
        /\ tours a' = tours a)
  /\ (forall env' response,
        generate env' (deepen_request env' st level) = Returned response ->
        let h'' := fst (handleDeepenRequest env' i level h') in
        generator_invocations (outbox h'')
        = S (generator_invocations (outbox h'))
        /\ exists tour' st',
             currentTour h'' = Some tour'
             /\ nth_step (steps tour') i = Some st'
             /\ embedded level st' = Some (resp_explanation response)).
Proof.
  intros Hp Ht Hs Hc Hg. cbn zeta.
  rewrite (deepen_fail_eq env i level h tour st e Hp Ht Hs Hc Hg).
  cbn [fst snd]. split; [reflexivity|]. split; [reflexivity|].
  split; [reflexivity|]. split.
  { cbn [log outbox]. now rewrite <- !app_assoc. }
  split; [reflexivity|]. split.
  { intros a. cbn. repeat split. }
  intros env' response Hg'.
  match goal with
  | |- context [handleDeepenRequest env' i level ?x] => set (h' := x)
  end.
  destruct (deepen_miss env' i level h' tour st response)
    as (_ & _ & Ht' & _ & Hs' & He' & rest & Ho & Hr & _);
    try assumption; try reflexivity.
  split.
  - rewrite Ho, !invocations_app, Hr. cbn. lia.
  - eauto.
Qed.

(** Whatever fails, a level cached with a text that is not empty stays
    cached with that text. *)
Lemma deepen_never_evicts env i level h j level' tour st text :
  currentTour h = Some tour ->
  nth_step (steps tour) j = Some st ->
  embedded level' st = Some text -> text <> [] ->
  exists tour' st',
    currentTour (fst (handleDeepenRequest env i level h)) = Some tour'
    /\ nth_step (steps tour') j = Some st'
    /\ embedded level' st' = Some text.
Proof.
  intros Ht Hs He Hne.
  assert (forall m x, currentTour (sendMessage m x) = currentTour x) as Hsm
    by (intros m x; unfold sendMessage; now destruct (panel x)).
  unfold handleDeepenRequest. rewrite Ht.
  destruct (nth_step (steps tour) i) as [sti|] eqn:Hi; [|cbn; eauto].
  destruct (truthy (embedded level sti)) eqn:Hc.
  { unfold_monad. cbn [fst]. rewrite Hsm. eauto. }
  unfold_monad. unfold save_current, cache_in_tour. unfold_monad.
  destruct (generate env _) as [response|e].
  2:{ cbn -[nth_step deepen_request cache_level failure_message].
      rewrite !Hsm. cbn. rewrite Hsm. eauto. }
  cbn -[nth_step deepen_request cache_level failure_message].
  rewrite !Hsm. cbn -[nth_step deepen_request cache_level failure_message].
  rewrite Ht, Hi.
  cbn -[nth_step deepen_request cache_level failure_message].
  set (tour' := mkTour _ _ _ _).
  assert (exists st', nth_step (steps tour') j = Some st'
                      /\ embedded level' st' = Some text) as (st' & Hs' & He').
  { unfold tour'. cbn [steps].
    apply nth_step_Some in Hs as [Hj0 Hj]. apply nth_step_Some in Hi as [Hi0 Hi].
    destruct (decide (Z.to_nat i = Z.to_nat j)) as [E | Hn].
    - rewrite E in *. rewrite Hj in Hi. injection Hi as <-.
      exists (cache_level level (resp_explanation response) st). split.
      + apply nth_step_Some. split; [exact Hj0|].
        apply list_lookup_insert_eq. eapply lookup_lt_Some; eauto.
      + unfold embedded, cache_level in *. cbn [explanations].
        destruct (decide (level = level')) as [<- | Hl].
        * rewrite He, (truthy_Some text Hne) in Hc. discriminate.
        * rewrite get_set_level_ne by exact Hl.
          destruct (explanations st); [exact He | discriminate].
    - exists st. split; [|exact He]. apply nth_step_Some.
      split; [exact Hj0|]. now rewrite list_lookup_insert_ne. }
  exists tour', st'. split; [|split; assumption].
  destruct (saveTour env tour');
    cbn -[nth_step deepen_request cache_level failure_message];
    rewrite ?Hsm; reflexivity.
Qed.

(** *** Instances *)

(** C9 at work on a tour of five steps. *)
Lemma goToStep_clamps_witness :
  (exists h', goToStep (-3) (sample_host 5) = (h', Returned tt)
              /\ currentStepIndex h' = 0%Z)
  /\ (exists h', goToStep 99 (sample_host 5) = (h', Returned tt)
                 /\ currentStepIndex h' = 4%Z).
Proof.
  split.
  - destruct (goToStep_clamps (sample_host 5) (sample_tour 5) (-3))
      as (h' & Hgo & Hi & _); [reflexivity | cbn; lia |].
    exists h'. split; [exact Hgo | exact Hi].
  - destruct (goToStep_clamps (sample_host 5) (sample_tour 5) 99)
      as (h' & Hgo & Hi & _); [reflexivity | cbn; lia |].
    exists h'. split; [exact Hgo | exact Hi].
Defined.

(** C10 at work: no tour, an index past the end, a negative index. *)
Lemma requestDeepen_without_step_witness :
  handleDeepenRequest failing 0 detailed (mkHost true None 0 [])
  = (mkHost true None 0 [], Returned tt)
  /\ handleDeepenRequest failing 5 detailed (sample_host 5)
     = (sample_host 5, Returned tt)
  /\ handleDeepenRequest failing (-1) detailed (sample_host 5)
     = (sample_host 5, Returned tt).
Proof.
  split; [|split].
  - apply (requestDeepen_without_step failing 0 detailed). now left.
  - apply (requestDeepen_without_step failing 5 detailed). right.
    exists (sample_tour 5). split; [reflexivity | cbn; lia].
  - apply (requestDeepen_without_step failing (-1) detailed). right.
    exists (sample_tour 5). split; [reflexivity | cbn; lia].
Defined.

(** C7 at work: the example of the specification. *)
Lemma getCurrentExplanation_order_witness :
  getCurrentExplanation (sample_app (Some (str "A")) (Some (str "B")))
  = str "A"
  /\ getCurrentExplanation (sample_app None (Some (str "B"))) = str "B"
  /\ getCurrentExplanation (sample_app None None) = str "C".
Proof.
  split; [|split].
  - rewrite (getCurrentExplanation_order
               (sample_app (Some (str "A")) (Some (str "B")))
               (sample_app_tour (Some (str "B")))
               (sample_app_step (Some (str "B"))) eq_refl eq_refl).
    reflexivity.
  - rewrite (getCurrentExplanation_order
               (sample_app None (Some (str "B")))
               (sample_app_tour (Some (str "B")))
               (sample_app_step (Some (str "B"))) eq_refl eq_refl).
    reflexivity.
  - rewrite (getCurrentExplanation_order (sample_app None None)
               (sample_app_tour None) (sample_app_step None)
               eq_refl eq_refl).
    reflexivity.
Defined.


(** C8 at work: the generator fails, then answers. *)
Lemma deepen_failure_is_soft_witness :
  let h' := fst (handleDeepenRequest failing 0 detailed (sample_host 1)) in
  snd (handleDeepenRequest failing 0 detailed (sample_host 1)) = Returned tt
  /\ currentTour h' = Some (sample_tour 1)
  /\ messages (outbox h') = [deepenStarted 0; error failure_message]
  /\ isLoadingDeepen
       (playerState (deliver (messages (outbox h')) initial_app)) = false
  /\ generator_invocations
       (outbox (fst (handleDeepenRequest (answering (str "In depth.")) 0
                       detailed h')))
     = 2.
Proof.
  cbn zeta.
  destruct (deepen_failure_is_soft failing 0 detailed (sample_host 1)
              (sample_tour 1) (sample_step 0 None) (str "network"))
    as (Hret & Htour & _ & Hout & Hmsg & Happ & Hretry); try reflexivity.
  split; [exact Hret|]. split; [exact Htour|].
  split; [rewrite Hout; exact Hmsg|].
  split.
  - rewrite Hout. exact (proj1 (Happ initial_app)).
  - destruct (Hretry (answering (str "In depth."))
                (mkResponse (str "In depth."))) as [Hcalls _];
      [reflexivity|].
    rewrite Hcalls, Hout. reflexivity.
Defined.

End PlayerProofs.

(** ** The tracker over whole runs *)

Module JournalProofs.
Import Js Regex Types Tracker Journal TrackerProofs RegexProofs.

Lemma scheduler_sched s s' :
  sched s' = sched s -> scheduler_ok s -> scheduler_ok s'.
Proof.
  intros E (R & L & K & Q & I).
  split; [eapply registered_sched; eauto|].
  split; [eapply listeners_sched; eauto|].
  unfold sched in E. injection E as Et Ep _ _ _ _ _ Ei.
  unfold keys_scheduled, timers_qualify, idle_when_stopped.
  rewrite Et, Ep, Ei. auto.
Qed.

Lemma schedule_scheduler doc ch now s :
  scheme doc = str "file" ->
  shouldIgnoreFile (fsPath doc) = false ->
  skipped ch = false ->
  timers_registered s -> keys_scheduled s /\ timers_qualify s ->
  keys_scheduled (schedule doc ch now s)
  /\ timers_qualify (schedule doc ch now s).
Proof.
  intros Hs Hi Hk R [K Q].
  destruct (schedule_spec doc ch now s) as (Et & Ep & _ & _).
  cbn zeta in Et, Ep.
  set (key := (fsPath doc, start_line ch)) in *.
  assert (forall h t, timers s !! h = Some t -> t_key t <> key ->
            match pendingChanges s !! key with
            | Some h0 => delete h0 (timers s)
            | None => timers s
            end !! h = Some t) as Hold.
  { intros h t Ht Hne. destruct (pendingChanges s !! key) as [h0|] eqn:E;
      [|exact Ht].
    rewrite lookup_delete_ne; [exact Ht|]. intros ->.
    destruct (K _ _ E) as (t0 & Ht0 & Hk0). congruence. }
  split.
  - intros k h. rewrite Ep, Et.
    destruct (decide (key = k)) as [<- | Hne].
    + rewrite lookup_insert_eq. intros [= <-].
      rewrite lookup_insert_eq. eexists. split; reflexivity.
    + rewrite lookup_insert_ne by exact Hne. intros Hp.
      destruct (K _ _ Hp) as (t & Ht & Hkt). exists t. split; [|exact Hkt].
      destruct (R _ _ Ht) as [Hlt _].
      rewrite lookup_insert_ne by lia. apply Hold; [exact Ht | congruence].
  - intros h t. rewrite Et.
    destruct (decide (next_handle s = h)) as [<- | Hne].
    + rewrite lookup_insert_eq. intros [= <-]. repeat split; assumption.
    + rewrite lookup_insert_ne by exact Hne.
      destruct (pendingChanges s !! key) as [h0|]; [|apply Q].
      intros Ht. apply lookup_delete_Some in Ht as [_ Ht]. eapply Q; eauto.
Qed.

Lemma handleDocumentChange_scheduler ev now s :
  timers_registered s -> keys_scheduled s /\ timers_qualify s ->
  keys_scheduled (handleDocumentChange ev now s)
  /\ timers_qualify (handleDocumentChange ev now s).
Proof.
  unfold handleDocumentChange. intros R KQ.
  destruct (bool_decide_reflect (scheme (document ev) = str "file"))
    as [Hs|]; cbn [negb]; [|exact KQ].
  destruct (_ =? 0); [exact KQ|].
  destruct (shouldIgnoreFile _) eqn:Hi; [exact KQ|].
  revert s R KQ. induction (contentChanges ev) as [|ch l IH]; intros s R KQ;
    [exact KQ|].
  cbn [fold_left]. destruct (skipped ch) eqn:Hk; [now apply IH|].
  apply IH; [now apply schedule_registered|].
  now apply schedule_scheduler.
Qed.

Lemma handleDocumentChange_isTracking ev now s :
  isTracking (handleDocumentChange ev now s) = isTracking s.
Proof.
  unfold handleDocumentChange.
  destruct (negb _); [reflexivity|].
  destruct (_ =? 0); [reflexivity|].
  destruct (shouldIgnoreFile _); [reflexivity|].
  revert s. induction (contentChanges ev) as [|ch l IH]; intros s;
    [reflexivity|].
  cbn [fold_left]. rewrite IH. destruct (skipped ch); [reflexivity|].
  unfold schedule. now destruct (pendingChanges s !! _).
Qed.

Lemma timer_fire_isTracking h now newid s :
  isTracking (timer_fire h now newid s) = isTracking s.
Proof.
  unfold timer_fire. destruct (timers s !! h) as [t|]; [|reflexivity].
  destruct (deadline t <=? now)%Z; [|reflexivity].
  pose proof (sched_processChange (t_document t) (t_change t) now newid
                (set_timers (delete h (timers s)) s)) as E.
  unfold sched in E. injection E as _ _ _ _ _ _ _ Et. exact Et.
Qed.

Lemma timer_fire_scheduler h now newid s :
  timers_registered s -> keys_scheduled s /\ timers_qualify s ->
  keys_scheduled (timer_fire h now newid s)
  /\ timers_qualify (timer_fire h now newid s).
Proof.
  intros R [K Q]. unfold timer_fire.
  destruct (timers s !! h) as [t|] eqn:Ht; [|now split].
  destruct (deadline t <=? now)%Z; [|now split].
  pose proof (sched_processChange (t_document t) (t_change t) now newid
                (set_timers (delete h (timers s)) s)) as E.
  set (s1 := processChange _ _ _ _ _) in *.
  unfold sched in E. injection E as Et Ep _ _ _ _ _ _.
  cbn [timers pendingChanges set_timers] in Et, Ep.
  unfold keys_scheduled, timers_qualify.
  cbn [timers pendingChanges set_pendingChanges]. rewrite Et, Ep. split.
  - intros k h' Hp. apply lookup_delete_Some in Hp as [Hne Hp].
    destruct (K _ _ Hp) as (t' & Ht' & Hk'). exists t'. split; [|exact Hk'].
    rewrite lookup_delete_ne; [exact Ht'|]. intros <-. congruence.
  - intros h' t' Ht'. apply lookup_delete_Some in Ht' as [_ Ht'].
    eapply Q; eauto.
Qed.

Lemma step_scheduler s e : scheduler_ok s -> scheduler_ok (step s e).
Proof.
  intros (R & L & K & Q & I).
  destruct (step_well_formed s e (conj R L)) as [R' L'].
  split; [exact R'|]. split; [exact L'|].
  assert (sched (step s e) = sched s ->
          keys_scheduled (step s e) /\ timers_qualify (step s e)
          /\ idle_when_stopped (step s e)) as Hother.
  { intros E.
    destruct (scheduler_sched _ _ E (conj R (conj L (conj K (conj Q I)))))
      as (_ & _ & H). exact H. }
  destruct e as [now newid|now|ev now|doc|h now newid|changeId|n res|n| |b];
    try (apply Hother, sched_step_other; exact Logic.I); clear Hother.
  - cbn [step]. unfold startTracking. destruct (isTracking s) eqn:Htr.
    { auto. }
    split; [exact K|]. split; [exact Q|]. intros H. discriminate H.
  - cbn [step]. destruct (isTracking s) eqn:Htr.
    2:{ unfold stopTracking. rewrite Htr. cbn [negb fst]. auto. }
    destruct (stopTracking_spec now s Htr (proj1 L))
      as (Ht & _ & _ & Hp & Htm & _).
    assert (timers (fst (stopTracking now s)) = ∅) as Hempty.
    { apply map_eq. intros h. rewrite Htm, lookup_empty.
      destruct (bool_decide_reflect
                  (h ∈ (map_to_list (pendingChanges s)).*2))
        as [Hin | Hnin]; [reflexivity|].
      destruct (timers s !! h) as [t|] eqn:E; [|reflexivity].
      destruct Hnin. destruct (R h t E) as [_ Hk].
      apply list_elem_of_fmap. exists (t_key t, h). split; [reflexivity|].
      now apply elem_of_map_to_list. }
    split; [|split].
    + intros k h. rewrite Hp, lookup_empty. discriminate.
    + intros h t. rewrite Hempty, lookup_empty. discriminate.
    + intros _. split; assumption.
  - cbn [step]. destruct (isTracking s) eqn:Htr.
    + assert (forall l s, timers_registered s ->
                keys_scheduled s /\ timers_qualify s ->
                isTracking s = true ->
                let s' := fold_left
                            (fun s (_ : nat) => handleDocumentChange ev now s)
                            l s in
                (keys_scheduled s' /\ timers_qualify s')
                /\ isTracking s' = true) as H.
      { clear. induction l as [|x l IH]; intros s R KQ Htr; [now split|].
        cbn [fold_left]. apply IH.
        - now apply handleDocumentChange_registered.
        - now apply handleDocumentChange_scheduler.
        - now rewrite handleDocumentChange_isTracking. }
      destruct (H (edit_listeners s) s R (conj K Q) Htr) as [[K' Q'] Htr'].
      split; [exact K'|]. split; [exact Q'|]. intros E. congruence.
    + destruct L as (_ & _ & _ & _ & L5). rewrite Htr in L5. rewrite L5.
      cbn [fold_left]. auto.
  - cbn [step].
    destruct (timer_fire_scheduler h now newid s R (conj K Q)) as [K' Q'].
    split; [exact K'|]. split; [exact Q'|].
    intros Htr. rewrite timer_fire_isTracking in Htr.
    destruct (I Htr) as [Et Ep]. unfold timer_fire.
    rewrite Et, lookup_empty. now split.
Qed.

Lemma scheduler_init : scheduler_ok init.
Proof.
  destruct (run_well_formed []) as [R L].
  split; [exact R|]. split; [exact L|]. split; [|split].
  - intros k h. cbn. rewrite lookup_empty. discriminate.
  - intros h t. cbn. rewrite lookup_empty. discriminate.
  - now intros _.
Qed.

Lemma run_scheduler s es : scheduler_ok s -> scheduler_ok (run s es).
Proof.
  revert s. induction es as [|e es IH]; intros s H; [exact H|].
  cbn [run fold_left]. apply IH, step_scheduler, H.
Qed.


(** *** Heaps after the operations *)

Lemma heap_park t s : heap (park t s) = heap s.
Proof. destruct t as [[r rest|[|x rest]]|]; reflexivity. Qed.

Lemma heap_explainChange_begin changeId s r c :
  eligible changeId s = Some r -> heap s !! r = Some c ->
  heap (fst (explainChange_begin changeId s))
  = <[r := with_status (if workspaceFolders s then explaining else error) c]>
      (heap s).
Proof.
  intros He Hc. unfold explainChange_begin. rewrite He.
  unfold explain_prelude, notifyChangeListeners.
  assert (heap (write_status r explaining s) !! r
          = Some (with_status explaining c)) as H1
    by now apply lookup_write_status.
  rewrite H1. cbn [heap emit workspaceFolders].
  assert (workspaceFolders (write_status r explaining s) = workspaceFolders s)
    as -> by (unfold write_status; now rewrite Hc).
  destruct (workspaceFolders s).
  - rewrite ?H1. cbn [fst heap emit]. unfold write_status. now rewrite Hc.
  - rewrite explain_catch_eq, explain_epilogue_eq. cbn [fst].
    rewrite heap_notifyJournalListeners, heap_notifyChangeListeners.
    unfold write_status at 1. cbn [heap emit]. rewrite H1.
    cbn [heap emit set_heap]. unfold write_status. rewrite Hc.
    cbn [heap emit set_heap]. now rewrite list_insert_insert_eq.
Qed.

Lemma heap_explainChange_settle r res s c :
  heap s !! r = Some c ->
  heap (explainChange_settle r res s)
  = <[r := match res with
           | Returned response =>
               with_status explained
                 (with_explanation (resp_explanation response) c)
           | Thrown _ => with_status error c
           end]> (heap s).
Proof.
  intros Hc. unfold explainChange_settle, explain_finish. unfold_monad.
  destruct res as [response | e]; cbn [fst].
  - unfold explain_epilogue. unfold_monad. cbn [fst].
    rewrite heap_notifyJournalListeners, heap_notifyChangeListeners.
    unfold write_status.
    rewrite (lookup_update_change _ _ _ _ Hc). cbn [heap emit set_heap].
    unfold update_change. rewrite Hc. cbn [heap set_heap].
    now rewrite list_insert_insert_eq.
  - rewrite explain_catch_eq, explain_epilogue_eq. cbn [fst].
    rewrite heap_notifyJournalListeners, heap_notifyChangeListeners.
    unfold write_status. cbn [heap emit]. now rewrite Hc.
Qed.

Lemma processChange_record doc ch now newid s :
  heap (processChange doc ch now newid s)
  = heap s ++ [new_record doc ch now newid].
Proof.
  unfold processChange.
  rewrite heap_notifyJournalListeners, heap_notifyChangeListeners.
  now destruct (currentJournal _).
Qed.

(** *** Records evolve by the steps of [explainChange] *)

Lemma evolves_refl s : evolves s s.
Proof. intros r c Hc. exists c. split; [exact Hc | reflexivity]. Qed.

Lemma evolves_trans s1 s2 s3 : evolves s1 s2 -> evolves s2 s3 -> evolves s1 s3.
Proof.
  intros H1 H2 r c Hc. destruct (H1 r c Hc) as (c1 & Hc1 & P1).
  destruct (H2 r c1 Hc1) as (c2 & Hc2 & P2). exists c2.
  split; [exact Hc2 | now transitivity c1].
Qed.

Lemma evolves_same_heap s s' : heap s' = heap s -> evolves s s'.
Proof. intros E r c Hc. exists c. rewrite E. now split. Qed.

Lemma evolves_insert r c c' s s' :
  heap s !! r = Some c -> heap s' = <[r := c']> (heap s) ->
  rtc rec_step c c' -> evolves s s'.
Proof.
  intros Hc E P r' c0 Hc0. rewrite E.
  destruct (decide (r = r')) as [<- | Hne].
  - exists c'. rewrite list_lookup_insert_eq by (eapply lookup_lt_Some; eauto).
    split; [reflexivity | congruence].
  - exists c0. rewrite list_lookup_insert_ne by exact Hne. now split.
Qed.

Lemma explainChange_begin_evolves changeId s :
  evolves s (fst (explainChange_begin changeId s)).
Proof.
  destruct (eligible changeId s) as [r|] eqn:He.
  2:{ unfold explainChange_begin. rewrite He. apply evolves_refl. }
  pose proof He as He'. apply eligible_Some in He' as (c & _ & Hc & Hst).
  eapply evolves_insert; [exact Hc | exact (heap_explainChange_begin _ _ _ _ He Hc)|].
  destruct (workspaceFolders s).
  - apply rtc_once. now constructor.
  - apply rtc_l with (with_status explaining c); [now constructor|].
    apply rtc_once. exact (rec_failed (with_status explaining c) eq_refl).
Qed.

Lemma spawn_evolves ids s : evolves s (spawn ids s).
Proof.
  unfold spawn, loop_turn. destruct ids as [|changeId rest];
    [apply evolves_refl|].
  pose proof (explainChange_begin_evolves changeId s) as H.
  destruct (explainChange_begin changeId s) as [s' b]. cbn [fst] in H.
  eapply evolves_trans; [exact H|]. apply evolves_same_heap.
  destruct b; apply heap_park.
Qed.

Lemma settle_evolves n res s : invariant s -> evolves s (settle n res s).
Proof.
  intros I. unfold settle. destruct (inflight s !! n) as [t|] eqn:Hn;
    [|apply evolves_refl].
  destruct t as [r rest | rest]; [|apply evolves_refl].
  destruct (invariant_resume n _ s I Hn) as (_ & (c & Hc & Hst) & _).
  cbn [heap set_inflight] in Hc.
  eapply evolves_insert; [exact Hc| |].
  - rewrite heap_park.
    exact (heap_explainChange_settle r res
             (set_inflight (delete n (inflight s)) s) c Hc).
  - apply rtc_once. destruct res; now constructor.
Qed.

Lemma continue_evolves n s : evolves s (continue n s).
Proof.
  unfold continue. destruct (inflight s !! n) as [[r rest | ids]|];
    try apply evolves_refl.
  exact (spawn_evolves ids (set_inflight (delete n (inflight s)) s)).
Qed.

Lemma timer_fire_heap h now newid s :
  heap (timer_fire h now newid s)
  = match timers s !! h with
    | Some t =>
        if (deadline t <=? now)%Z
        then heap s ++ [new_record (t_document t) (t_change t) now newid]
        else heap s
    | None => heap s
    end.
Proof.
  unfold timer_fire. destruct (timers s !! h) as [t|]; [|reflexivity].
  destruct (deadline t <=? now)%Z; [|reflexivity].
  cbn [heap set_pendingChanges]. now rewrite processChange_record.
Qed.

Lemma step_evolves s e : invariant s -> evolves s (step s e).
Proof.
  intros I.
  destruct e as [now newid|now|ev now|doc|h now newid|changeId|n res|n| |b];
    cbn [step].
  - apply evolves_same_heap, heap_of_core, core_startTracking.
  - apply evolves_same_heap, heap_of_core, core_stopTracking.
  - apply evolves_same_heap, heap_of_core, core_fold_left.
    intros. apply core_handleDocumentChange.
  - generalize (save_listeners s) as l. clear I. intros l. revert s.
    induction l as [|x l IH]; intros s; [apply evolves_refl|].
    cbn [fold_left]. eapply evolves_trans; [|apply IH].
    apply spawn_evolves.
  - intros r c Hc. exists c. split; [|reflexivity].
    rewrite timer_fire_heap. destruct (timers s !! h) as [t|]; [|exact Hc].
    destruct (deadline t <=? now)%Z; [|exact Hc].
    rewrite lookup_app_l; [exact Hc | eapply lookup_lt_Some; eauto].
  - apply spawn_evolves.
  - now apply settle_evolves.
  - apply continue_evolves.
  - apply evolves_same_heap, heap_of_core, core_clear.
  - now apply evolves_same_heap.
Qed.

(** A record that appears was made by a timer. *)
Lemma step_born s e r c :
  invariant s -> heap s !! r = None -> heap (step s e) !! r = Some c ->
  exists h t now newid,
    e = EvTimer h now newid /\ timers s !! h = Some t
    /\ c = new_record (t_document t) (t_change t) now newid.
Proof.
  intros I Hnone Hsome.
  destruct e as [now newid|now|ev now|doc|h now newid|changeId|n res|n| |b];
    try (exfalso;
         apply lookup_ge_None in Hnone; apply lookup_lt_Some in Hsome;
         rewrite step_heap_length in Hsome by (discriminate || exact I);
         lia).
  cbn [step] in Hsome. rewrite timer_fire_heap in Hsome.
  destruct (timers s !! h) as [t|] eqn:Ht; [|congruence].
  destruct (deadline t <=? now)%Z; [|congruence].
  apply lookup_app_Some in Hsome as [H | [_ H]]; [congruence|].
  apply list_lookup_singleton_Some in H as [_ <-].
  exists h, t, now, newid. auto.
Qed.

(** A property of records that the steps of [explainChange] keep and that
    new records have holds of every record of every run. *)
Lemma run_records (Q : CodeChange -> Prop) :
  (forall c c', rec_step c c' -> Q c -> Q c') ->
  (forall t now newid,
     qualifying t -> Q (new_record (t_document t) (t_change t) now newid)) ->
  forall es r c, heap (run init es) !! r = Some c -> Q c.
Proof.
  intros Hstep Hnew.
  assert (forall c c', rtc rec_step c c' -> Q c -> Q c') as Hrtc.
  { induction 1; eauto. }
  assert (forall es s,
            invariant s -> scheduler_ok s ->
            (forall r c, heap s !! r = Some c -> Q c) ->
            forall r c, heap (run s es) !! r = Some c -> Q c) as H.
  { induction es as [|e es IH]; intros s I S HQ; [exact HQ|].
    cbn [run fold_left]. apply IH.
    - now apply step_invariant.
    - now apply step_scheduler.
    - intros r c Hc. destruct (heap s !! r) as [c0|] eqn:E.
      + destruct (step_evolves s e I r c0 E) as (c' & Hc' & P).
        assert (c' = c) as -> by congruence. eapply Hrtc; eauto.
      + destruct (step_born s e r c I E Hc) as (h & t & now & newid & _ & Ht & ->).
        apply Hnew. destruct S as (_ & _ & _ & Q' & _). eapply Q'; eauto. }
  intros es. apply H.
  - apply invariant_init.
  - apply scheduler_init.
  - intros r c. cbn. rewrite lookup_nil. discriminate.
Qed.

Lemma run_evolves s es : invariant s -> evolves s (run s es).
Proof.
  revert s. induction es as [|e es IH]; intros s I; [apply evolves_refl|].
  cbn [run fold_left]. eapply evolves_trans; [now apply step_evolves|].
  apply IH. now apply step_invariant.
Qed.

Lemma explained_iff_step c c' :
  rec_step c c' -> explained_iff c -> explained_iff c'.
Proof.
  unfold explained_iff. intros [c0 Hst | c0 e Hst | c0 Hst] [H1 H2]; cbn.
  - split; [|discriminate]. intros Hx. apply H1 in Hx.
    destruct Hst as [E | E]; rewrite E in Hx; discriminate.
  - split; [reflexivity | eauto].
  - split; [|discriminate]. intros Hx. apply H1 in Hx. congruence.
Qed.

Lemma well_formed_step c c' : rec_step c c' -> well_formed c -> well_formed c'.
Proof. intros [c0 Hst | c0 e Hst | c0 Hst] W; exact W. Qed.

Lemma well_formed_new t now newid :
  qualifying t -> well_formed (new_record (t_document t) (t_change t) now newid).
Proof.
  intros (_ & _ & _ & Hk). unfold skipped in Hk.
  apply orb_false_iff in Hk as [H1 H2].
  apply Nat.eqb_neq in H1. apply andb_false_iff in H2.
  unfold well_formed, new_record, classify. cbn.
  repeat split; [exact H1|].
  destruct H2 as [H2 | H2]; [left; now apply Nat.eqb_neq|right].
  apply Nat.ltb_ge in H2. exact H2.
Qed.


Ltac break_match :=
  repeat match goal with
         | |- context [match ?x with _ => _ end] => destruct x
         end.

Lemma journal_write_status r st s :
  currentJournal (write_status r st s) = currentJournal s.
Proof. unfold write_status. now destruct (heap s !! r). Qed.

Lemma journal_update_change r f s :
  currentJournal (update_change r f s) = currentJournal s.
Proof. unfold update_change. now destruct (heap s !! r). Qed.

Lemma journal_notifyChange r s :
  currentJournal (notifyChangeListeners r s) = currentJournal s.
Proof. unfold notifyChangeListeners. now destruct (heap s !! r). Qed.

Lemma journal_notifyJournal s :
  currentJournal (notifyJournalListeners s) = currentJournal s.
Proof.
  unfold notifyJournalListeners.
  destruct (currentJournal s) eqn:E; [exact E | now rewrite E].
Qed.

Lemma journal_park t s : currentJournal (park t s) = currentJournal s.
Proof. destruct t as [[r rest|[|x rest]]|]; reflexivity. Qed.

Lemma journal_explainChange_begin changeId s :
  currentJournal (fst (explainChange_begin changeId s)) = currentJournal s.
Proof.
  unfold explainChange_begin. destruct (eligible changeId s) as [r|];
    [|reflexivity].
  unfold explain_prelude.
  destruct (workspaceFolders _); [destruct (heap _ !! r)|];
    cbn [fst];
    rewrite ?explain_catch_eq, ?explain_epilogue_eq; cbn [fst];
    cbn [currentJournal emit];
    now rewrite ?journal_notifyJournal, ?journal_notifyChange,
      ?journal_write_status; cbn [currentJournal emit];
      rewrite ?journal_notifyChange, ?journal_write_status.
Qed.

Lemma journal_explainChange_settle r res s :
  currentJournal (explainChange_settle r res s) = currentJournal s.
Proof.
  unfold explainChange_settle, explain_finish. unfold_monad.
  destruct res as [response | e]; cbn [fst].
  - unfold explain_epilogue. unfold_monad. cbn [fst].
    now rewrite journal_notifyJournal, journal_notifyChange,
      journal_write_status, journal_update_change.
  - rewrite explain_catch_eq, explain_epilogue_eq. cbn [fst].
    now rewrite journal_notifyJournal, journal_notifyChange,
      journal_write_status.
Qed.

Lemma journal_spawn ids s : currentJournal (spawn ids s) = currentJournal s.
Proof.
  unfold spawn, loop_turn. destruct ids as [|changeId rest]; [reflexivity|].
  pose proof (journal_explainChange_begin changeId s) as H.
  destruct (explainChange_begin changeId s) as [s' b]. cbn [fst] in H.
  destruct b; now rewrite journal_park.
Qed.

Lemma journal_settle n res s : currentJournal (settle n res s) = currentJournal s.
Proof.
  unfold settle. destruct (inflight s !! n) as [[r rest | rest]|];
    try reflexivity.
  now rewrite journal_park, journal_explainChange_settle.
Qed.

Lemma journal_continue n s : currentJournal (continue n s) = currentJournal s.
Proof.
  unfold continue. destruct (inflight s !! n) as [[r rest | ids]|];
    try reflexivity.
  now rewrite journal_spawn.
Qed.

Lemma journal_handleDocumentChange ev now s :
  currentJournal (handleDocumentChange ev now s) = currentJournal s.
Proof.
  unfold handleDocumentChange.
  destruct (negb _); [reflexivity|].
  destruct (_ =? 0); [reflexivity|].
  destruct (shouldIgnoreFile _); [reflexivity|].
  revert s. induction (contentChanges ev) as [|ch l IH]; intros s;
    [reflexivity|].
  cbn [fold_left]. rewrite IH. destruct (skipped ch); [reflexivity|].
  unfold schedule. now destruct (pendingChanges s !! _).
Qed.

Lemma journal_processChange doc ch now newid s :
  currentJournal (processChange doc ch now newid s)
  = push_change (length (heap s)) <$> currentJournal s.
Proof.
  unfold processChange. rewrite journal_notifyJournal, journal_notifyChange.
  cbn [currentJournal set_changes set_heap].
  destruct (currentJournal s) eqn:E; cbn; [reflexivity | now rewrite E].
Qed.

Lemma journal_fold_left {A} (f : state -> A -> state) l s :
  (forall s x, currentJournal (f s x) = currentJournal s) ->
  currentJournal (fold_left f l s) = currentJournal s.
Proof.
  intros H. revert s. induction l as [|x l IH]; intros s; [reflexivity|].
  cbn [fold_left]. now rewrite IH, H.
Qed.

Lemma isTracking_fold_left {A} (f : state -> A -> state) l s :
  (forall s x, isTracking (f s x) = isTracking s) ->
  isTracking (fold_left f l s) = isTracking s.
Proof.
  intros H. revert s. induction l as [|x l IH]; intros s; [reflexivity|].
  cbn [fold_left]. now rewrite IH, H.
Qed.

Lemma isTracking_sched s s' : sched s' = sched s -> isTracking s' = isTracking s.
Proof. unfold sched. now intros [= _ _ _ _ _ _ _ ->]. Qed.

Lemma journal_same s s' :
  currentJournal s' = currentJournal s -> isTracking s' = isTracking s ->
  length (heap s') = length (heap s) ->
  journal_ok s -> journal_ok s'.
Proof. unfold journal_ok. now intros -> -> ->. Qed.

Lemma step_journal s e :
  invariant s -> listeners_ok s -> journal_ok s -> journal_ok (step s e).
Proof.
  intros I L J.
  destruct e as [now newid|now|ev now|doc|h now newid|changeId|n res|n| |b].
  - cbn [step]. unfold startTracking. destruct (isTracking s) eqn:Htr;
      [exact J|].
    split; [now split|]. cbn. intros j [= <-]. cbn. split; [reflexivity|].
    exists (length (heap s)). split; [lia|]. now rewrite Nat.sub_diag.
  - cbn [step]. destruct (isTracking s) eqn:Htr.
    2:{ unfold stopTracking. now rewrite Htr. }
    destruct (stopTracking_spec now s Htr (proj1 L)) as (Ht & Hj & _).
    split.
    + rewrite Ht, Hj. split; [discriminate | now intros []].
    + intros j. rewrite Hj. discriminate.
  - apply (journal_same s); [| |now apply step_heap_length|exact J]; cbn [step].
    + apply journal_fold_left. intros. apply journal_handleDocumentChange.
    + apply isTracking_fold_left. intros. apply handleDocumentChange_isTracking.
  - apply (journal_same s); [| |now apply step_heap_length|exact J].
    + cbn [step]. apply journal_fold_left. intros. apply journal_spawn.
    + now apply isTracking_sched, sched_step_other.
  - cbn [step]. unfold timer_fire.
    destruct (timers s !! h) as [t|]; [|exact J].
    destruct (deadline t <=? now)%Z; [|exact J].
    destruct J as [J1 J2]. unfold journal_ok.
    cbn [currentJournal isTracking heap set_pendingChanges].
    rewrite processChange_record. cbn [heap set_timers].
    pose proof (sched_processChange (t_document t) (t_change t) now newid
                  (set_timers (delete h (timers s)) s)) as E.
    apply isTracking_sched in E. cbn [isTracking set_timers] in E. rewrite E.
    rewrite journal_processChange. cbn [currentJournal heap set_timers].
    destruct (currentJournal s) as [j|] eqn:Ej; cbn [fmap option_fmap option_map].
    + split; [split; [now eexists | intros _; now apply J1]|].
      intros j' [= <-]. destruct (J2 j eq_refl) as (He & a & Ha & Hl).
      split; [exact He|]. exists a. rewrite length_app. cbn [length].
      split; [lia|]. cbn [j_changes push_change]. rewrite Hl.
      replace (length (heap s) + 1 - a) with (S (length (heap s) - a)) by lia.
      rewrite seq_S. do 2 f_equal. lia.
    + split; [exact J1|]. discriminate.
  - apply (journal_same s); [| |now apply step_heap_length|exact J].
    + cbn [step]. apply journal_spawn.
    + now apply isTracking_sched, sched_step_other.
  - apply (journal_same s); [| |now apply step_heap_length|exact J].
    + cbn [step]. apply journal_settle.
    + now apply isTracking_sched, sched_step_other.
  - apply (journal_same s); [| |now apply step_heap_length|exact J].
    + cbn [step]. apply journal_continue.
    + now apply isTracking_sched, sched_step_other.
  - cbn [step]. unfold clear. destruct J as [J1 J2]. unfold journal_ok.
    cbn [currentJournal isTracking heap set_changes].
    destruct (currentJournal s) as [j|] eqn:Ej;
      cbn [currentJournal isTracking heap set_changes set_currentJournal].
    + split; [split; [now eexists | intros _; now apply J1]|].
      intros j' [= <-]. destruct (J2 j eq_refl) as (He & _).
      split; [exact He|]. exists (length (heap s)).
      split; [lia|]. now rewrite Nat.sub_diag.
    + rewrite Ej. split; [exact J1 | discriminate].
  - exact J.
Qed.

Lemma run_journal es : journal_ok (run init es).
Proof.
  assert (forall es s, invariant s -> scheduler_ok s -> journal_ok s ->
            journal_ok (run s es)) as H.
  { clear. induction es as [|e es IH]; intros s I S J; [exact J|].
    cbn [run fold_left]. apply IH.
    - now apply step_invariant.
    - now apply step_scheduler.
    - apply step_journal; [exact I | apply S | exact J]. }
  apply H.
  - apply invariant_init.
  - apply scheduler_init.
  - split; [split; [discriminate | now intros []]|]. discriminate.
Qed.


(** X1.  In every run the debounce table and the timer queue describe each
    other: a key is registered with a handle exactly when that handle is a
    live timer set for that key, no two live timers have the same key, and
    every live timer was set for an edit of a [file] document whose path is
    not ignored and whose text passed the two filters, under the key made of
    that path and the line of the edit. *)
Theorem debounce_table_exact (es : list event) :
  let s := run init es in
  (forall k h,
     pendingChanges s !! k = Some h
     <-> exists t, timers s !! h = Some t /\ t_key t = k)
  /\ (forall h1 h2 t1 t2,
        timers s !! h1 = Some t1 -> timers s !! h2 = Some t2 ->
        t_key t1 = t_key t2 -> h1 = h2)
  /\ (forall h t, timers s !! h = Some t -> qualifying t).
Proof.
  cbn zeta. destruct (run_scheduler init es scheduler_init)
    as (R & _ & K & Q & _).
  split; [|split; [|exact Q]].
  - intros k h. split; [apply K|].
    intros (t & Ht & <-). now apply R.
  - intros h1 h2 t1 t2 H1 H2 E.
    destruct (R _ _ H1) as [_ P1]. destruct (R _ _ H2) as [_ P2].
    congruence.
Qed.

(** X2.  While tracking is off, in any run: no timer is live, the debounce
    table is empty, no edit listener is registered; an edit or a timer event
    changes nothing, and no event of any kind creates a record. *)
Theorem nothing_recorded_while_stopped (es : list event) :
  let s := run init es in
  isTracking s = false ->
  timers s = ∅ /\ pendingChanges s = ∅ /\ edit_listeners s = []
  /\ (forall ev now, step s (EvEdit ev now) = s)
  /\ (forall h now newid, step s (EvTimer h now newid) = s)
  /\ (forall e, length (heap (step s e)) = length (heap s)).
Proof.
  cbn zeta. intros Htr.
  destruct (run_scheduler init es scheduler_init)
    as (_ & (_ & _ & _ & _ & L5) & _ & _ & I).
  destruct (run_invariant init es invariant_init) as [Inv _].
  destruct (I Htr) as [Et Ep]. rewrite Htr in L5.
  assert (forall h now newid,
            step (run init es) (EvTimer h now newid) = run init es) as Hfire.
  { intros h now newid. cbn [step]. unfold timer_fire.
    now rewrite Et, lookup_empty. }
  split; [exact Et|]. split; [exact Ep|]. split; [exact L5|].
  split; [|split; [exact Hfire|]].
  - intros ev now. cbn [step]. now rewrite L5.
  - intros e.
    destruct e as [now newid|now|ev now|doc|h now newid|changeId|n res|n| |b];
      try (apply step_heap_length; [discriminate | exact Inv]).
    now rewrite Hfire.
Qed.

(** X3.  In every run a record has an explanation exactly when its status is
    [explained]. *)
Theorem explanation_iff_explained (es : list event) (r : nat)
  (c : CodeChange) :
  heap (run init es) !! r = Some c ->
  (is_Some (explanation c) <-> status c = explained).
Proof.
  apply (run_records explained_iff).
  - apply explained_iff_step.
  - intros t now newid _. split; [intros [x Hx]|]; discriminate.
Qed.

(** X4.  In every run each record is as [processChange] made it: an addition
    whose range ends as many lines after its start as its code has lines,
    whose source is the classification of its code, and whose code is not
    blank and is either longer than one line or at least 10 characters
    long. *)
Theorem records_are_well_formed (es : list event) (r : nat) (c : CodeChange) :
  heap (run init es) !! r = Some c ->
  changeType c = added
  /\ endLine (range c)
     = (startLine (range c) + Z.of_nat (length (split LF (code c))) - 1)%Z
  /\ source c = Some (classify (code c))
  /\ length (trim (code c)) <> 0
  /\ (length (split LF (code c)) <> 1 \/ 10 <= length (code c)).
Proof.
  apply (run_records well_formed).
  - apply well_formed_step.
  - intros t now newid. apply well_formed_new.
Qed.

Lemma rec_step_fields c c' :
  rtc rec_step c c' ->
  id c' = id c /\ timestamp c' = timestamp c /\ filePath c' = filePath c
  /\ changeType c' = changeType c /\ range c' = range c /\ code c' = code c
  /\ source c' = source c.
Proof.
  induction 1 as [c | c c1 c2 Hs _ IH]; [now repeat split|].
  destruct IH as (? & ? & ? & ? & ? & ? & ?).
  destruct Hs; cbn in *; now repeat split.
Qed.

(** X5.  A record keeps what it was made with: whatever happens after a
    state of a run, the record is still in the heap with the same id,
    timestamp, path, change type, range, code and source; and an
    explanation, once set, is never replaced. *)
Theorem records_keep_their_fields (es es' : list event) (r : nat)
  (c : CodeChange) :
  heap (run init es) !! r = Some c ->
  exists c',
    heap (run (run init es) es') !! r = Some c'
    /\ id c' = id c /\ timestamp c' = timestamp c /\ filePath c' = filePath c
    /\ changeType c' = changeType c /\ range c' = range c /\ code c' = code c
    /\ source c' = source c
    /\ (forall e, explanation c = Some e ->
          explanation c' = Some e /\ status c' = explained).
Proof.
  intros Hc.
  destruct (run_invariant init es invariant_init) as [Inv _].
  destruct (run_evolves (run init es) es' Inv r c Hc) as (c' & Hc' & P).
  exists c'. split; [exact Hc'|].
  destruct (rec_step_fields c c' P) as (? & ? & ? & ? & ? & ? & ?).
  do 7 (split; [assumption|]).
  intros e He.
  assert (status c = explained) as Hst.
  { apply (run_records explained_iff) in Hc.
    - apply Hc. rewrite He. eauto.
    - apply explained_iff_step.
    - intros t now newid _. split; [intros [x Hx]|]; discriminate. }
  destruct P as [|c0 c1 c2 Hs _]; [now split|].
  exfalso. destruct Hs as [c0 [E | E] | c0 e0 E | c0 E]; congruence.
Qed.

(** X6.  In every run the journal pointer is set exactly while tracking is
    on; the current journal has no session end, and it lists, in the order
    of their creation and without repetition, the latest records: from one
    record on, all the records created, and none created before. *)
Theorem journal_lists_session_records (es : list event) :
  let s := run init es in
  match currentJournal s with
  | Some j =>
      isTracking s = true /\ sessionEnd j = None
      /\ exists a, a <= length (heap s)
           /\ j_changes j = seq a (length (heap s) - a)
  | None => isTracking s = false
  end.
Proof.
  cbn zeta. destruct (run_journal es) as [J1 J2].
  destruct (currentJournal (run init es)) as [j|].
  - split; [apply J1; eauto|]. now apply J2.
  - destruct (isTracking (run init es)); [|reflexivity].
    destruct (proj1 J1 eq_refl) as [x Hx]. discriminate.
Qed.

(** *** getChanges *)

Lemma insert_newest_perm c l : Permutation (insert_newest c l) (c :: l).
Proof.
  induction l as [|x l IH]; [reflexivity|]. cbn [insert_newest].
  destruct (timestamp x <=? timestamp c)%Z; [reflexivity|].
  rewrite IH. apply perm_swap.
Qed.

Lemma insert_newest_sorted c l :
  StronglySorted (fun a b => (timestamp b <= timestamp a)%Z) l ->
  StronglySorted (fun a b => (timestamp b <= timestamp a)%Z)
    (insert_newest c l).
Proof.
  induction 1 as [|x l Hs IH Hx]; [repeat constructor|].
  cbn [insert_newest]. destruct (Z.leb_spec (timestamp x) (timestamp c)).
  - constructor; [now constructor|]. constructor; [assumption|].
    eapply Forall_impl; [exact Hx|]. cbn. intros. lia.
  - constructor; [exact IH|].
    apply (Permutation_Forall (Permutation_sym (insert_newest_perm c l))).
    constructor; [lia | exact Hx].
Qed.

Lemma insert_newest_filter t c l :
  List.filter (fun x => (timestamp x =? t)%Z) (insert_newest c l)
  = List.filter (fun x => (timestamp x =? t)%Z) (c :: l).
Proof.
  induction l as [|x l IH]; [reflexivity|]. cbn [insert_newest].
  destruct (Z.leb_spec (timestamp x) (timestamp c)); [reflexivity|].
  cbn [List.filter] in *. rewrite IH.
  destruct (Z.eqb_spec (timestamp c) t), (Z.eqb_spec (timestamp x) t);
    try reflexivity.
  lia.
Qed.

(** X7.  [getChanges()] returns the records of the map, each once, newest
    first; records with the same timestamp stay in the order in which they
    entered the map. *)
Theorem getChanges_newest_first (s : state) :
  Permutation (getChanges s) (values s)
  /\ StronglySorted (fun a b => (timestamp b <= timestamp a)%Z) (getChanges s)
  /\ (forall t,
        List.filter (fun c => (timestamp c =? t)%Z) (getChanges s)
        = List.filter (fun c => (timestamp c =? t)%Z) (values s)).
Proof.
  unfold getChanges, sort_newest_first.
  induction (values s) as [|c l (IH1 & IH2 & IH3)]; cbn [foldr].
  - split; [reflexivity|]. split; [constructor | reflexivity].
  - split; [|split].
    + rewrite insert_newest_perm. now constructor.
    + now apply insert_newest_sorted.
    + intros t. rewrite insert_newest_filter. cbn [List.filter].
      now rewrite IH3.
Qed.

(** *** shouldIgnoreFile *)

Lemma found_lit w path : found (Str w) path <-> contains w path.
Proof.
  unfold found, contains. split.
  - intros (pre & post & p' & rest & -> & Hm). inversion Hm; subst. eauto.
  - intros (pre & post & ->). eexists pre, _, _, post.
    split; [reflexivity | constructor].
Qed.

Lemma found_lit_end w path : found (Seq (Str w) Eos) path <-> w `suffix_of` path.
Proof.
  unfold found. split.
  - intros (pre & post & p' & rest & -> & Hm). inversion Hm; subst.
    match goal with H : matches (Str _) _ _ _ _ |- _ => inversion H; subst end.
    match goal with H : matches Eos _ _ _ _ |- _ => inversion H; subst end.
    exists pre. now rewrite app_nil_r.
  - intros [pre ->]. eexists pre, w, _, [].
    split; [reflexivity|]. econstructor; [|constructor].
    rewrite <- (app_nil_r w) at 2. constructor.
Qed.

(** X8.  A path is ignored exactly when it contains one of the nine
    fragments (anywhere: [.git] also hides [.github] and [.gitignore]) or
    ends in [.map]. *)
Theorem shouldIgnoreFile_iff (path : list N) :
  shouldIgnoreFile path = true
  <-> (exists w, In w ignored_fragments /\ contains w path)
      \/ str ".map" `suffix_of` path.
Proof.
  unfold shouldIgnoreFile, ignorePatterns, lit. cbn [existsb].
  rewrite !orb_true_iff, !test_true, !found_lit, found_lit_end.
  unfold ignored_fragments. split.
  - intros H. repeat (destruct H as [H | H]; [left; eexists; split; [|exact H]; cbn [In]; tauto|]).
    destruct H as [H | H]; [now right | discriminate].
  - intros [(w & Hin & Hc) | Hs]; [|tauto].
    cbn [In] in Hin.
    repeat (destruct Hin as [<- | Hin]; [tauto|]). destruct Hin.
Qed.

Lemma nothing_recorded_while_stopped_witness :
  isTracking (run init stopped_run) = false
  /\ timers (run init stopped_run) = ∅
  /\ length (heap (step (run init stopped_run)
               (EvTimer 3 9000 (str "c2")))) = 1.
Proof.
  assert (isTracking (run init stopped_run) = false) as H
    by (vm_compute; reflexivity).
  destruct (nothing_recorded_while_stopped stopped_run H)
    as (Et & _ & _ & _ & _ & Hl).
  split; [exact H|]. split; [exact Et|]. rewrite Hl.
  vm_compute. reflexivity.
Defined.


(** *** Instances *)

Lemma explanation_iff_explained_witness :
  exists c,
    heap (run init (first_attempt ++ second_attempt)) !! 0 = Some c
    /\ explanation c = Some (str "Binds the answer.")
    /\ status c = explained.
Proof.
  assert (exists c,
            heap (run init (first_attempt ++ second_attempt)) !! 0 = Some c
            /\ explanation c = Some (str "Binds the answer."))
    as (c & Hc & He) by (vm_compute; eauto).
  exists c. split; [exact Hc|]. split; [exact He|].
  apply (explanation_iff_explained _ _ _ Hc). rewrite He. eauto.
Defined.

Lemma records_are_well_formed_witness :
  exists c,
    heap (run init first_attempt) !! 0 = Some c
    /\ code c = str "const answer = 42;"
    /\ source c = Some (classify (str "const answer = 42;")).
Proof.
  assert (exists c,
            heap (run init first_attempt) !! 0 = Some c
            /\ code c = str "const answer = 42;")
    as (c & Hc & Hcode) by (vm_compute; eauto).
  exists c. split; [exact Hc|]. split; [exact Hcode|].
  destruct (records_are_well_formed _ _ _ Hc) as (_ & _ & Hsrc & _).
  now rewrite <- Hcode.
Defined.

Lemma records_keep_their_fields_witness :
  exists c',
    heap (run (run init (first_attempt ++ second_attempt)) afterwards) !! 0
    = Some c'
    /\ code c' = str "const answer = 42;"
    /\ explanation c' = Some (str "Binds the answer.").
Proof.
  assert (exists c,
            heap (run init (first_attempt ++ second_attempt)) !! 0 = Some c
            /\ code c = str "const answer = 42;"
            /\ explanation c = Some (str "Binds the answer."))
    as (c & Hc & Hcode & He) by (vm_compute; eauto).
  destruct (records_keep_their_fields _ afterwards _ _ Hc)
    as (c' & Hc' & _ & _ & _ & _ & _ & Hcode' & _ & Hexp).
  exists c'. split; [exact Hc'|]. split; [congruence|].
  exact (proj1 (Hexp _ He)).
Defined.

End JournalProofs.

(** ** The journal in the panel *)

Module JournalPanelProofs.
Import Js Regex Types Tracker Journal TrackerProofs JournalProofs JournalPanel.

(** *** What the operations leave of the map and of the workspace *)

Lemma ledger_write_status r st s : ledger (write_status r st s) = ledger s.
Proof. unfold write_status. now destruct (heap s !! r). Qed.

Lemma ledger_update_change r f s : ledger (update_change r f s) = ledger s.
Proof. unfold update_change. now destruct (heap s !! r). Qed.

Lemma ledger_notifyChange r s : ledger (notifyChangeListeners r s) = ledger s.
Proof. unfold notifyChangeListeners. now destruct (heap s !! r). Qed.

Lemma ledger_notifyJournal s : ledger (notifyJournalListeners s) = ledger s.
Proof. unfold notifyJournalListeners. now destruct (currentJournal s). Qed.

Lemma ledger_park t s : ledger (park t s) = ledger s.
Proof. destruct t as [[r rest | [|x rest]]|]; reflexivity. Qed.

Lemma ledger_explainChange_begin changeId s :
  ledger (fst (explainChange_begin changeId s)) = ledger s.
Proof.
  unfold explainChange_begin. destruct (eligible changeId s); [|reflexivity].
  unfold explain_prelude.
  destruct (workspaceFolders _); [destruct (heap _ !! _)|]; cbn [fst];
    rewrite ?explain_catch_eq, ?explain_epilogue_eq; cbn [fst];
    rewrite ?ledger_notifyJournal, ?ledger_notifyChange, ?ledger_write_status;
    change (ledger (emit ?o ?x)) with (ledger x);
    now rewrite ?ledger_notifyChange, ?ledger_write_status.
Qed.

Lemma ledger_explainChange_settle r res s :
  ledger (explainChange_settle r res s) = ledger s.
Proof.
  unfold explainChange_settle, explain_finish. unfold_monad.
  destruct res; cbn [fst].
  - unfold explain_epilogue. unfold_monad. cbn [fst].
    now rewrite ledger_notifyJournal, ledger_notifyChange,
      ledger_write_status, ledger_update_change.
  - rewrite explain_catch_eq, explain_epilogue_eq. cbn [fst].
    now rewrite ledger_notifyJournal, ledger_notifyChange,
      ledger_write_status.
Qed.

Lemma ledger_spawn ids s : ledger (spawn ids s) = ledger s.
Proof.
  unfold spawn, loop_turn. destruct ids as [|changeId rest]; [reflexivity|].
  pose proof (ledger_explainChange_begin changeId s) as Hb.
  destruct (explainChange_begin changeId s) as [s' []]; cbn [fst] in Hb;
    now rewrite ledger_park.
Qed.

Lemma ledger_settle n res s : ledger (settle n res s) = ledger s.
Proof.
  unfold settle. destruct (inflight s !! n) as [[r rest | rest]|];
    [|reflexivity..].
  now rewrite ledger_park, ledger_explainChange_settle.
Qed.

Lemma ledger_continue n s : ledger (continue n s) = ledger s.
Proof.
  unfold continue. destruct (inflight s !! n) as [[r rest | rest]|];
    [reflexivity| |reflexivity].
  now rewrite ledger_spawn.
Qed.

Lemma ledger_fold_left {A} (f : state -> A -> state) l s :
  (forall s x, ledger (f s x) = ledger s) ->
  ledger (fold_left f l s) = ledger s.
Proof.
  intros Hf. revert s. induction l as [|x l IH]; intros s; [reflexivity|].
  cbn [fold_left]. now rewrite IH, Hf.
Qed.

Lemma ledger_foldr {A} (f : A -> state -> state) l s :
  (forall s x, ledger (f x s) = ledger s) ->
  ledger (foldr f s l) = ledger s.
Proof.
  intros Hf. induction l as [|x l IH]; [reflexivity|].
  cbn [foldr]. now rewrite Hf.
Qed.

Lemma ledger_startTracking now newid s :
  ledger (startTracking now newid s) = ledger s.
Proof. unfold startTracking. now destruct (isTracking s). Qed.

Lemma ledger_stopTracking now s :
  ledger (fst (stopTracking now s)) = ledger s.
Proof.
  unfold stopTracking. destruct (isTracking s); [|reflexivity]. cbn [negb].
  set (s1 := set_isTracking false s).
  set (s2 := match documentChangeListener s1 with
             | Some h => dispose h s1
             | None => s1
             end).
  set (s3 := fold_left (fun s w => dispose w s) (fileWatchers s2) s2).
  set (s4 := foldr _ _ _).
  assert (ledger s4 = ledger s) as E.
  { unfold s4. rewrite ledger_foldr by reflexivity.
    change (ledger (set_fileWatchers [] s3)) with (ledger s3).
    unfold s3. rewrite ledger_fold_left by reflexivity.
    unfold s2. now destruct (documentChangeListener s1). }
  change (currentJournal (set_pendingChanges ∅ s4)) with (currentJournal s4).
  now destruct (currentJournal s4).
Qed.

Lemma ledger_handleDocumentChange ev now s :
  ledger (handleDocumentChange ev now s) = ledger s.
Proof.
  unfold handleDocumentChange.
  destruct (negb _); [reflexivity|].
  destruct (_ =? 0); [reflexivity|].
  destruct (shouldIgnoreFile _); [reflexivity|].
  apply ledger_fold_left. intros s0 ch. destruct (skipped ch); [reflexivity|].
  unfold schedule. now destruct (pendingChanges s0 !! _).
Qed.

(** [explainChange], run to its end. *)
Lemma explainChange_returns changeId gen s :
  snd (explainChange changeId gen s) = Returned tt.
Proof.
  rewrite explainChange_cut.
  now destruct (explainChange_begin changeId s) as [s' [| |r req]].
Qed.

Lemma explainChange_skip changeId gen s :
  eligible changeId s = None -> fst (explainChange changeId gen s) = s.
Proof. intros He. unfold explainChange. now rewrite He. Qed.

Lemma ledger_explainChange changeId gen s :
  ledger (fst (explainChange changeId gen s)) = ledger s.
Proof.
  rewrite explainChange_cut.
  pose proof (ledger_explainChange_begin changeId s) as Hb.
  destruct (explainChange_begin changeId s) as [s' [| |r req]];
    cbn [fst] in *; [exact Hb..|].
  now rewrite ledger_explainChange_settle.
Qed.

Lemma journal_explainChange changeId gen s :
  currentJournal (fst (explainChange changeId gen s)) = currentJournal s.
Proof.
  rewrite explainChange_cut.
  pose proof (journal_explainChange_begin changeId s) as Hb.
  destruct (explainChange_begin changeId s) as [s' [| |r req]];
    cbn [fst] in *; [exact Hb..|].
  now rewrite journal_explainChange_settle.
Qed.

Lemma sched_explainChange changeId gen s :
  sched (fst (explainChange changeId gen s)) = sched s.
Proof.
  rewrite explainChange_cut.
  pose proof (sched_explainChange_begin changeId s) as Hb.
  destruct (explainChange_begin changeId s) as [s' [| |r req]];
    cbn [fst] in *; [exact Hb..|].
  now rewrite sched_explainChange_settle.
Qed.

Lemma explainChange_heap changeId gen s r c :
  eligible changeId s = Some r -> heap s !! r = Some c ->
  heap (fst (explainChange changeId gen s))
  = <[r := answered gen (workspaceFolders s) c]> (heap s).
Proof.
  intros He Hc. rewrite explainChange_cut.
  pose proof (heap_explainChange_begin changeId s r c He Hc) as Hb.
  assert (forall s' r' req,
            explainChange_begin changeId s = (s', Awaiting r' req) ->
            r' = r /\ req = explain_request c /\ workspaceFolders s = true)
    as Haw.
  { unfold explainChange_begin. rewrite He. unfold explain_prelude.
    unfold notifyChangeListeners at 1 2 3.
    rewrite (lookup_write_status _ _ _ _ Hc).
    cbn [workspaceFolders emit heap].
    assert (workspaceFolders (write_status r explaining s)
            = workspaceFolders s) as ->
      by (unfold write_status; now rewrite Hc).
    destruct (workspaceFolders s); [|discriminate].
    rewrite (lookup_write_status _ _ _ _ Hc).
    intros s' r' req [= _ <- <-]. auto. }
  destruct (explainChange_begin changeId s) as [s' [| |r' req]] eqn:E;
    cbn [fst] in *.
  - unfold explainChange_begin in E. rewrite He in E.
    destruct (explain_prelude _ _) as [? []]; discriminate.
  - rewrite Hb. unfold answered.
    destruct (workspaceFolders s) eqn:W; [|reflexivity].
    exfalso. unfold explainChange_begin in E. rewrite He in E.
    unfold explain_prelude in E.
    unfold notifyChangeListeners in E at 1 2.
    rewrite (lookup_write_status _ _ _ _ Hc) in E.
    cbn [workspaceFolders emit heap] in E.
    assert (workspaceFolders (write_status r explaining s) = true) as W'
      by (unfold write_status; now rewrite Hc).
    rewrite W' in E. rewrite (lookup_write_status _ _ _ _ Hc) in E.
    discriminate.
  - destruct (Haw _ _ _ eq_refl) as (-> & -> & W). rewrite W in Hb.
    rewrite (heap_explainChange_settle r _ s' (with_status explaining c)).
    + rewrite Hb, list_insert_insert_eq. unfold answered. rewrite W.
      now destruct (gen (explain_request c)).
    + rewrite Hb. apply list_lookup_insert_eq. eapply lookup_lt_Some; eauto.
Qed.


(** *** The map of changes *)

Lemma map_set_keys k v m r :
  In r (map_set k v m).*1 -> r = k \/ In r m.*1.
Proof.
  induction m as [|[k0 v0] m IH]; cbn [map_set].
  - intros [<- | []]. now left.
  - destruct (bool_decide_reflect (k0 = k)) as [-> | Hne]; cbn.
    + tauto.
    + intros [<- | H]; [tauto|]. destruct (IH H); tauto.
Qed.

Lemma map_set_values k v m r :
  In r (map_set k v m).*2 -> r = v \/ In r m.*2.
Proof.
  induction m as [|[k0 v0] m IH]; cbn [map_set].
  - intros [<- | []]. now left.
  - destruct (bool_decide_reflect (k0 = k)) as [-> | Hne]; cbn.
    + intros [<- | H]; tauto.
    + intros [<- | H]; [tauto|]. destruct (IH H); tauto.
Qed.

Lemma map_set_NoDup_keys k v m : NoDup m.*1 -> NoDup (map_set k v m).*1.
Proof.
  induction m as [|[k0 v0] m IH]; cbn [map_set].
  - intros _. cbn. apply NoDup_singleton.
  - destruct (bool_decide_reflect (k0 = k)) as [-> | Hne]; cbn; [auto|].
    intros [Hn Hd]%NoDup_cons. apply NoDup_cons. split; [|auto].
    intros Hin%list_elem_of_In%map_set_keys. destruct Hin as [-> | Hin];
      [congruence|]. now apply Hn, list_elem_of_In.
Qed.

Lemma map_set_NoDup_values k v m :
  NoDup m.*2 -> ~ In v m.*2 -> NoDup (map_set k v m).*2.
Proof.
  induction m as [|[k0 v0] m IH]; cbn [map_set].
  - intros _ _. cbn. apply NoDup_singleton.
  - destruct (bool_decide_reflect (k0 = k)) as [-> | Hne]; cbn.
    + intros [Hn Hd]%NoDup_cons Hv. apply NoDup_cons. split; [|exact Hd].
      intros Hin%list_elem_of_In. tauto.
    + intros [Hn Hd]%NoDup_cons Hv. apply NoDup_cons. split; [|apply IH; tauto].
      intros Hin%list_elem_of_In%map_set_values. destruct Hin as [-> | Hin];
        [tauto|]. now apply Hn, list_elem_of_In.
Qed.

Lemma map_set_In k v m k' r' :
  In (k', r') (map_set k v m) -> (k' = k /\ r' = v) \/ In (k', r') m.
Proof.
  induction m as [|[k0 v0] m IH]; cbn [map_set].
  - intros [[= <- <-] | []]. now left.
  - destruct (bool_decide_reflect (k0 = k)) as [-> | Hne].
    + intros [[= <- <-] | H]; [now left|]. right. now right.
    + intros [[= <- <-] | H]; [right; now left|].
      destruct (IH H); [now left|]. right. now right.
Qed.

Lemma map_get_In k m r : map_get k m = Some r -> In (k, r) m.
Proof.
  induction m as [|[k0 v0] m IH]; cbn [map_get]; [discriminate|].
  destruct (bool_decide_reflect (k0 = k)) as [-> | Hne].
  - intros [= ->]. now left.
  - intros H. right. auto.
Qed.

Lemma In_map_get k m r : NoDup m.*1 -> In (k, r) m -> map_get k m = Some r.
Proof.
  induction m as [|[k0 v0] m IH]; cbn [map_get]; [now intros _ []|].
  cbn. intros [Hn Hd]%NoDup_cons [[= -> ->] | Hin].
  - now rewrite bool_decide_eq_true_2.
  - destruct (bool_decide_reflect (k0 = k)) as [-> | Hne]; [|auto].
    destruct Hn. apply list_elem_of_In, in_map_iff. now exists (k, r).
Qed.

Lemma map_ok_evolves s s' :
  changes s' = changes s -> evolves s s' -> map_ok s -> map_ok s'.
Proof.
  intros E Hev (N1 & N2 & H). unfold map_ok. rewrite E.
  split; [exact N1|]. split; [exact N2|].
  intros k r Hin. destruct (H k r Hin) as (c & Hc & Hid).
  destruct (Hev r c Hc) as (c' & Hc' & P). exists c'. split; [exact Hc'|].
  destruct (rec_step_fields c c' P) as (-> & _). exact Hid.
Qed.

Lemma changes_ledger s s' : ledger s' = ledger s -> changes s' = changes s.
Proof. unfold ledger. now intros [= -> _]. Qed.

Lemma changes_processChange doc ch now newid s :
  changes (processChange doc ch now newid s)
  = map_set newid (length (heap s)) (changes s).
Proof.
  unfold processChange.
  rewrite (changes_ledger _ _ (ledger_notifyJournal _)),
    (changes_ledger _ _ (ledger_notifyChange _ _)).
  now destruct (currentJournal _).
Qed.

Lemma step_map s e : invariant s -> map_ok s -> map_ok (step s e).
Proof.
  intros I M. pose proof (step_evolves s e I) as Hev.
  destruct e as [now newid|now|ev now|doc|h now newid|changeId|n res|n| |b];
    cbn [step] in *.
  - apply (map_ok_evolves s); [|exact Hev|exact M].
    apply changes_ledger, ledger_startTracking.
  - apply (map_ok_evolves s); [|exact Hev|exact M].
    apply changes_ledger, ledger_stopTracking.
  - apply (map_ok_evolves s); [|exact Hev|exact M].
    apply changes_ledger, ledger_fold_left. intros.
    apply ledger_handleDocumentChange.
  - apply (map_ok_evolves s); [|exact Hev|exact M].
    apply changes_ledger, ledger_fold_left. intros. apply ledger_spawn.
  - unfold timer_fire in *. destruct (timers s !! h) as [t|]; [|exact M].
    destruct (deadline t <=? now)%Z; [|exact M].
    destruct M as (N1 & N2 & H). unfold map_ok.
    cbn [changes heap set_pendingChanges].
    rewrite changes_processChange, processChange_record.
    cbn [changes heap set_timers].
    assert (forall r, In r (changes s).*2 -> r < length (heap s)) as Hlt.
    { intros r ((k & r') & <- & Hin)%in_map_iff.
      destruct (H k r' Hin) as (c & Hc & _). cbn.
      eapply lookup_lt_Some; eauto. }
    split; [now apply map_set_NoDup_keys|].
    split.
    { apply map_set_NoDup_values; [exact N2|]. intros Hin%Hlt. lia. }
    intros k r [[-> ->] | Hin]%map_set_In.
    + exists (new_record (t_document t) (t_change t) now newid).
      split; [|reflexivity].
      rewrite lookup_app_r by lia. now rewrite Nat.sub_diag.
    + destruct (H k r Hin) as (c & Hc & Hid). exists c. split; [|exact Hid].
      rewrite lookup_app_l; [exact Hc | eapply lookup_lt_Some; eauto].
  - apply (map_ok_evolves s); [|exact Hev|exact M].
    apply changes_ledger, ledger_spawn.
  - apply (map_ok_evolves s); [|exact Hev|exact M].
    apply changes_ledger, ledger_settle.
  - apply (map_ok_evolves s); [|exact Hev|exact M].
    apply changes_ledger, ledger_continue.
  - unfold clear, map_ok.
    destruct (currentJournal (set_changes [] s)); cbn;
      (split; [constructor|]; split; [constructor|]; now intros k r []).
  - exact M.
Qed.

Lemma map_ok_init : map_ok init.
Proof. split; [constructor|]. split; [constructor|]. now intros k r []. Qed.

Lemma run_map es : map_ok (run init es).
Proof.
  assert (forall es s, invariant s -> map_ok s -> map_ok (run s es)) as H.
  { clear. induction es as [|e es IH]; intros s I M; [exact M|].
    cbn [run fold_left]. apply IH; [now apply step_invariant|].
    now apply step_map. }
  apply H; [apply invariant_init | apply map_ok_init].
Qed.


(** *** The objects that [getChanges] returns *)

Lemma insert_newest_ref_perm s r l :
  Permutation (insert_newest_ref s r l) (r :: l).
Proof.
  induction l as [|x l IH]; [reflexivity|]. cbn [insert_newest_ref].
  destruct (time_of s x <=? time_of s r)%Z; [reflexivity|].
  rewrite IH. apply perm_swap.
Qed.

Lemma getChanges_refs_perm s : Permutation (getChanges_refs s) (changes s).*2.
Proof.
  unfold getChanges_refs. induction (changes s).*2 as [|r l IH];
    [reflexivity|].
  cbn [foldr]. rewrite insert_newest_ref_perm. now constructor.
Qed.

Lemma deref_insert_newest s r c l :
  heap s !! r = Some c -> Forall (fun x => is_Some (heap s !! x)) l ->
  deref s (insert_newest_ref s r l) = insert_newest c (deref s l).
Proof.
  intros Hc. induction 1 as [|x l [cx Hx] Hl IH]; cbn.
  - now rewrite Hc.
  - rewrite Hx. cbn [insert_newest]. unfold time_of at 1 2. rewrite Hx, Hc.
    destruct (timestamp cx <=? timestamp c)%Z.
    + cbn. now rewrite Hc, Hx.
    + cbn. rewrite Hx. cbn. f_equal. exact IH.
Qed.

(** The objects of [getChanges_refs] are the values of [getChanges]. *)
Lemma deref_getChanges s :
  map_ok s -> deref s (getChanges_refs s) = getChanges s.
Proof.
  intros (_ & _ & H). unfold getChanges_refs, getChanges, values.
  assert (forall k r, In (k, r) (changes s) -> is_Some (heap s !! r)) as Hv.
  { intros k r Hin. destruct (H k r Hin) as (c & Hc & _). eauto. }
  clear H. induction (changes s) as [|[k r] m IH]; [reflexivity|].
  cbn [fmap list_fmap foldr omap list_omap snd].
  destruct (Hv k r (or_introl eq_refl)) as [c Hc]. rewrite Hc.
  cbn [sort_newest_first foldr].
  rewrite (deref_insert_newest s r c); [|exact Hc|].
  - f_equal. apply IH. intros k' r' Hin. apply (Hv k' r'). now right.
  - apply Forall_forall. intros x Hx%list_elem_of_In.
    assert (Permutation (foldr (insert_newest_ref s) [] m.*2) m.*2) as P.
    { clear. induction m.*2 as [|r l IH]; [reflexivity|].
      cbn [foldr]. rewrite insert_newest_ref_perm. now constructor. }
    apply (Permutation_in _ P), in_map_iff in Hx as ((k' & r') & <- & Hin).
    apply (Hv k' r'). now right.
Qed.

Lemma getChanges_perm s : Permutation (getChanges s) (values s).
Proof.
  unfold getChanges, sort_newest_first.
  induction (values s) as [|c l IH]; [reflexivity|].
  cbn [foldr]. rewrite insert_newest_perm. now constructor.
Qed.

Lemma values_In s c :
  map_ok s ->
  In c (values s)
  <-> exists r, map_get (id c) (changes s) = Some r /\ heap s !! r = Some c.
Proof.
  intros (N1 & _ & H). unfold values. split.
  - intros Hin%list_elem_of_In%list_elem_of_omap.
    destruct Hin as ((k & r) & Hin%list_elem_of_In & Hc). cbn in Hc.
    destruct (H k r Hin) as (c' & Hc' & Hid).
    assert (c' = c) as -> by congruence. exists r. split; [|exact Hc].
    apply In_map_get; [exact N1|]. now rewrite Hid.
  - intros (r & Hg%map_get_In & Hc). apply list_elem_of_In, list_elem_of_omap.
    exists (id c, r). split; [now apply list_elem_of_In | exact Hc].
Qed.

Lemma values_ids s : map_ok s -> id <$> values s = (changes s).*1.
Proof.
  intros (_ & _ & H). unfold values.
  induction (changes s) as [|[k r] m IH]; [reflexivity|].
  cbn [fmap list_fmap omap list_omap snd fst].
  destruct (H k r (or_introl eq_refl)) as (c & -> & <-). cbn.
  f_equal. apply IH. intros k' r' Hin. apply H. now right.
Qed.

Lemma find_by_id (l : list CodeChange) k c :
  NoDup (id <$> l) -> In c l -> id c = k ->
  List.find (fun c => bool_decide (id c = k)) l = Some c.
Proof.
  induction l as [|x l IH]; [now intros _ []|].
  cbn. intros [Hn Hd]%NoDup_cons [-> | Hin] Hid.
  - now rewrite bool_decide_eq_true_2.
  - destruct (bool_decide_reflect (id x = k)) as [E | _]; [|auto].
    destruct Hn. apply list_elem_of_In, in_map_iff. exists c.
    split; [congruence | exact Hin].
Qed.

(** [getChanges().find(c => c.id === changeId)] is the object that the map
    holds for [changeId]. *)
Lemma find_getChanges s k :
  map_ok s ->
  List.find (fun c => bool_decide (id c = k)) (getChanges s)
  = map_get k (changes s) ≫= fun r => heap s !! r.
Proof.
  intros M. pose proof (getChanges_perm s) as P.
  destruct (map_get k (changes s)) as [r|] eqn:Hg; cbn.
  - pose proof M as (N1 & _ & H).
    destruct (H k r (map_get_In _ _ _ Hg)) as (c & Hc & Hid). rewrite Hc.
    apply find_by_id; [| |exact Hid].
    + rewrite P, values_ids by exact M. exact N1.
    + apply (Permutation_in _ (Permutation_sym P)), values_In; [exact M|].
      exists r. now rewrite Hid.
  - destruct (List.find _ _) as [c|] eqn:Hf; [|reflexivity].
    apply find_some in Hf as [Hin Hid].
    apply bool_decide_eq_true_1 in Hid.
    apply (Permutation_in _ P), values_In in Hin as (r & Hr & _);
      [|exact M]. congruence.
Qed.


(** *** One call of [explainChange], run to its end *)

Lemma generator_calls_explainChange changeId gen s :
  generator_calls (trace (fst (explainChange changeId gen s)))
  = generator_calls (trace s)
    + match eligible changeId s with
      | Some _ => if workspaceFolders s then 1 else 0
      | None => 0
      end.
Proof.
  destruct (eligible changeId s) as [r|] eqn:He.
  2:{ rewrite explainChange_skip by exact He. lia. }
  pose proof He as He'. apply eligible_Some in He' as (c & _ & Hc & _).
  unfold explainChange. rewrite He.
  unfold explain_prelude, explain_finish, explain_catch, explain_epilogue.
  unfold_monad. cbn.
  rewrite !heap_notifyChangeListeners.
  assert (workspaceFolders (notifyChangeListeners r (write_status r explaining s))
          = workspaceFolders s) as ->.
  { pose proof (ledger_notifyChange r (write_status r explaining s)) as E.
    rewrite ledger_write_status in E. unfold ledger in E. now injection E. }
  rewrite (lookup_write_status _ _ _ _ Hc).
  destruct (workspaceFolders s).
  - destruct (gen _); cbn [fst];
      rewrite generator_calls_notifyJournal, generator_calls_notifyChange,
        generator_calls_write_status, ?trace_update_change;
      cbn [trace emit]; rewrite !generator_calls_app,
        generator_calls_notifyChange, generator_calls_write_status;
      cbn; lia.
  - cbn [fst].
    rewrite generator_calls_notifyJournal, generator_calls_notifyChange,
      generator_calls_write_status.
    cbn [trace emit]. rewrite generator_calls_app,
      generator_calls_notifyChange, generator_calls_write_status.
    cbn. lia.
Qed.

Lemma answered_path gen ws c :
  status c = pending \/ status c = error ->
  rtc rec_step c (answered gen ws c).
Proof.
  intros Hst. apply rtc_l with (with_status explaining c); [now constructor|].
  apply rtc_once. unfold answered.
  destruct ws; [destruct (gen _)|].
  - exact (rec_explained (with_status explaining c) _ eq_refl).
  - exact (rec_failed (with_status explaining c) eq_refl).
  - exact (rec_failed (with_status explaining c) eq_refl).
Qed.

Lemma explainChange_evolves changeId gen s :
  evolves s (fst (explainChange changeId gen s)).
Proof.
  destruct (eligible changeId s) as [r|] eqn:He.
  2:{ rewrite explainChange_skip by exact He. apply evolves_refl. }
  pose proof He as He'. apply eligible_Some in He' as (c & _ & Hc & Hst).
  eapply evolves_insert;
    [exact Hc | exact (explainChange_heap _ gen _ _ _ He Hc)|].
  now apply answered_path.
Qed.

Lemma explainChange_heap_length changeId gen s :
  length (heap (fst (explainChange changeId gen s))) = length (heap s).
Proof.
  destruct (eligible changeId s) as [r|] eqn:He.
  2:{ now rewrite explainChange_skip. }
  pose proof He as He'. apply eligible_Some in He' as (c & _ & Hc & Hst).
  now rewrite (explainChange_heap _ gen _ _ _ He Hc), length_insert.
Qed.

(** What the handlers rely on: the journal, the map and the records are as
    in a run. *)
Lemma sound_run es :
  let s := run init es in
  journal_ok s /\ map_ok s
  /\ forall r c, heap s !! r = Some c -> explained_iff c.
Proof.
  cbn zeta. split; [apply run_journal|]. split; [apply run_map|].
  apply (run_records explained_iff).
  - apply explained_iff_step.
  - intros t now newid _. split; [intros [x Hx]|]; discriminate.
Qed.

Lemma sound_explainChange changeId gen s :
  journal_ok s /\ map_ok s
  /\ (forall r c, heap s !! r = Some c -> explained_iff c) ->
  let s' := fst (explainChange changeId gen s) in
  journal_ok s' /\ map_ok s'
  /\ (forall r c, heap s' !! r = Some c -> explained_iff c).
Proof.
  intros (J & M & Q) s'. pose proof (explainChange_evolves changeId gen s) as Hev.
  fold s' in Hev. split; [|split].
  - apply (journal_same s); [| | |exact J].
    + apply journal_explainChange.
    + apply isTracking_sched, sched_explainChange.
    + apply explainChange_heap_length.
  - apply (map_ok_evolves s); [|exact Hev|exact M].
    apply changes_ledger, ledger_explainChange.
  - intros r c' Hc'.
    assert (is_Some (heap s !! r)) as [c Hc].
    { apply lookup_lt_is_Some. apply lookup_lt_Some in Hc'.
      unfold s' in Hc'. now rewrite explainChange_heap_length in Hc'. }
    destruct (Hev r c Hc) as (c0 & Hc0 & P).
    assert (c0 = c') as -> by congruence.
    specialize (Q r c Hc). clear - P Q.
    induction P as [|x y z Hxy _ IH]; [exact Q|].
    apply IH. eapply explained_iff_step; eauto.
Qed.

Lemma journal_of_flag now s :
  journal_ok s ->
  cj_isTracking (journal_of now s) = isTracking s
  /\ cj_sessionEnd (journal_of now s) = None.
Proof.
  intros [J1 J2]. unfold journal_of, getCurrentJournal. cbn.
  destruct (currentJournal s) as [j|] eqn:E; cbn.
  - destruct (J2 j eq_refl) as [-> _]. split; [|reflexivity].
    rewrite bool_decide_eq_false_2 by (intros [x Hx]; discriminate).
    symmetry. apply J1. eauto.
  - split; [|reflexivity]. destruct (isTracking s); [|reflexivity].
    destruct (proj1 J1 eq_refl) as [x Hx]. discriminate.
Qed.


(** *** The messages of a handler *)

Lemma explained_ids_app l1 l2 :
  explained_ids (l1 ++ l2) = explained_ids l1 ++ explained_ids l2.
Proof. apply omap_app. Qed.

Lemma journals_app l1 l2 : journals (l1 ++ l2) = journals l1 ++ journals l2.
Proof. apply omap_app. Qed.

Lemma tracking_flags_app l1 l2 :
  tracking_flags (l1 ++ l2) = tracking_flags l1 ++ tracking_flags l2.
Proof. apply omap_app. Qed.

Lemma notified_only s s' :
  explained_ids (notified s s') = [] /\ journals (notified s s') = []
  /\ tracking_flags (notified s s') = [].
Proof.
  unfold notified. induction (drop _ _) as [|o l (IH1 & IH2 & IH3)];
    [now split|].
  destruct o; cbn; auto.
Qed.

Lemma explained_message_only i c :
  journals (explained_message i c) = []
  /\ tracking_flags (explained_message i c) = [].
Proof.
  unfold explained_message. destruct c as [c|]; [|now split].
  now destruct (Player.truthy _).
Qed.

Lemma explained_ids_message c :
  explained_ids (explained_message (id c) (Some c)) = option_list (report c).
Proof.
  unfold explained_message, report. now destruct (Player.truthy _).
Qed.

Lemma explain_each_spec gen pending :
  forall k s s' out res,
    takes_up s pending ->
    journal_ok s /\ map_ok s
    /\ (forall r c, heap s !! r = Some c -> explained_iff c) ->
    explain_each gen k pending s = (s', out, res) ->
    res = Returned tt
    /\ ledger s' = ledger s
    /\ (journal_ok s' /\ map_ok s'
        /\ (forall r c, heap s' !! r = Some c -> explained_iff c))
    /\ (forall r, ~ In r pending -> heap s' !! r = heap s !! r)
    /\ (forall i r c,
          pending !! i = Some r -> heap s !! r = Some c ->
          heap s' !! r
          = Some (answered (gen (k + i)) (workspaceFolders s) c))
    /\ generator_calls (trace s')
       = generator_calls (trace s)
         + (if workspaceFolders s then length pending else 0)
    /\ explained_ids out = omap (fun r => heap s' !! r ≫= report) pending
    /\ journals out = [] /\ tracking_flags out = [].
Proof.
  induction pending as [|r rest IH]; intros k s s' out res [Hnd Hp] Hs E.
  - cbn in E. injection E as <- <- <-.
    split; [reflexivity|]. split; [reflexivity|]. split; [exact Hs|].
    split; [reflexivity|].
    split; [intros i r c Hi; now rewrite lookup_nil in Hi|].
    split; [destruct (workspaceFolders s); cbn; lia|]. auto.
  - apply NoDup_cons in Hnd as [Hr Hnd].
    destruct (Hp r (or_introl eq_refl)) as (c & Hc & Hst & Hg).
    assert (eligible (id c) s = Some r) as He.
    { apply eligible_Some. exists c. auto. }
    cbn [explain_each] in E. rewrite Hc in E.
    pose proof (explainChange_returns (id c) (gen k) s) as Hret.
    pose proof (explainChange_heap (id c) (gen k) s r c He Hc) as Hheap.
    pose proof (ledger_explainChange (id c) (gen k) s) as Hled.
    pose proof (sound_explainChange (id c) (gen k) s Hs) as S1.
    pose proof (generator_calls_explainChange (id c) (gen k) s) as Hgen.
    rewrite He in Hgen.
    destruct (explainChange (id c) (gen k) s) as [s1 res1].
    cbn [fst snd] in *. cbn zeta in S1. subst res1.
    assert (heap s1 !! r = Some (answered (gen k) (workspaceFolders s) c))
      as Hc1.
    { rewrite Hheap. apply list_lookup_insert_eq.
      eapply lookup_lt_Some; eauto. }
    rewrite Hc1 in E.
    assert (forall r', r' <> r -> heap s1 !! r' = heap s !! r') as Hother.
    { intros r' Hne. rewrite Hheap. now apply list_lookup_insert_ne. }
    destruct (explain_each gen (S k) rest s1) as [[s2 out2] res2] eqn:E2.
    injection E as <- <- <-.
    assert (takes_up s1 rest) as T1.
    { split; [exact Hnd|]. intros r' Hin.
      destruct (Hp r' (or_intror Hin)) as (c' & Hc' & Hst' & Hg').
      exists c'. rewrite (changes_ledger _ _ Hled).
      rewrite Hother; [auto|]. intros ->. now apply Hr, list_elem_of_In. }
    destruct (IH (S k) s1 s2 out2 res2 T1 S1 E2)
      as (-> & L2 & S2 & Hout & Hin & G2 & X2 & J2 & F2).
    assert (workspaceFolders s1 = workspaceFolders s) as W
      by (unfold ledger in Hled; now injection Hled).
    rewrite W in *.
    assert (heap s2 !! r = Some (answered (gen k) (workspaceFolders s) c))
      as Hc2.
    { rewrite Hout; [exact Hc1|]. intros Hx. now apply Hr, list_elem_of_In. }
    split; [reflexivity|]. split; [congruence|]. split; [exact S2|].
    split; [|split; [|split; [|split; [|split]]]].
    + intros r' Hn. rewrite Hout by (intros Hx; apply Hn; now right).
      apply Hother. intros ->. apply Hn. now left.
    + intros [|i] r' c' Hi Hc'; cbn in Hi.
      * injection Hi as <-. rewrite Nat.add_0_r.
        assert (c' = c) as -> by congruence. exact Hc2.
      * replace (k + S i) with (S k + i) by lia.
        apply (Hin i r' c' Hi). rewrite Hother; [exact Hc'|].
        intros ->. apply Hr. now apply list_elem_of_lookup_2 in Hi.
    + rewrite G2, Hgen. cbn [length]. destruct (workspaceFolders s); lia.
    + rewrite !explained_ids_app, (proj1 (notified_only s s1)), X2.
      cbn [app omap list_omap]. rewrite Hc2. cbn [mbind option_bind].
      unfold report. now destruct (Player.truthy _).
    + rewrite !journals_app, (proj1 (proj2 (notified_only s s1))), J2.
      now destruct (Player.truthy _).
    + rewrite !tracking_flags_app, (proj2 (proj2 (notified_only s s1))), F2.
      now destruct (Player.truthy _).
Qed.


Lemma journal_after es e : journal_ok (step (run init es) e).
Proof.
  pose proof (run_journal (es ++ [e])) as H.
  unfold run in *. now rewrite fold_left_app in H.
Qed.

Lemma answered_status gen ws c :
  status (answered gen ws c) = explained \/ status (answered gen ws c) = error.
Proof.
  unfold answered. destruct ws; [destruct (gen _)|]; cbn; auto.
Qed.

(** The objects that [handleExplainAllPending] goes through. *)
Lemma pending_takes_up s :
  map_ok s -> takes_up s (List.filter (is_pending s) (getChanges_refs s)).
Proof.
  intros (N1 & N2 & H). split.
  - apply NoDup_ListNoDup, List.NoDup_filter, NoDup_ListNoDup.
    now rewrite getChanges_refs_perm.
  - intros r [Hin Hp]%filter_In.
    apply (Permutation_in _ (getChanges_refs_perm s)), in_map_iff in Hin
      as ((k & r') & <- & Hin). cbn in *.
    destruct (H k r' Hin) as (c & Hc & Hid). exists c.
    split; [exact Hc|]. unfold is_pending in Hp. rewrite Hc in Hp.
    split; [now apply bool_decide_eq_true_1 in Hp|].
    apply In_map_get; [exact N1|]. now rewrite Hid.
Qed.

(** X9.  Every message about tracking that the panel gets tells the state of
    the tracker: each journal handler ends normally with one
    [journalUpdate], sent last, whose [isTracking] is the flag of the
    tracker and which has no session end; and the flag of a
    [trackingStateChanged] is the flag of the tracker after the call. *)
Theorem panel_is_told_the_tracking_state (es : list event)
  (gen : nat -> LLMRequest -> outcome LLMResponse) (now later : Z)
  (newid : list N) (m : request) :
  let '(s', out, res) := receive gen now later newid m (run init es) in
  res = Returned tt
  /\ journals out = [journal_of later s']
  /\ last out = Some (journalUpdate (journal_of later s'))
  /\ cj_isTracking (journal_of later s') = isTracking s'
  /\ cj_sessionEnd (journal_of later s') = None
  /\ (forall b, In b (tracking_flags out) -> b = isTracking s').
Proof.
  destruct (sound_run es) as (J & M & Q). cbn zeta in *.
  set (s := run init es) in *.
  destruct m as [| | |changeId| |]; cbn [receive].
  - assert (journal_ok (startTracking now newid s)) as J'
      by apply (journal_after es (EvStart now newid)).
    destruct (journal_of_flag later _ J') as [F E].
    split; [reflexivity|]. split; [reflexivity|]. split; [reflexivity|].
    split; [exact F|]. split; [exact E|].
    intros b [<- | []]. unfold startTracking.
    now destruct (isTracking s) eqn:Ht.
  - assert (journal_ok (fst (stopTracking now s))) as J'.
      by apply (journal_after es (EvStop now)).
    destruct (journal_of_flag later _ J') as [F E].
    split; [reflexivity|]. split; [reflexivity|]. split; [reflexivity|].
    split; [exact F|]. split; [exact E|].
    intros b [<- | []].
    destruct (isTracking s) eqn:Ht.
    + destruct (run_scheduler init es scheduler_init) as (_ & L & _).
      now destruct (stopTracking_spec now s Ht (proj1 L)) as (-> & _).
    + unfold stopTracking. rewrite Ht. cbn [negb fst]. now rewrite Ht.
  - destruct (journal_of_flag later _ J) as [F E].
    split; [reflexivity|]. split; [reflexivity|]. split; [reflexivity|].
    split; [exact F|]. split; [exact E|]. now intros b [].
  - unfold handleExplainChange.
    pose proof (explainChange_returns changeId (gen 0) s) as Hret.
    pose proof (sound_explainChange changeId (gen 0) s
                  (conj J (conj M Q))) as (J' & _).
    destruct (explainChange changeId (gen 0) s) as [s' res].
    cbn [fst snd] in *. subst res.
    destruct (journal_of_flag later _ J') as [F E].
    split; [reflexivity|].
    split.
    { rewrite !journals_app, (proj1 (proj2 (notified_only s s'))),
        (proj1 (explained_message_only _ _)). reflexivity. }
    split.
    { rewrite !app_assoc. apply last_snoc. }
    split; [exact F|]. split; [exact E|].
    intros b. rewrite !tracking_flags_app,
      (proj2 (proj2 (notified_only s s'))),
      (proj2 (explained_message_only _ _)). now intros [].
  - unfold handleExplainAllPending.
    destruct (explain_each gen 0 _ s) as [[s' out] res] eqn:E0.
    destruct (explain_each_spec gen _ 0 s s' out res
                (pending_takes_up s M) (conj J (conj M Q)) E0)
      as (-> & _ & (J' & _) & _ & _ & _ & _ & Hj & Hf).
    destruct (journal_of_flag later _ J') as [F E].
    split; [reflexivity|].
    split; [rewrite journals_app, Hj; reflexivity|].
    split; [apply last_snoc|].
    split; [exact F|]. split; [exact E|].
    intros b. rewrite tracking_flags_app, Hf. now intros [].
  - assert (journal_ok (clear s)) as J'
      by apply (journal_after es EvClear).
    destruct (journal_of_flag later _ J') as [F E].
    split; [reflexivity|]. split; [reflexivity|]. split; [reflexivity|].
    split; [exact F|]. split; [exact E|]. now intros b [].
Qed.


Lemma deref_filter s l :
  deref s (List.filter (is_pending s) l)
  = List.filter (fun c => bool_decide (status c = pending)) (deref s l).
Proof.
  unfold deref. induction l as [|r l IH]; [reflexivity|].
  cbn [List.filter omap list_omap]. unfold is_pending at 1.
  destruct (heap s !! r) as [c|] eqn:Hc; [|exact IH].
  cbn [List.filter].
  destruct (bool_decide (status c = pending)); cbn [omap list_omap];
    [rewrite Hc|]; now rewrite IH.
Qed.

(** X10.  After [handleExplainChange], run without interruption from a state
    of a run: [changeExplained] is sent, once, exactly when the map holds
    under the identifier a change that is [explained] with an explanation
    that is not empty (so never for an unknown identifier or a failed call);
    the handler returns normally; and for a change that was already
    [explained] the tracker is left as it was, the explanation being sent
    again. *)
Theorem changeExplained_iff_explained (es : list event)
  (gen : LLMRequest -> outcome LLMResponse) (now : Z) (changeId : list N) :
  let s := run init es in
  let '(s', out, res) := handleExplainChange gen now changeId s in
  res = Returned tt
  /\ length (explained_ids out) <= 1
  /\ (forall i e,
        In (i, e) (explained_ids out) <->
        i = changeId /\ e <> []
        /\ exists r c, map_get changeId (changes s') = Some r
             /\ heap s' !! r = Some c /\ status c = explained
             /\ explanation c = Some e)
  /\ (forall r c,
        map_get changeId (changes s) = Some r -> heap s !! r = Some c ->
        status c = explained -> s' = s).
Proof.
  destruct (sound_run es) as (J & M & Q). cbn zeta in *.
  set (s := run init es) in *. unfold handleExplainChange.
  pose proof (explainChange_returns changeId gen s) as Hret.
  pose proof (sound_explainChange changeId gen s (conj J (conj M Q)))
    as (_ & M' & Q').
  assert (forall r c,
            map_get changeId (changes s) = Some r -> heap s !! r = Some c ->
            status c = explained -> fst (explainChange changeId gen s) = s)
    as Hskip.
  { intros r c Hg Hc Hst. apply explainChange_skip, eligible_None.
    right. exists r. split; [exact Hg|]. right. exists c. auto. }
  destruct (explainChange changeId gen s) as [s' res].
  cbn [fst snd] in *. subst res.
  rewrite (find_getChanges s' changeId M').
  split; [reflexivity|].
  rewrite !explained_ids_app, (proj1 (notified_only s s')).
  cbn [app explained_ids omap list_omap sendJournalUpdate].
  rewrite app_nil_r.
  split; [|split; [|exact Hskip]].
  - unfold explained_message. break_match; cbn; lia.
  - intros i e. destruct (map_get changeId (changes s')) as [r|] eqn:Hg;
      cbn [mbind option_bind].
    2:{ cbn. split; [now intros []|]. now intros (_ & _ & r & c & [=] & _). }
    destruct (heap s' !! r) as [c|] eqn:Hc.
    2:{ cbn. split; [now intros []|].
        intros (_ & _ & r' & c & [= <-] & Hc' & _). congruence. }
    unfold explained_message.
    destruct (explanation c) as [[|x e']|] eqn:He; cbn.
    + split; [now intros []|].
      intros (_ & Hne & r' & c' & [= <-] & Hc' & _ & He').
      assert (c' = c) as -> by congruence. congruence.
    + split.
      * intros [[= <- <-] | []]. split; [reflexivity|].
        split; [discriminate|]. exists r, c. split; [reflexivity|].
        split; [exact Hc|]. split; [|exact He].
        apply (Q' r c Hc). rewrite He. eauto.
      * intros (-> & _ & r' & c' & [= <-] & Hc' & _ & He').
        assert (c' = c) as -> by congruence. left. congruence.
    + split; [now intros []|].
      intros (_ & _ & r' & c' & [= <-] & Hc' & _ & He').
      assert (c' = c) as -> by congruence. congruence.
Qed.

(** X11.  [handleExplainAllPending], run without interruption from a state
    of a run, leaves no change of the map pending: it takes up, newest
    first, the changes that were pending, each becoming [explained] or
    [error], calls the generator once for each of them when a workspace
    folder is open and not at all otherwise, leaves the other records as
    they were, tells the webview of each that now has an explanation that is
    not empty, and ends with the journal. *)
Theorem explain_all_leaves_none_pending (es : list event)
  (gen : nat -> LLMRequest -> outcome LLMResponse) (now : Z) :
  let s := run init es in
  let taken := List.filter (is_pending s) (getChanges_refs s) in
  let '(s', out, res) := handleExplainAllPending gen now s in
  res = Returned tt
  /\ deref s taken
     = List.filter (fun c => bool_decide (status c = Tracker.pending))
         (getChanges s)
  /\ changes s' = changes s
  /\ (forall c, In c (getChanges s') -> status c <> Tracker.pending)
  /\ (forall i r c,
        taken !! i = Some r -> heap s !! r = Some c ->
        heap s' !! r = Some (answered (gen i) (workspaceFolders s) c))
  /\ (forall r c,
        heap s !! r = Some c -> status c <> Tracker.pending ->
        heap s' !! r = Some c)
  /\ generator_calls (trace s')
     = generator_calls (trace s)
       + (if workspaceFolders s then length taken else 0)
  /\ explained_ids out = omap (fun r => heap s' !! r ≫= report) taken
  /\ last out = Some (journalUpdate (journal_of now s')).
Proof.
  destruct (sound_run es) as (J & M & Q). cbn zeta in *.
  set (s := run init es) in *. unfold handleExplainAllPending.
  set (taken := List.filter (is_pending s) (getChanges_refs s)).
  pose proof (pending_takes_up s M) as T. fold taken in T.
  destruct (explain_each gen 0 taken s) as [[s' out] res] eqn:E0.
  destruct (explain_each_spec gen taken 0 s s' out res T
              (conj J (conj M Q)) E0)
    as (-> & L & (_ & M' & _) & Hout & Hin & G & X & Hj & _).
  pose proof (changes_ledger _ _ L) as Hch.
  split; [reflexivity|]. split; [|split; [exact Hch|]].
  { rewrite <- (deref_getChanges s M). apply deref_filter. }
  split; [|split; [exact Hin|split; [|split; [exact G|split]]]].
  - intros c' Hc'.
    apply (Permutation_in _ (getChanges_perm s')), values_In in Hc'
      as (r & Hg & Hr); [|exact M'].
    rewrite Hch in Hg. apply map_get_In in Hg.
    destruct M as (_ & _ & H). destruct (H _ _ Hg) as (c & Hc & _).
    destruct (in_dec Nat.eq_dec r taken) as [Ht | Ht].
    + apply list_elem_of_In, list_elem_of_lookup_1 in Ht as [i Hi].
      rewrite (Hin i r c Hi Hc) in Hr. injection Hr as <-.
      intros Hst.
      destruct (answered_status (gen i) (workspaceFolders s) c)
        as [E | E]; rewrite E in Hst; discriminate.
    + rewrite (Hout r Ht), Hc in Hr. injection Hr as <-.
      intros Hst. apply Ht, filter_In. split.
      * apply (Permutation_in _ (Permutation_sym (getChanges_refs_perm s))).
        apply in_map_iff. now exists (id c, r).
      * unfold is_pending. rewrite Hc. now apply bool_decide_eq_true_2.
  - intros r c Hc Hst. rewrite Hout; [exact Hc|].
    intros [_ Hp]%filter_In. unfold is_pending in Hp. rewrite Hc in Hp.
    now apply bool_decide_eq_true_1 in Hp.
  - rewrite explained_ids_app, X. cbn. now rewrite app_nil_r.
  - apply last_snoc.
Qed.

End JournalPanelProofs.

(** ** Sessions of the player *)

Module SessionProofs.
Import Js Types Player Session PlayerProofs.

Lemma messages_nil : messages [] = [].
Proof. reflexivity. Qed.

Lemma news_app h h' l : outbox h' = outbox h ++ l -> news h h' = messages l.
Proof. intros E. unfold news. now rewrite E, drop_app_length. Qed.

Lemma news_same h : news h h = [].
Proof. apply (news_app h h []). now rewrite app_nil_r. Qed.

Lemma cached_at_insert cache i l text i' l' :
  cached_at
    (<[i := set_level l text
              (match cache !! i with
               | Some e => e
               | None => no_explanations
               end)]> cache) i' l'
  = if bool_decide (i = i' /\ l = l') then Some text
    else cached_at cache i' l'.
Proof.
  unfold cached_at. destruct (decide (i = i')) as [<- | Hi].
  - rewrite lookup_insert_eq. destruct (decide (l = l')) as [<- | Hl].
    + rewrite bool_decide_true by auto. apply get_set_level.
    + rewrite bool_decide_false by tauto.
      rewrite get_set_level_ne by exact Hl.
      destruct (cache !! i); [reflexivity | now destruct l'].
  - rewrite lookup_insert_ne by exact Hi.
    rewrite bool_decide_false by tauto. reflexivity.
Qed.

Lemma embedded_cache_level l text st l' :
  embedded l' (cache_level l text st)
  = if bool_decide (l = l') then Some text else embedded l' st.
Proof.
  unfold embedded, cache_level. cbn [explanations].
  destruct (decide (l = l')) as [<- | Hl].
  - rewrite bool_decide_true by auto. apply get_set_level.
  - rewrite bool_decide_false by exact Hl. rewrite get_set_level_ne by exact Hl.
    destruct (explanations st); [reflexivity | now destruct l'].
Qed.

(** *** The host's operations with a panel *)

Lemma loadTour_spec tour h :
  panel h = true ->
  let h' := loadTour tour h in
  panel h' = true /\ currentTour h' = Some tour /\ currentStepIndex h' = 0%Z
  /\ news h h' = [tourLoaded tour].
Proof.
  intros Hp. cbn zeta. unfold loadTour, sendMessage, highlightCurrentStep.
  cbn -[nth_step]. rewrite Hp. cbn -[nth_step].
  destruct (nth_step (steps tour) 0) as [st|]; cbn -[nth_step];
    (split; [exact Hp|]); (split; [reflexivity|]); (split; [reflexivity|]).
  - apply (news_app h _ [Sent (tourLoaded tour); Highlighted st]).
    cbn [outbox log]. now rewrite <- app_assoc.
  - now apply (news_app h _ [Sent (tourLoaded tour)]).
Qed.

Lemma sendMessage_spec m h :
  panel h = true ->
  let h' := sendMessage m h in
  panel h' = true /\ currentTour h' = currentTour h
  /\ currentStepIndex h' = currentStepIndex h /\ news h h' = [m].
Proof.
  intros Hp. cbn zeta. unfold sendMessage. rewrite Hp.
  repeat split; try assumption. now apply (news_app h _ [Sent m]).
Qed.

Lemma goToStep_spec i h :
  panel h = true ->
  let h' := fst (goToStep i h) in
  panel h' = true /\ currentTour h' = currentTour h
  /\ match currentTour h with
     | Some tour =>
         currentStepIndex h'
         = Z.max 0 (Z.min i (Z.of_nat (length (steps tour)) - 1))
         /\ news h h' = [stepChanged (currentStepIndex h')]
     | None => h' = h
     end.
Proof.
  intros Hp. cbn zeta. unfold goToStep.
  destruct (currentTour h) as [tour|] eqn:Ht; [|now cbn].
  unfold_monad. cbn [fst]. unfold sendMessage, highlightCurrentStep.
  cbn -[nth_step Z.max Z.min Z.sub Z.of_nat]. rewrite Hp.
  cbn -[nth_step Z.max Z.min Z.sub Z.of_nat]. rewrite Ht.
  set (k := Z.max 0 _).
  destruct (nth_step (steps tour) k) as [st|];
    cbn -[nth_step Z.max Z.min Z.sub Z.of_nat];
    (split; [exact Hp|]); (split; [exact Ht|]); (split; [reflexivity|]).
  - apply (news_app h _ [Sent (stepChanged k); Highlighted st]).
    cbn [outbox log]. now rewrite <- app_assoc.
  - now apply (news_app h _ [Sent (stepChanged k)]).
Qed.

Lemma deepen_miss_outbox env i level h tour st response :
  panel h = true ->
  currentTour h = Some tour ->
  nth_step (steps tour) i = Some st ->
  truthy (embedded level st) = false ->
  generate env (deepen_request env st level) = Returned response ->
  let text := resp_explanation response in
  let tour' :=
    mkTour (tour_id tour) (title tour) (createdAt tour)
      (<[Z.to_nat i := cache_level level text st]> (steps tour)) in
  outbox (fst (handleDeepenRequest env i level h))
  = outbox h
      ++ [Sent (deepenStarted i);
          GeneratorCalled (deepen_request env st level);
          TourSaved tour']
      ++ match saveTour env tour' with
         | Returned _ => [Sent (deepenComplete i level text)]
         | Thrown _ => [ErrorLogged; Sent (error failure_message)]
         end.
Proof.
  intros Hp Ht Hs Hc Hg. cbn zeta. unfold handleDeepenRequest.
  rewrite Ht, Hs, Hc. unfold_monad. unfold save_current, cache_in_tour.
  unfold_monad. unfold sendMessage.
  cbn -[nth_step deepen_request cache_level failure_message].
  rewrite Hp.
  cbn -[nth_step deepen_request cache_level failure_message].
  rewrite Hg.
  cbn -[nth_step deepen_request cache_level failure_message].
  rewrite Ht, Hs.
  cbn -[nth_step deepen_request cache_level failure_message].
  destruct (saveTour env _) as [[]|e] eqn:Hsave;
    do 3 (cbn -[nth_step deepen_request cache_level failure_message];
          rewrite ?Hp);
    rewrite <- !app_assoc; reflexivity.
Qed.

(** What a deepen request does to a host with a panel. *)
Lemma handleDeepenRequest_spec env i level h :
  panel h = true ->
  let h' := fst (handleDeepenRequest env i level h) in
  panel h' = true /\ currentStepIndex h' = currentStepIndex h
  /\ match currentTour h with
     | None => h' = h
     | Some tour =>
         match nth_step (steps tour) i with
         | None => h' = h
         | Some st =>
             if truthy (embedded level st) then
               currentTour h' = Some tour
               /\ news h h'
                  = [deepenComplete i level (default [] (embedded level st))]
             else
               match generate env (deepen_request env st level) with
               | Returned response =>
                   let tour' :=
                     mkTour (tour_id tour) (title tour) (createdAt tour)
                       (<[Z.to_nat i :=
                            cache_level level (resp_explanation response) st]>
                          (steps tour)) in
                   currentTour h' = Some tour'
                   /\ news h h'
                      = [deepenStarted i;
                         match saveTour env tour' with
                         | Returned _ =>
                             deepenComplete i level (resp_explanation response)
                         | Thrown _ => error failure_message
                         end]
               | Thrown _ =>
                   currentTour h' = Some tour
                   /\ news h h' = [deepenStarted i; error failure_message]
               end
         end
     end.
Proof.
  intros Hp. cbn zeta.
  destruct (currentTour h) as [tour|] eqn:Ht.
  2:{ unfold handleDeepenRequest. rewrite Ht. cbn. auto. }
  destruct (nth_step (steps tour) i) as [st|] eqn:Hs.
  2:{ unfold handleDeepenRequest. rewrite Ht, Hs. cbn. auto. }
  destruct (truthy (embedded level st)) eqn:Hc.
  - apply truthy_true in Hc as (text & He & Hne).
    rewrite (deepen_hit env i level h tour st text Hp Ht Hs He Hne).
    cbn [fst panel currentStepIndex currentTour log].
    split; [exact Hp|]. split; [reflexivity|]. split; [exact Ht|].
    rewrite He. now apply (news_app h _ [Sent _]).
  - destruct (generate env (deepen_request env st level)) as [response|e]
      eqn:Hg.
    + destruct (deepen_miss env i level h tour st response Hp Ht Hs Hc Hg)
        as (_ & Hp' & Ht' & Hi' & _).
      pose proof (deepen_miss_outbox env i level h tour st response
                    Hp Ht Hs Hc Hg) as Ho.
      cbn zeta in Ho.
      split; [exact Hp'|]. split; [exact Hi'|]. split; [exact Ht'|].
      rewrite (news_app _ _ _ Ho). now destruct (saveTour env _).
    + rewrite (deepen_fail_eq env i level h tour st e Hp Ht Hs Hc Hg).
      cbn [fst panel currentStepIndex currentTour log].
      split; [exact Hp|]. split; [reflexivity|]. split; [exact Ht|].
      apply (news_app h _ [Sent (deepenStarted i);
                           GeneratorCalled (deepen_request env st level);
                           ErrorLogged; Sent (error failure_message)]).
      cbn [outbox log]. now rewrite <- !app_assoc.
Qed.

(** *** The agreement is kept *)

Section Agreement.
Context (env : environment)
  (related : gmap Z StepExplanations -> VoyaTour -> VoyaTour -> Prop)
  (Hrel : respected env related).

Lemma agree_loadTour tour h w :
  panel h = true -> agree related (roundtrip (loadTour tour) (h, w)).
Proof using Hrel.
  intros Hp. destruct (loadTour_spec tour h Hp) as (Hp' & Ht & Hi & Hn).
  unfold agree, roundtrip. cbn [fst snd app]. rewrite Hn.
  cbn [deliver fold_left onMessage setPlayerState playerState activeTour
         deepenedExplanations ps_currentStepIndex isLoadingDeepen].
  rewrite Ht, Hi. split; [exact Hp'|]. split; [reflexivity|].
  split; [reflexivity|]. split; [lia|]. split; [intros th _; lia|].
  intros ta [= <-]. exists tour. split; [reflexivity|].
  split; [reflexivity|]. apply (related_loaded _ _ Hrel).
Qed.

Lemma agree_sendMessage m h w :
  (forall a, activeTour (onMessage m a) = activeTour a
             /\ deepenedExplanations (onMessage m a) = deepenedExplanations a
             /\ ps_currentStepIndex (playerState (onMessage m a))
                = ps_currentStepIndex (playerState a)
             /\ isLoadingDeepen (playerState (onMessage m a))
                = isLoadingDeepen (playerState a)) ->
  agree related (h, w) -> agree related (roundtrip (sendMessage m) (h, w)).
Proof using Hrel.
  intros Hm (Hp & Hi & Hl & H0 & Hb & Hm').
  destruct (sendMessage_spec m h Hp) as (Hp' & Ht & Hi' & Hn).
  unfold agree, roundtrip. cbn [fst snd app] in *. rewrite Hn.
  cbn [deliver fold_left]. destruct (Hm (app w)) as (E1 & E2 & E3 & E4).
  rewrite E1, E2, E3, E4, Ht, Hi'. auto 10.
Qed.

Lemma agree_goToStep i h w :
  agree related (h, w) ->
  agree related (roundtrip (fun h => fst (goToStep i h)) (h, w)).
Proof using Hrel.
  intros (Hp & Hi & Hl & H0 & Hb & Hm).
  destruct (goToStep_spec i h Hp) as (Hp' & Ht & Hg).
  unfold agree, roundtrip. cbn [fst snd app] in *.
  destruct (currentTour h) as [tour|] eqn:Etour.
  - destruct Hg as [Hk Hn]. rewrite Hn. rewrite Ht.
    cbn [deliver fold_left onMessage setPlayerState playerState activeTour
           deepenedExplanations ps_currentStepIndex isLoadingDeepen].
    split; [exact Hp'|]. split; [reflexivity|]. split; [exact Hl|].
    split; [lia|]. split; [intros th [= <-]; lia|]. exact Hm.
  - rewrite Hg, Etour, news_same. cbn [deliver fold_left]. auto 10.
Qed.

Lemma agree_deepen level h w :
  agree related (h, w) -> agree related (handleRequestDeepen env level (h, w)).
Proof using Hrel.
  intros (Hp & Hi & Hl & H0 & Hb & Hm).
  unfold handleRequestDeepen, post, roundtrip. cbn [fst snd app] in *.
  cbn [receive]. rewrite Hi. set (i := currentStepIndex h) in *.
  destruct (handleDeepenRequest_spec env i level h Hp) as (Hp' & Hi' & Hd).
  set (h' := fst (handleDeepenRequest env i level h)) in *.
  unfold agree. cbn [fst snd app].
  destruct (currentTour h) as [th|] eqn:Eth.
  2:{ rewrite Hd, news_same, Eth. cbn [deliver fold_left]. auto 10. }
  destruct (nth_step (steps th) i) as [st|] eqn:Est.
  2:{ rewrite Hd, news_same, Eth. cbn [deliver fold_left]. auto 10. }
  destruct (truthy (embedded level st)) eqn:Ec.
  - destruct Hd as [Ht Hn]. rewrite Hn, Ht, Hi'.
    cbn [deliver fold_left onMessage setPlayerState setDeepenedExplanations
           with_loading playerState activeTour deepenedExplanations
           ps_currentStepIndex isLoadingDeepen].
    split; [exact Hp'|]. split; [exact Hi|]. split; [reflexivity|].
    split; [exact H0|]. split; [intros t [= <-]; now apply Hb|].
    intros ta Ha. destruct (Hm ta Ha) as (th' & [= <-] & Hlen & Hmi).
    exists th. split; [reflexivity|]. split; [exact Hlen|].
    apply truthy_true in Ec as (text & He & _). rewrite He. cbn [default].
    eapply (related_hit _ _ Hrel); eauto.
  - destruct (generate env (deepen_request env st level)) as [response|e].
    + cbn zeta in Hd. destruct Hd as [Ht Hn]. rewrite Hn, Ht, Hi'.
      assert (forall t0,
                Some (mkTour (tour_id th) (title th) (createdAt th)
                        (<[Z.to_nat i :=
                             cache_level level (resp_explanation response) st]>
                           (steps th))) = Some t0 ->
                (currentStepIndex h
                 < Z.max 1 (Z.of_nat (length (steps t0))))%Z) as Hb'.
      { intros t [= <-]. cbn [steps]. rewrite length_insert. now apply Hb. }
      destruct (saveTour env _) as [[]|e] eqn:Hsave;
        cbn [deliver fold_left onMessage setPlayerState
               setDeepenedExplanations with_loading playerState activeTour
               deepenedExplanations ps_currentStepIndex isLoadingDeepen];
        (split; [exact Hp'|]); (split; [exact Hi|]); (split; [reflexivity|]);
        (split; [exact H0|]); (split; [exact Hb'|]);
        intros ta Ha; destruct (Hm ta Ha) as (th' & [= <-] & Hlen & Hmi);
        (eexists; split; [reflexivity|]);
        (split; [cbn [steps]; now rewrite length_insert|]).
      * now apply (related_miss _ _ Hrel).
      * eapply (related_unsaved _ _ Hrel); eauto.
    + destruct Hd as [Ht Hn]. rewrite Hn, Ht, Hi'.
      cbn [deliver fold_left onMessage setPlayerState setDeepenedExplanations
             with_loading playerState activeTour deepenedExplanations
             ps_currentStepIndex isLoadingDeepen].
      split; [exact Hp'|]. split; [exact Hi|]. split; [reflexivity|].
      split; [exact H0|]. split; [intros t [= <-]; now apply Hb|].
      exact Hm.
Qed.

Lemma perform_agree a sys :
  agree related sys -> agree related (perform env a sys).
Proof using Hrel.
  destruct sys as [h [ap v]]. intros A.
  pose proof A as (Hp & _).
  unfold perform. cbn [fst snd].
  destruct a as [ts|found| | | | | | |i| |l| |t].
  - apply agree_sendMessage; [|exact A]. intros a. now cbn.
  - destruct (rendered _); try exact A.
    destruct found as [tour|].
    + now apply agree_loadTour.
    + unfold roundtrip. cbn [fst snd app view setView]. rewrite news_same.
      exact A.
  - destruct (rendered _); exact A.
  - destruct (rendered _); exact A.
  - destruct (rendered _); try exact A. unfold post. cbn [receive].
    unfold modify. cbn [fst].
    apply agree_sendMessage; [|exact A]. intros a. now cbn.
  - destruct (rendered _); try exact A. unfold post. cbn [receive].
    unfold modify. cbn [fst].
    apply agree_sendMessage; [|exact A]. intros a. now cbn.
  - destruct (rendered _); try exact A. unfold post. cbn [receive].
    exact (agree_goToStep _ h _ A).
  - destruct (rendered _); try exact A. unfold post. cbn [receive].
    exact (agree_goToStep _ h _ A).
  - destruct (rendered _); try exact A. unfold post. cbn [receive].
    exact (agree_goToStep _ h _ A).
  - destruct (rendered _); try exact A.
    destruct A as (? & ? & ? & ? & ? & _). unfold agree. cbn [fst snd app] in *.
    cbn [setActiveTour activeTour playerState]. do 5 (split; [assumption|]).
    discriminate.
  - destruct (rendered _); try exact A.
    apply agree_deepen.
    unfold post, roundtrip. cbn [receive fst snd app view]. unfold ret.
    cbn [fst]. rewrite news_same. cbn [deliver fold_left]. exact A.
  - destruct (rendered _); try exact A.
    destruct (getNextDeeperLevel _); [|exact A].
    destruct (_ && _); [|exact A].
    now apply agree_deepen.
  - now apply agree_loadTour.
Qed.

Lemma session_agree acts sys :
  agree related sys -> agree related (session env acts sys).
Proof using Hrel.
  revert sys. induction acts as [|a acts IH]; intros sys A; [exact A|].
  cbn [session fold_left]. apply IH. now apply perform_agree.
Qed.

End Agreement.

Lemma agree_opened related : agree related opened.
Proof.
  unfold agree, opened. cbn. repeat split; try lia; discriminate.
Qed.

Lemma mirrors_complete cache ta th i level st text :
  mirrors cache ta th ->
  nth_step (steps th) i = Some st -> embedded level st = Some text ->
  mirrors
    (<[i := set_level level text
              (match cache !! i with
               | Some e => e
               | None => no_explanations
               end)]> cache) ta th.
Proof.
  intros [Hlen Hm] Hs He. split; [exact Hlen|].
  intros i' sa sh Ha Hh. destruct (Hm i' sa sh Ha Hh) as [Hx Hl].
  split; [exact Hx|]. intros l. destruct (Hl l) as [H1 H2].
  split; [exact H1|]. rewrite cached_at_insert.
  destruct (bool_decide_reflect (i = i' /\ level = l)) as [[<- <-] | _];
    [congruence | exact H2].
Qed.

Lemma mirrors_cache cache ta th i level st text :
  mirrors cache ta th ->
  nth_step (steps th) i = Some st -> truthy (embedded level st) = false ->
  mirrors
    (<[i := set_level level text
              (match cache !! i with
               | Some e => e
               | None => no_explanations
               end)]> cache) ta
    (mkTour (tour_id th) (title th) (createdAt th)
       (<[Z.to_nat i := cache_level level text st]> (steps th))).
Proof.
  intros [Hlen Hm] Hs Hc. split; [cbn [steps]; now rewrite length_insert|].
  cbn [steps]. intros i' sa sh' Ha Hh'.
  apply nth_step_Some in Hs as [Hi0 Hs].
  apply nth_step_Some in Hh' as [Hi0' Hh'].
  destruct (decide (i = i')) as [<- | Hne].
  - rewrite list_lookup_insert_eq in Hh' by (eapply lookup_lt_Some; eauto).
    injection Hh' as <-.
    assert (nth_step (steps th) i = Some st) as Hst
      by (apply nth_step_Some; auto).
    destruct (Hm i sa st Ha Hst) as [Hx Hl]. split; [exact Hx|].
    intros l. destruct (Hl l) as [H1 H2].
    rewrite embedded_cache_level, cached_at_insert.
    destruct (decide (level = l)) as [<- | Hlv].
    + rewrite !bool_decide_true by auto. split; [|reflexivity].
      intros Ht. rewrite <- (H1 Ht) in Ht. congruence.
    + rewrite !bool_decide_false by tauto. auto.
  - rewrite list_lookup_insert_ne in Hh' by lia.
    assert (nth_step (steps th) i' = Some sh') as Hst
      by (apply nth_step_Some; auto).
    destruct (Hm i' sa sh' Ha Hst) as [Hx Hl]. split; [exact Hx|].
    intros l. destruct (Hl l) as [H1 H2]. split; [exact H1|].
    rewrite cached_at_insert, bool_decide_false by tauto. exact H2.
Qed.

Lemma mirrors_respected env :
  (forall t, saveTour env t = Returned tt) -> respected env mirrors.
Proof.
  intros Hsave. split.
  - intros tour. split; [reflexivity|]. intros i sa sh Ha Hh.
    assert (sa = sh) as -> by congruence.
    split; [reflexivity|]. intros l. split; [reflexivity|].
    unfold cached_at. now rewrite lookup_empty.
  - apply mirrors_complete.
  - apply mirrors_cache.
  - intros cache ta th i level st text e _ _ _ H. rewrite Hsave in H.
    discriminate.
Qed.

Lemma same_length_respected env : respected env (fun _ _ _ => True).
Proof. now split. Qed.



(** X13.  As long as the tour store accepts every write: in every session
    from the opening of the panel in which each action is handled to
    completion before the next one (the host's handler has run to its end
    and the webview has taken its messages: [session]), the explanation that
    the player shows is what the host's tour holds for the current step at
    the level selected in the webview (the text cached in the tour for that
    level when it is not empty, the default explanation otherwise). Nothing
    is said of a user who acts while a request to deepen is suspended. *)
Theorem webview_shows_what_host_holds (env : environment)
  (acts : list action) :
  (forall t, saveTour env t = Returned tt) ->
  let sys := session env acts opened in
  forall tour,
    rendered (snd sys) = PlayerScreen tour ->
    getCurrentExplanation (app (snd sys))
    = host_explanation (detailLevel (playerState (app (snd sys)))) (fst sys).
Proof.
  intros Hsave. cbn zeta.
  destruct (session_agree env _ (mirrors_respected env Hsave) acts opened
              (agree_opened _)) as (_ & Hi & _ & _ & _ & Hm).
  set (sys := session env acts opened) in *.
  intros tour Hr. unfold rendered in Hr.
  destruct (view (snd sys)); try discriminate.
  destruct (activeTour (app (snd sys))) as [ta|] eqn:Ha; [|discriminate].
  destruct (Hm ta eq_refl) as (th & Hth & Hlen & _ & Hmi).
  unfold getCurrentExplanation, host_explanation. rewrite Ha, Hth, <- Hi.
  set (i := ps_currentStepIndex _).
  destruct (nth_step (steps ta) i) as [sa|] eqn:Ea.
  2:{ apply nth_step_None in Ea. rewrite Hlen in Ea.
      apply nth_step_None in Ea. now rewrite Ea. }
  destruct (nth_step (steps th) i) as [sh|] eqn:Eh.
  2:{ apply nth_step_None in Eh. rewrite <- Hlen in Eh.
      apply nth_step_None in Eh. congruence. }
  destruct (Hmi i sa sh Ea Eh) as [Hx Hl].
  destruct (Hl (detailLevel (playerState (app (snd sys))))) as [H1 H2].
  change (cached (app (snd sys)))
    with (cached_at (deepenedExplanations (app (snd sys))) i
            (detailLevel (playerState (app (snd sys))))).
  set (level := detailLevel _) in *.
  destruct (cached_at _ i level) as [text|].
  - rewrite H2. destruct text as [|c text]; [|reflexivity].
    cbn [truthy]. destruct (truthy (embedded level sa)) eqn:Et; [|exact Hx].
    rewrite <- (H1 eq_refl) in Et. rewrite H2 in Et. discriminate.
  - rewrite H2. cbn [truthy]. now destruct (truthy (embedded level sa)).
Qed.

(** *** A write that the tour store rejects *)

(** X14.  When the generator answers with a text that is not empty and the
    tour store then rejects the write, the handler still returns normally
    and the webview is told of a failure ([deepenStarted], then the generic
    error): it ends with nothing loading and its cache as it was. The text
    nevertheless stays in the host's tour, so that the same request made
    again is answered from there with [deepenComplete], without the
    generator. *)
Theorem deepen_unsaved (env : environment) (i : Z) (level : DetailLevel)
  (h : host) (tour : VoyaTour) (st : VoyaStep) (response : LLMResponse)
  (e : list N) :
  panel h = true ->
  currentTour h = Some tour ->
  nth_step (steps tour) i = Some st ->
  truthy (embedded level st) = false ->
  generate env (deepen_request env st level) = Returned response ->
  resp_explanation response <> [] ->
  let text := resp_explanation response in
  let tour' :=
    mkTour (tour_id tour) (title tour) (createdAt tour)
      (<[Z.to_nat i := cache_level level text st]> (steps tour)) in
  saveTour env tour' = Thrown e ->
  let h1 := fst (handleDeepenRequest env i level h) in
  snd (handleDeepenRequest env i level h) = Returned tt
  /\ news h h1 = [deepenStarted i; error failure_message]
  /\ currentTour h1 = Some tour'
  /\ (forall a,
        let a' := deliver (news h h1) a in
        isLoadingDeepen (playerState a') = false
        /\ deepenedExplanations a' = deepenedExplanations a)
  /\ (forall env',
        let h2 := fst (handleDeepenRequest env' i level h1) in
        news h1 h2 = [deepenComplete i level text]
        /\ generator_invocations (outbox h2)
           = generator_invocations (outbox h1)
        /\ currentTour h2 = currentTour h1).
Proof.
  intros Hp Ht Hs Hc Hg Hne. cbn zeta. intros Hsave.
  destruct (deepen_miss env i level h tour st response Hp Ht Hs Hc Hg)
    as (Hr & Hp1 & Ht1 & _ & Hs1 & He1 & _).
  pose proof (deepen_miss_outbox env i level h tour st response
                Hp Ht Hs Hc Hg) as Ho.
  cbn zeta in Ho. rewrite Hsave in Ho.
  assert (news h (fst (handleDeepenRequest env i level h))
          = [deepenStarted i; error failure_message]) as Hn
    by now rewrite (news_app _ _ _ Ho).
  split; [exact Hr|]. split; [exact Hn|]. split; [exact Ht1|]. split.
  - intros a. rewrite Hn. now cbn.
  - intros env'.
    rewrite (deepen_hit env' i level _ _ _ _ Hp1 Ht1 Hs1 He1 Hne).
    cbn [fst log outbox currentTour]. split; [|split; [|reflexivity]].
    + now apply (news_app _ _ [Sent _]).
    + rewrite invocations_app. cbn. lia.
Qed.

(** *** The Deepen button *)

Lemma getNextDeeperLevel_deeper level next :
  getNextDeeperLevel level = Some next ->
  next <> level
  /\ (indexOf DETAIL_LEVELS next = indexOf DETAIL_LEVELS level + 1)%Z.
Proof. destruct level; intros [= <-]; split; (discriminate || reflexivity). Qed.

Lemma display_other_level a i level text :
  level <> detailLevel (playerState a) ->
  getCurrentExplanation (onMessage (deepenComplete i level text) a)
  = getCurrentExplanation a.
Proof.
  intros Hne. unfold getCurrentExplanation.
  cbn [onMessage setPlayerState setDeepenedExplanations activeTour
         playerState ps_currentStepIndex with_loading detailLevel].
  destruct (activeTour a) as [tour|]; [|reflexivity].
  destruct (nth_step _ _) as [st|]; [|reflexivity].
  assert (cached (onMessage (deepenComplete i level text) a) = cached a)
    as Hc.
  { change (cached (onMessage (deepenComplete i level text) a))
      with (cached_at
              (<[i := set_level level text
                        (match deepenedExplanations a !! i with
                         | Some e => e
                         | None => no_explanations
                         end)]> (deepenedExplanations a))
              (ps_currentStepIndex (playerState a))
              (detailLevel (playerState a))).
    rewrite cached_at_insert, bool_decide_false by tauto. reflexivity. }
  cbn [onMessage setPlayerState setDeepenedExplanations activeTour
         playerState ps_currentStepIndex with_loading detailLevel] in Hc.
  now rewrite Hc.
Qed.


(** *** Instances *)

Lemma webview_shows_what_host_holds_witness :
  let sys := session (answering (str "deep"))
               [SelectTour (Some demo_tour); PickLevel detailed] opened in
  rendered (snd sys) = PlayerScreen demo_tour
  /\ getCurrentExplanation (app (snd sys)) = str "deep"
  /\ host_explanation detailed (fst sys) = str "deep".
Proof.
  cbn zeta. split; [reflexivity|].
  pose proof (webview_shows_what_host_holds (answering (str "deep"))
                [SelectTour (Some demo_tour); PickLevel detailed]
                (fun _ => eq_refl) demo_tour eq_refl) as H.
  split; [rewrite H|]; reflexivity.
Defined.

Lemma deepen_unsaved_witness :
  let h1 := fst (handleDeepenRequest (unsaved (str "deep")) 0 detailed
                   (sample_host 1)) in
  news (sample_host 1) h1 = [deepenStarted 0; error failure_message]
  /\ news h1 (fst (handleDeepenRequest failing 0 detailed h1))
     = [deepenComplete 0 detailed (str "deep")].
Proof.
  cbn zeta.
  destruct (deepen_unsaved (unsaved (str "deep")) 0 detailed (sample_host 1)
              (sample_tour 1) (sample_step 0 None)
              (mkResponse (str "deep")) (str "EACCES"))
    as (_ & Hn & _ & _ & Hretry);
    try reflexivity; try discriminate.
  split; [exact Hn|]. exact (proj1 (Hretry failing)).
Defined.


End SessionProofs.

(** ** Tours made by the tour service *)

Module ToursProofs.
Import Js JsArray Types Player Tours RegexProofs.
Import PlayerProofs SessionProofs.

(** *** Numbers *)

(** An integer that is safe is its own double. *)
Lemma double_exact z :
  (- MAX_SAFE_INTEGER <= z <= MAX_SAFE_INTEGER)%Z -> double z = z.
Proof.
  unfold double, MAX_SAFE_INTEGER. intros Hz.
  destruct (Z.leb_spec (Z.abs z) (2 ^ 53)); [reflexivity | lia].
Qed.

Lemma num_add_exact a b :
  (- MAX_SAFE_INTEGER <= a + b <= MAX_SAFE_INTEGER)%Z ->
  num_add a b = (a + b)%Z.
Proof. apply double_exact. Qed.

Lemma num_sub_exact a b :
  (- MAX_SAFE_INTEGER <= a - b <= MAX_SAFE_INTEGER)%Z ->
  num_sub a b = (a - b)%Z.
Proof. apply double_exact. Qed.

(** Beyond the safe integers the sums of [createDemoTour] and of
    [generateStubSteps] are rounded: the ranges of six lines that start at
    line [2^53] leave out a line and run short of the last one, and those
    of three lines that start there are too short by a line each. *)
Lemma tours_beyond_safe_integers :
  (forall tour,
     createDemoTour [] [] [] (Returned tt) []
       (three_lines ++ [LF] ++ three_lines) (2 ^ 53) (2 ^ 53 + 5)
     = Returned tour ->
     ranges (steps tour)
     = [(2 ^ 53, 2 ^ 53 + 2); (2 ^ 53 + 4, 2 ^ 53 + 4)]%Z)
  /\ List.map (fun step => (gs_startLine step, gs_endLine step))
       (generateStubSteps
          (mkTourRequest three_lines [] (2 ^ 53) (2 ^ 53 + 2) general None
             None))
     = [(2 ^ 53, 2 ^ 53); (2 ^ 53 + 2, 2 ^ 53 + 2)]%Z.
Proof.
  split; [|vm_compute; reflexivity].
  intros tour H. vm_compute in H. injection H as <-. vm_compute. reflexivity.
Qed.

Lemma ceil_div_bounds a b :
  (0 < b)%Z -> (b * (ceil_div a b - 1) < a <= b * ceil_div a b)%Z.
Proof.
  intros Hb. unfold ceil_div.
  pose proof (Z.div_mod (- a) b ltac:(lia)).
  pose proof (Z.mod_pos_bound (- a) b Hb). nia.
Qed.

(** Ranges of [p] lines each, the last one cut at [n]: they tile [n] lines
    when only the last one is cut and it is not empty. *)
Lemma chunks_tile (first n p : Z) (k : nat) (f : nat -> Z * Z) (i : nat) :
  (forall j, f j = ((first + Z.of_nat j * p)%Z,
                    (first + Z.min ((Z.of_nat j + 1) * p - 1) (n - 1))%Z)) ->
  (1 <= p)%Z ->
  ((Z.of_nat i + Z.of_nat k) * p < n + p)%Z ->
  (n <= (Z.of_nat i + Z.of_nat k) * p)%Z ->
  1 <= k ->
  tiles (first + Z.of_nat i * p) (first + n - 1) (List.map f (seq i k)).
Proof.
  intros Hf Hp. revert i. induction k as [|k IH]; intros i Hlo Hhi Hk; [lia|].
  cbn [seq List.map]. destruct k as [|k].
  - cbn [seq List.map tiles]. rewrite Hf.
    replace ((Z.of_nat i + Z.of_nat 1) * p)%Z with (Z.of_nat i * p + p)%Z
      in * by ring.
    replace ((Z.of_nat i + 1) * p)%Z with (Z.of_nat i * p + p)%Z by ring.
    split; [reflexivity|]. split; lia.
  - specialize (IH (S i)). cbn [seq List.map] in IH |- *.
    rewrite Hf. cbn [tiles]. split; [reflexivity|].
    replace ((Z.of_nat i + Z.of_nat (S (S k))) * p)%Z
      with (Z.of_nat i * p + p + Z.of_nat (S k) * p)%Z in * by lia.
    replace ((Z.of_nat (S i) + Z.of_nat (S k)) * p)%Z
      with (Z.of_nat i * p + p + Z.of_nat (S k) * p)%Z in * by lia.
    replace ((Z.of_nat i + 1) * p)%Z with (Z.of_nat i * p + p)%Z by ring.
    assert (p <= Z.of_nat (S k) * p)%Z by nia.
    split; [lia|].
    replace (first + Z.min (Z.of_nat i * p + p - 1) (n - 1) + 1)%Z
      with (first + Z.of_nat (S i) * p)%Z by lia.
    apply IH; lia.
Qed.

(** X16.  For a selection whose line numbers are safe integers (it starts at
    a line that is not negative, and its first line number plus the number
    of its lines is at most [MAX_SAFE_INTEGER]), [createDemoTour] cuts the
    selection into one to five steps, numbered from 0, whose line ranges are
    not empty, follow one another without gap or overlap, start at the first
    line of the selection and end at its last line, counted from the text;
    the tour is returned unless the write fails. Beyond the safe integers
    the sums are rounded and the ranges no longer fit
    ([tours_beyond_safe_integers]). *)
Theorem createDemoTour_tiles (tourId createdAt basename : list N)
  (filePath selectedText : list N) (startLine endLine : Z) :
  (0 <= startLine)%Z ->
  (startLine + Z.of_nat (length (split LF selectedText))
   <= MAX_SAFE_INTEGER)%Z ->
  exists tour,
    createDemoTour tourId createdAt basename (Returned tt) filePath
      selectedText startLine endLine = Returned tour
    /\ 1 <= length (steps tour) <= 5
    /\ (forall k st, steps tour !! k = Some st ->
          stepIndex st = Z.of_nat k /\ Player.filePath st = filePath)
    /\ tiles startLine
         (startLine + Z.of_nat (length (split LF selectedText)) - 1)
         (ranges (steps tour)).
Proof.
  intros Hstart Hsafe.
  unfold createDemoTour. eexists. split; [reflexivity|]. cbn [steps].
  set (n := Z.of_nat (length (split LF selectedText))) in *.
  assert (1 <= n)%Z as Hn.
  { unfold n, split. rewrite ClassifierProofs.split_by_length. lia. }
  set (c := Z.min (Z.max 1 (ceil_div n 5)) 5).
  pose proof (ceil_div_bounds n 5 ltac:(lia)) as H5.
  assert (1 <= c <= 5)%Z as Hc by (unfold c; lia).
  pose proof (ceil_div_bounds n c ltac:(lia)) as Hp.
  set (p := ceil_div n c) in *.
  split; [rewrite length_map, length_seq; lia|]. split.
  - intros k st Hk.
    change (List.map ?f ?l) with (f <$> l) in Hk.
    apply list_lookup_fmap_Some in Hk as (i & -> & Hi).
    apply lookup_seq in Hi as [-> _]. split; reflexivity.
  - assert (1 <= p)%Z as Hp1 by nia.
    assert ((c - 1) * p < n)%Z as Hlast by (unfold c in *; nia).
    unfold ranges. rewrite List.map_map.
    rewrite (List.map_ext_in _
               (fun j => ((startLine + Z.of_nat j * p)%Z,
                          (startLine
                           + Z.min ((Z.of_nat j + 1) * p - 1) (n - 1))%Z))).
    2:{ intros j Hj%in_seq.
        cbn [Player.startLine Player.endLine demo_step].
        assert (0 <= Z.of_nat j * p <= (c - 1) * p)%Z by nia.
        rewrite !num_add_exact by lia. reflexivity. }
    replace startLine with (startLine + Z.of_nat 0 * p)%Z at 1 by lia.
    apply chunks_tile.
    + intros j. reflexivity.
    + exact Hp1.
    + rewrite Z2Nat.id by lia. cbn [Z.of_nat]. lia.
    + rewrite Z2Nat.id by lia. nia.
    + lia.
Qed.


(** *** Lines, joined and split *)

Lemma split_by_nonempty sep s : split_by sep s <> [].
Proof.
  destruct s as [|c s]; cbn [split_by]; [discriminate|].
  destruct (sep c); [discriminate|]. now destruct (split_by sep s).
Qed.

Lemma join_cons sep x l : l <> [] -> join sep (x :: l) = x ++ sep ++ join sep l.
Proof. destruct l; [now intros [] | reflexivity]. Qed.

(** [s.split('\n').join('\n')] is [s]. *)
Lemma join_split s : join [LF] (split LF s) = s.
Proof.
  unfold split. induction s as [|c s IH]; [reflexivity|].
  cbn [split_by]. destruct (N.eqb_spec LF c) as [<- | Hne].
  - rewrite join_cons by apply split_by_nonempty. now rewrite IH.
  - pose proof (split_by_nonempty (N.eqb LF) s) as Hn.
    destruct (split_by (N.eqb LF) s) as [|l ls]; [now destruct Hn|].
    destruct ls as [|l' ls]; cbn [join] in *; now rewrite <- IH.
Qed.

Lemma join_app sep l1 l2 :
  l1 <> [] -> l2 <> [] ->
  join sep (l1 ++ l2) = join sep l1 ++ sep ++ join sep l2.
Proof.
  intros H1 H2. induction l1 as [|x l1 IH]; [now destruct H1|].
  destruct l1 as [|y l1].
  - cbn [app]. now rewrite join_cons.
  - change ((x :: y :: l1) ++ l2) with (x :: (y :: l1) ++ l2).
    rewrite join_cons by discriminate. rewrite IH by discriminate.
    rewrite (join_cons sep x (y :: l1)) by discriminate.
    now rewrite <- !app_assoc.
Qed.

Lemma join_concat sep (cs : list (list (list N))) :
  Forall (fun c => c <> []) cs ->
  join sep (List.map (join sep) cs) = join sep (concat cs).
Proof.
  induction 1 as [|c cs Hc Hcs IH]; [reflexivity|].
  destruct cs as [|c' cs]; [cbn; now rewrite app_nil_r|].
  rewrite List.map_cons, join_cons by discriminate. rewrite IH.
  change (concat (c :: c' :: cs)) with (c ++ concat (c' :: cs)).
  rewrite join_app; [reflexivity | exact Hc |].
  inversion Hcs; subst. cbn [concat]. destruct c'; [congruence | discriminate].
Qed.

Lemma chunks_concat {A} (k p : nat) (l : list A) :
  length l <= k * p ->
  concat (List.map (fun i => take p (drop (i * p) l)) (seq 0 k)) = l.
Proof.
  revert l. induction k as [|k IH]; intros l Hl.
  - destruct l; [reflexivity | cbn in Hl; lia].
  - cbn [seq List.map concat]. rewrite <- seq_shift, List.map_map.
    cbn [Nat.mul drop].
    transitivity (take p l ++ drop p l); [|apply take_drop]. f_equal.
    erewrite List.map_ext; [apply (IH (drop p l))|].
    + rewrite length_drop. lia.
    + intros i. cbn beta. now rewrite drop_drop, (Nat.add_comm p).
Qed.

Lemma slice_chunk {A} (l : list A) (p : Z) (i : nat) :
  (1 <= p)%Z -> i * Z.to_nat p < length l ->
  slice l (Z.of_nat i * p)
    (Z.min ((Z.of_nat i + 1) * p - 1) (Z.of_nat (length l) - 1) + 1)
  = take (Z.to_nat p) (drop (i * Z.to_nat p) l).
Proof.
  intros Hp Hi. unfold slice.
  set (len := Z.of_nat (length l)).
  set (a := (Z.of_nat i * p)%Z).
  assert (Z.to_nat a = i * Z.to_nat p) as Hnat by (unfold a; nia).
  assert (0 <= a < len)%Z as Ha by (unfold len; nia).
  replace ((Z.of_nat i + 1) * p)%Z with (a + p)%Z by (unfold a; lia).
  set (e := Z.min (a + p - 1) (len - 1)).
  destruct (Z.ltb_spec a 0); [lia|].
  destruct (Z.ltb_spec (e + 1) 0); [lia|].
  rewrite (Z.min_l a len), (Z.min_l (e + 1) len) by lia. rewrite Hnat.
  destruct (Z.le_ge_cases (a + p) len).
  - f_equal. lia.
  - rewrite (take_ge (drop _ _) (Z.to_nat p)) by (rewrite length_drop; lia).
    apply take_ge. rewrite length_drop. lia.
Qed.

(** *** Stub steps *)

(** The number of stub steps and their length, for a text of [n] lines. *)
Lemma stub_counts (n : Z) :
  (2 <= n)%Z ->
  let c := Z.min (Z.max 2 (ceil_div n 10)) 5 in
  let p := ceil_div n c in
  (2 <= c <= 5)%Z /\ (1 <= p)%Z /\ ((c - 1) * p < n)%Z /\ (n <= c * p)%Z.
Proof.
  intros Hn c p.
  pose proof (ceil_div_bounds n 10 ltac:(lia)) as H10.
  assert (2 <= c <= 5)%Z as Hc by (unfold c; lia).
  pose proof (ceil_div_bounds n c ltac:(lia)) as Hp. fold p in Hp.
  assert (1 <= p)%Z as Hp1 by nia.
  split; [exact Hc|]. split; [exact Hp1|]. unfold c in *. split; nia.
Qed.

Lemma imap_map_seq {A B} (F : nat -> A -> B) (g : nat -> A) (k : nat) :
  imap F (List.map g (seq 0 k)) = List.map (fun j => F j (g j)) (seq 0 k).
Proof.
  change (List.map ?f ?l) with (f <$> l). rewrite imap_fmap.
  rewrite (imap_ext _ (fun j (_ : nat) => F j (g j)));
    [|intros i x Hx; apply lookup_seq in Hx as [-> _]; reflexivity].
  rewrite (imap_seq_0 (seq 0 k) (fun j => F j (g j))). now rewrite length_seq.
Qed.

Lemma snippets_map {A} (f : A -> VoyaStep) (sn : A -> list N) (l : list A) :
  (forall j, In j l -> codeSnippet (f j) = Some (sn j)) ->
  snippets (List.map f l) = List.map sn l.
Proof.
  unfold snippets. induction l as [|j l IH]; intros H; [reflexivity|].
  cbn [List.map omap list_omap]. rewrite (H j) by now left.
  cbn. f_equal. apply IH. intros; apply H; now right.
Qed.

(** Snippets cut every [p] lines, the last one at the end of the text, make
    up the text. *)
Lemma chunk_snippets (text : list N) (c : nat) (p : Z) :
  let n := Z.of_nat (length (split LF text)) in
  (n <= MAX_SAFE_INTEGER)%Z ->
  (1 <= p)%Z -> ((Z.of_nat c - 1) * p < n)%Z -> (n <= Z.of_nat c * p)%Z ->
  join [LF]
    (List.map
       (fun j => extractCodeSnippet text (Z.of_nat j * p)
                   (Z.min ((Z.of_nat j + 1) * p - 1) (n - 1)))
       (seq 0 c))
  = text.
Proof.
  intros n Hsafe Hp Hlo Hhi. unfold extractCodeSnippet.
  set (L := split LF text) in *.
  rewrite (List.map_ext_in _
             (fun j => join [LF] (take (Z.to_nat p) (drop (j * Z.to_nat p) L)))).
  - rewrite <- (List.map_map
                  (fun j => take (Z.to_nat p) (drop (j * Z.to_nat p) L))
                  (join [LF])).
    rewrite join_concat.
    + rewrite chunks_concat by (unfold n in *; nia). apply join_split.
    + apply Forall_forall. intros x Hx.
      apply list_elem_of_In, in_map_iff in Hx as (j & <- & Hj%in_seq).
      intros E. apply (f_equal length) in E.
      rewrite length_take, length_drop in E. cbn [length] in E.
      unfold n in *. nia.
  - intros j Hj%in_seq. f_equal.
    assert (0 <= Z.of_nat j * p)%Z by nia.
    rewrite num_add_exact by (unfold MAX_SAFE_INTEGER in *; lia).
    apply slice_chunk; [exact Hp|]. unfold n in *. nia.
Qed.

(** A slice that starts at or after the end of the array is empty. *)
Lemma slice_beyond {A} (l : list A) (a b : Z) :
  (Z.of_nat (length l) <= a)%Z -> slice l a b = [].
Proof.
  intros Ha. unfold slice.
  destruct (Z.ltb_spec a 0); [lia|].
  rewrite (Z.min_r a) by lia. rewrite Nat2Z.id.
  rewrite drop_ge by lia. apply take_nil.
Qed.

(** The lines of a stub step, when all the sums are safe integers. *)
Lemma stub_step_lines (request : TourGenerationRequest) (c p n : Z) (j : nat) :
  (0 <= tg_startLine request)%Z ->
  (tg_startLine request + n + 4 <= MAX_SAFE_INTEGER)%Z ->
  (0 <= Z.of_nat j * p)%Z -> ((Z.of_nat j + 1) * p <= n + 4)%Z ->
  (0 <= p)%Z ->
  gs_startLine (stub_step request c p j)
  = (tg_startLine request + Z.of_nat j * p)%Z
  /\ gs_endLine (stub_step request c p j)
     = Z.min (tg_startLine request + (Z.of_nat j + 1) * p - 1)
         (tg_endLine request).
Proof.
  intros H0 Hsafe Hj Hj1 Hp. cbn [gs_startLine gs_endLine stub_step].
  rewrite (num_add_exact _ (Z.of_nat j * p)) by lia.
  rewrite (num_add_exact _ ((Z.of_nat j + 1) * p)) by lia.
  rewrite num_sub_exact by (unfold MAX_SAFE_INTEGER in *; lia).
  split; reflexivity.
Qed.

(** The stub steps reach at most four lines beyond the text before they are
    cut at its last line. *)
Lemma stub_reach (n : Z) :
  (2 <= n)%Z ->
  let c := Z.min (Z.max 2 (ceil_div n 10)) 5 in
  (c * ceil_div n c <= n + 4)%Z.
Proof.
  intros Hn c.
  assert (2 <= c <= 5)%Z as Hc by (unfold c; lia).
  pose proof (ceil_div_bounds n c ltac:(lia)). nia.
Qed.

(** X17.  Without a key for the generator, or when its answer cannot be
    used, a tour of a selection of at least two lines, given with its first
    and last line numbers, which are safe integers with four to spare (the
    first is not negative, and the first plus the number of lines plus 4 is
    at most [MAX_SAFE_INTEGER]: the last stub step reaches up to four lines
    beyond the selection before it is cut at its last line), has two to five
    steps, numbered from 0, whose ranges are not empty, follow one another
    without gap or overlap and cover the selection exactly; every step has a
    snippet, and the snippets joined by line feeds are the selected text.
    Beyond the safe integers the sums are rounded and the ranges no longer
    fit ([tours_beyond_safe_integers]). *)
Theorem stub_tour_covers_selection (configured : bool)
  (parsed : outcome (list GeneratedStep)) (tourId createdAt title : list N)
  (filePath selectedText : list N) (startLine : Z) (level : DetailLevel)
  (language context : option (list N)) :
  configured = false \/ (exists e, parsed = Thrown e) ->
  2 <= length (split LF selectedText) ->
  (0 <= startLine)%Z ->
  (startLine + Z.of_nat (length (split LF selectedText)) + 4
   <= MAX_SAFE_INTEGER)%Z ->
  let endLine :=
    (startLine + Z.of_nat (length (split LF selectedText)) - 1)%Z in
  let request :=
    mkTourRequest selectedText filePath startLine endLine level language
      context in
  exists tour,
    createTour tourId createdAt title (generateTour configured parsed request)
      (Returned tt) filePath selectedText startLine endLine = Returned tour
    /\ 2 <= length (steps tour) <= 5
    /\ (forall k st, steps tour !! k = Some st -> stepIndex st = Z.of_nat k)
    /\ tiles startLine endLine (ranges (steps tour))
    /\ length (snippets (steps tour)) = length (steps tour)
    /\ join [LF] (snippets (steps tour)) = selectedText.
Proof.
  intros Hstub Hn Hstart Hsafe. cbn zeta.
  set (endLine := (startLine + _ - 1)%Z).
  set (request := mkTourRequest _ _ _ _ _ _ _).
  assert (generateTour configured parsed request = generateStubSteps request)
    as ->.
  { unfold generateTour. destruct Hstub as [-> | [e ->]]; [reflexivity|].
    now destruct (negb configured). }
  unfold createTour. eexists. split; [reflexivity|]. cbn [steps].
  unfold generateStubSteps. cbn [tg_code request].
  set (n := Z.of_nat (length (split LF selectedText))) in *.
  destruct (stub_counts n ltac:(unfold n; lia)) as (Hc & Hp1 & Hlo & Hhi).
  pose proof (stub_reach n ltac:(unfold n; lia)) as Hreach. cbn zeta in Hreach.
  set (c := Z.min (Z.max 2 (ceil_div n 10)) 5) in *.
  set (p := ceil_div n c) in *.
  assert (forall j, In j (seq 0 (Z.to_nat c)) ->
            gs_startLine (stub_step request c p j)
            = (startLine + Z.of_nat j * p)%Z
            /\ gs_endLine (stub_step request c p j)
               = (startLine + Z.min ((Z.of_nat j + 1) * p - 1) (n - 1))%Z)
    as Hlines.
  { intros j Hj%in_seq.
    destruct (stub_step_lines request c p n j) as [-> ->];
      cbn [tg_startLine tg_endLine request]; unfold endLine; nia. }
  rewrite imap_map_seq.
  split; [rewrite length_map, length_seq; lia|]. split; [|split; [|split]].
  - intros k st Hk. change (List.map ?f ?l) with (f <$> l) in Hk.
    apply list_lookup_fmap_Some in Hk as (i & -> & Hi).
    apply lookup_seq in Hi as [-> _]. reflexivity.
  - unfold ranges. rewrite List.map_map.
    rewrite (List.map_ext_in _
               (fun j => ((startLine + Z.of_nat j * p)%Z,
                          (startLine
                           + Z.min ((Z.of_nat j + 1) * p - 1) (n - 1))%Z))).
    2:{ intros j Hj. cbn [Player.startLine Player.endLine].
        now destruct (Hlines j Hj) as [-> ->]. }
    replace startLine with (startLine + Z.of_nat 0 * p)%Z at 1 by lia.
    replace endLine with (startLine + n - 1)%Z by (unfold endLine; lia).
    apply chunks_tile;
      [| lia | rewrite Z2Nat.id by lia; cbn [Z.of_nat]; lia
       | rewrite Z2Nat.id by lia; cbn [Z.of_nat]; lia | lia].
    intros j. reflexivity.
  - erewrite snippets_map by (intros; reflexivity).
    now rewrite !length_map.
  - erewrite snippets_map by (intros; reflexivity).
    etransitivity;
      [|apply (chunk_snippets selectedText (Z.to_nat c) p);
        [fold n; lia | exact Hp1 | rewrite Z2Nat.id by lia; exact Hlo
         | rewrite Z2Nat.id by lia; exact Hhi ]].
    f_equal. apply List.map_ext_in. intros j Hj.
    destruct (Hlines j Hj) as [-> ->]. fold n.
    apply in_seq in Hj.
    assert (0 <= Z.of_nat j * p <= (c - 1) * p)%Z by nia.
    assert ((Z.of_nat j + 1) * p = Z.of_nat j * p + p)%Z as -> by ring.
    rewrite !num_sub_exact by (unfold MAX_SAFE_INTEGER in *; lia).
    f_equal; lia.
Qed.

(** X18.  What the later [createTour] makes of the same steps: it takes
    their line numbers, which start at the first line of the selection, as
    counted from 1. For a selection of at least two lines whose line numbers
    stay safe integers when the first is added to them (the first is not
    negative, and twice the first plus the number of lines plus 4 is at most
    [MAX_SAFE_INTEGER]), the ranges of the tour are those of the selection
    moved down by [startLine - 1] lines, and the snippets are cut [startLine
    - 1] lines further down in the selected text: they make up the text when
    the selection starts at line 1, and are all empty when it starts below
    as many lines as it has. *)
Theorem selection_tour_is_shifted (configured : bool)
  (parsed : outcome (list GeneratedStep)) (tourId createdAt title : list N)
  (filePath selectedText : list N) (startLine : Z) (level : DetailLevel)
  (language context : option (list N)) :
  configured = false \/ (exists e, parsed = Thrown e) ->
  2 <= length (split LF selectedText) ->
  (0 <= startLine)%Z ->
  (startLine + (startLine + Z.of_nat (length (split LF selectedText))) + 4
   <= MAX_SAFE_INTEGER)%Z ->
  let lines := Z.of_nat (length (split LF selectedText)) in
  let endLine := (startLine + lines - 1)%Z in
  let request :=
    mkTourRequest selectedText filePath startLine endLine level language
      context in
  exists tour,
    SelectionTours.createTour tourId createdAt title
      (generateTour configured parsed request) (Returned tt) filePath
      selectedText startLine endLine = Returned tour
    /\ 2 <= length (steps tour) <= 5
    /\ tiles (startLine + (startLine - 1)) (endLine + (startLine - 1))
         (ranges (steps tour))
    /\ (startLine = 1%Z -> join [LF] (snippets (steps tour)) = selectedText)
    /\ (forall st, (lines < startLine)%Z -> In st (steps tour) ->
          codeSnippet st = Some []).
Proof.
  intros Hstub Hn Hstart Hsafe. cbn zeta.
  set (n := Z.of_nat (length (split LF selectedText))) in *.
  set (endLine := (startLine + n - 1)%Z).
  set (request := mkTourRequest _ _ _ _ _ _ _).
  assert (generateTour configured parsed request = generateStubSteps request)
    as ->.
  { unfold generateTour. destruct Hstub as [-> | [e ->]]; [reflexivity|].
    now destruct (negb configured). }
  unfold SelectionTours.createTour. eexists. split; [reflexivity|].
  cbn [steps]. unfold generateStubSteps. cbn [tg_code request]. fold n.
  destruct (stub_counts n ltac:(unfold n; lia)) as (Hc & Hp1 & Hlo & Hhi).
  pose proof (stub_reach n ltac:(unfold n; lia)) as Hreach. cbn zeta in Hreach.
  set (c := Z.min (Z.max 2 (ceil_div n 10)) 5) in *.
  set (p := ceil_div n c) in *.
  assert (forall j, In j (seq 0 (Z.to_nat c)) ->
            (0 <= Z.of_nat j * p <= (c - 1) * p)%Z
            /\ gs_startLine (stub_step request c p j)
               = (startLine + Z.of_nat j * p)%Z
            /\ gs_endLine (stub_step request c p j)
               = (startLine + Z.min (Z.of_nat j * p + p - 1) (n - 1))%Z)
    as Hlines.
  { intros j Hj%in_seq.
    assert (0 <= Z.of_nat j * p <= (c - 1) * p)%Z as Hjp by nia.
    split; [exact Hjp|].
    destruct (stub_step_lines request c p n j) as [-> ->];
      cbn [tg_startLine tg_endLine request]; unfold endLine; nia. }
  rewrite imap_map_seq.
  split; [rewrite length_map, length_seq; lia|]. split; [|split].
  - unfold ranges. rewrite List.map_map.
    rewrite (List.map_ext_in _
               (fun j => ((startLine + (startLine - 1) + Z.of_nat j * p)%Z,
                          (startLine + (startLine - 1)
                           + Z.min ((Z.of_nat j + 1) * p - 1) (n - 1))%Z))).
    2:{ intros j Hj. cbn [Player.startLine Player.endLine].
        destruct (Hlines j Hj) as (Hjp & -> & ->).
        assert ((Z.of_nat j + 1) * p = Z.of_nat j * p + p)%Z as -> by ring.
        rewrite !num_add_exact by (unfold MAX_SAFE_INTEGER in *; lia).
        rewrite !num_sub_exact by (unfold MAX_SAFE_INTEGER in *; lia).
        f_equal; lia. }
    replace (startLine + (startLine - 1))%Z
      with (startLine + (startLine - 1) + Z.of_nat 0 * p)%Z at 1 by lia.
    replace (endLine + (startLine - 1))%Z
      with (startLine + (startLine - 1) + n - 1)%Z by (unfold endLine; lia).
    apply chunks_tile;
      [| lia | rewrite Z2Nat.id by lia; cbn [Z.of_nat]; lia
       | rewrite Z2Nat.id by lia; cbn [Z.of_nat]; lia | lia].
    intros j. reflexivity.
  - intros ->. erewrite snippets_map by (intros; reflexivity).
    etransitivity;
      [|apply (chunk_snippets selectedText (Z.to_nat c) p);
        [fold n; unfold MAX_SAFE_INTEGER in *; lia | exact Hp1
         | rewrite Z2Nat.id by lia; exact Hlo
         | rewrite Z2Nat.id by lia; exact Hhi ]].
    f_equal. apply List.map_ext_in. intros j Hj.
    destruct (Hlines j Hj) as (Hjp & -> & ->). fold n.
    assert ((Z.of_nat j + 1) * p = Z.of_nat j * p + p)%Z as -> by ring.
    rewrite !num_sub_exact by (unfold MAX_SAFE_INTEGER in *; lia).
    f_equal; lia.
  - intros st Hfar Hin. apply in_map_iff in Hin as (j & <- & Hj).
    cbn [codeSnippet]. f_equal. unfold extractCodeSnippet.
    destruct (Hlines j Hj) as (Hjp & -> & _).
    rewrite num_sub_exact by (unfold MAX_SAFE_INTEGER in *; lia).
    rewrite slice_beyond; [reflexivity|]. fold n. lia.
Qed.

(** *** Explanations without a key *)

Lemma stub_text_nonempty request level : stub_text request level <> [].
Proof. destruct level; vm_compute; discriminate. Qed.

(** X19.  Without a key for the generator, a request to deepen an existing
    step that has no text at the level gets the placeholder of that level,
    which is never empty: the text goes into the host's tour; the webview
    gets [deepenStarted] and then [deepenComplete] with the text when the
    tour can be saved, the generic error otherwise; and the same request
    made again is answered from the tour with that text, without another
    call. *)
Theorem placeholder_is_cached (env : environment)
  (provider : LLMRequest -> outcome LLMResponse) (i : Z) (level : DetailLevel)
  (h : host) (tour : VoyaTour) (st : VoyaStep) :
  (forall request,
     generate env request = generateExplanation false provider request) ->
  panel h = true ->
  currentTour h = Some tour ->
  nth_step (steps tour) i = Some st ->
  truthy (embedded level st) = false ->
  let text := stub_text (deepen_request env st level) level in
  let tour' :=
    mkTour (tour_id tour) (title tour) (createdAt tour)
      (<[Z.to_nat i := cache_level level text st]> (steps tour)) in
  let h1 := fst (handleDeepenRequest env i level h) in
  text <> []
  /\ snd (handleDeepenRequest env i level h) = Returned tt
  /\ currentTour h1 = Some tour'
  /\ Session.news h h1
     = [deepenStarted i;
        match saveTour env tour' with
        | Returned _ => deepenComplete i level text
        | Thrown _ => error failure_message
        end]
  /\ (forall env',
        let h2 := fst (handleDeepenRequest env' i level h1) in
        Session.news h1 h2 = [deepenComplete i level text]
        /\ generator_invocations (outbox h2)
           = generator_invocations (outbox h1)
        /\ currentTour h2 = currentTour h1).
Proof.
  intros Hgen Hp Ht Hs Hc. cbn zeta.
  set (text := stub_text (deepen_request env st level) level).
  pose proof (stub_text_nonempty (deepen_request env st level) level) as Hne.
  fold text in Hne.
  assert (generate env (deepen_request env st level)
          = Returned (mkResponse text)) as Hg by (rewrite Hgen; reflexivity).
  destruct (deepen_miss env i level h tour st _ Hp Ht Hs Hc Hg)
    as (Hr & Hp1 & Ht1 & _ & Hs1 & He1 & _).
  pose proof (deepen_miss_outbox env i level h tour st _ Hp Ht Hs Hc Hg)
    as Ho.
  cbn zeta in Ho. cbn [resp_explanation] in *.
  split; [exact Hne|]. split; [exact Hr|]. split; [exact Ht1|]. split.
  - rewrite (news_app _ _ _ Ho). now destruct (saveTour env _).
  - intros env'.
    rewrite (deepen_hit env' i level _ _ _ _ Hp1 Ht1 Hs1 He1 Hne).
    cbn [fst log outbox currentTour]. split; [|split; [|reflexivity]].
    + now apply (news_app _ _ [Sent _]).
    + rewrite invocations_app. cbn. lia.
Qed.

(** *** The files of the tours *)

Lemma endsWith_app w s : endsWith w (s ++ w) = true.
Proof.
  unfold endsWith. rewrite rev_app_distr.
  destruct (strip_prefix (rev w) (rev w ++ rev s)) eqn:E; [reflexivity|].
  assert (strip_prefix (rev w) (rev w ++ rev s) = Some (rev s)) as E'
    by now apply strip_prefix_Some.
  congruence.
Qed.

(** [".json"] does not overlap itself: it starts a text that ends with it
    only where a whole occurrence starts. *)
Lemma json_no_overlap (s rest : list N) :
  s ++ str ".json" = str ".json" ++ rest ->
  s = [] \/ exists t, s = str ".json" ++ t.
Proof.
  intros E.
  destruct s as [|c1 [|c2 [|c3 [|c4 [|c5 s]]]]];
    [now left | exfalso; discriminate E..|].
  right. exists s. cbn in E. injection E as -> -> -> -> ->. reflexivity.
Qed.

(** X20.  For the file that [saveTour] writes for a tour, [listTours] asks
    [loadTour] for the identifier of that tour, and so for that file, when
    the identifier has no [".json"] in it: taking the first [".json"] out of
    the name of the file gives the identifier back. *)
Theorem listed_tour_is_saved_tour (tourId : list N) :
  ~ Journal.contains (str ".json") tourId ->
  listedTourId (tourFileName tourId) = Some tourId.
Proof.
  intros Hno. unfold listedTourId, tourFileName.
  rewrite endsWith_app.
  assert (replace_first (str ".json") (tourId ++ str ".json") = tourId) as ->.
  { induction tourId as [|c s IH]; [reflexivity|].
    cbn [replace_first app].
    destruct (strip_prefix (str ".json") (c :: s ++ str ".json")) as [rest|]
      eqn:E.
    - exfalso. apply strip_prefix_Some in E.
      destruct (json_no_overlap (c :: s) rest E) as [? | [t Ht]];
        [discriminate|].
      apply Hno. exists [], t. exact Ht.
    - f_equal. apply IH. intros (pre & post & ->). apply Hno.
      now exists (c :: pre), post. }
  reflexivity.
Qed.

(** *** Instances *)

Lemma listed_tour_is_saved_tour_witness :
  listedTourId (str "tour_1700000000000_k3j9x2a1b.json")
  = Some (str "tour_1700000000000_k3j9x2a1b").
Proof.
  apply (listed_tour_is_saved_tour (str "tour_1700000000000_k3j9x2a1b")).
  intros (pre & post & E).
  assert (In 46%N (str "tour_1700000000000_k3j9x2a1b")) as Hin.
  { rewrite E. apply in_app_iff. right. now left. }
  vm_compute in Hin. intuition discriminate.
Defined.

Lemma placeholder_is_cached_witness :
  let env :=
    mkEnv (fun _ => str "let a = 1;")
      (generateExplanation false (fun _ => Thrown (str "no key")))
      (fun _ => Returned tt) in
  let h1 := fst (handleDeepenRequest env 0 detailed (sample_host 1)) in
  Session.news (sample_host 1) h1
  = [deepenStarted 0;
     deepenComplete 0 detailed
       (stub_text (deepen_request env (sample_step 0 None) detailed)
          detailed)].
Proof.
  cbn zeta.
  destruct (placeholder_is_cached
              (mkEnv (fun _ => str "let a = 1;")
                 (generateExplanation false (fun _ => Thrown (str "no key")))
                 (fun _ => Returned tt))
              (fun _ => Thrown (str "no key")) 0 detailed (sample_host 1)
              (sample_tour 1) (sample_step 0 None))
    as (_ & _ & _ & Hn & _);
    [intros request; reflexivity | reflexivity..|].
  exact Hn.
Defined.

Lemma createDemoTour_tiles_witness :
  exists tour,
    createDemoTour (str "tour_1") (str "2024-01-01") (str "a.ts")
      (Returned tt) (str "src/a.ts") three_lines 10 12 = Returned tour
    /\ ranges (steps tour) = [(10, 12)]%Z.
Proof.
  destruct (createDemoTour_tiles (str "tour_1") (str "2024-01-01")
              (str "a.ts") (str "src/a.ts") three_lines 10 12)
    as (tour & Ht & _ & _ & _).
  - lia.
  - vm_compute. discriminate.
  - exists tour. split; [exact Ht|].
    injection Ht as <-. reflexivity.
Defined.

Lemma stub_tour_covers_selection_witness :
  exists tour,
    createTour (str "tour_1") (str "2024-01-01") (str "Tour of a.ts")
      (generateTour false (Returned [])
         (mkTourRequest three_lines (str "src/a.ts") 10 12 general None None))
      (Returned tt) (str "src/a.ts") three_lines 10 12 = Returned tour
    /\ ranges (steps tour) = [(10, 11); (12, 12)]%Z
    /\ join [LF] (snippets (steps tour)) = three_lines.
Proof.
  destruct (stub_tour_covers_selection false (Returned []) (str "tour_1")
              (str "2024-01-01") (str "Tour of a.ts") (str "src/a.ts")
              three_lines 10 general None None)
    as (tour & Ht & _ & _ & _ & _ & Hj).
  - now left.
  - vm_compute. lia.
  - lia.
  - vm_compute. discriminate.
  - exists tour. split; [exact Ht|]. split; [|exact Hj].
    injection Ht as <-. reflexivity.
Defined.

Lemma selection_tour_is_shifted_witness :
  exists tour,
    SelectionTours.createTour (str "tour_1") (str "2024-01-01")
      (str "Tour of a.ts")
      (generateTour false (Returned [])
         (mkTourRequest three_lines (str "src/a.ts") 10 12 general None None))
      (Returned tt) (str "src/a.ts") three_lines 10 12 = Returned tour
    /\ ranges (steps tour) = [(19, 20); (21, 21)]%Z
    /\ snippets (steps tour) = [[]; []].
Proof.
  destruct (selection_tour_is_shifted false (Returned []) (str "tour_1")
              (str "2024-01-01") (str "Tour of a.ts") (str "src/a.ts")
              three_lines 10 general None None)
    as (tour & Ht & _ & _ & _ & Hs).
  - now left.
  - vm_compute. lia.
  - lia.
  - vm_compute. discriminate.
  - exists tour. split; [exact Ht|].
    injection Ht as <-. split; reflexivity.
Defined.

End ToursProofs.
